(** * Memory::Profiler event queue: a shallow embedding of
    [ext/memory/profiler/queue.h] and [ext/memory/profiler/events.c].

    Conventions of the embedding.
    - [size_t] is the 64-bit unsigned type of an LP64 host: a [Z] in
      [0 .. SIZE_MAX], every arithmetic operation of the source written with
      its wrap-around ([wrap]).
    - The storage behind [queue->base] is a list of slots; slot [i] stands for
      the [element_size] bytes at [base + i * element_size].  A pointer into
      the storage is the index of its slot.  [NULL] is the empty storage.
    - [realloc] is an oracle argument: it fails, or it returns a block whose
      old slots are preserved and whose new slots hold whatever the allocator
      left there.
    - Behaviour the C standard leaves undefined, and a failed [assert], is the
      result [Crash]. *)

From Stdlib Require Import ZArith Lia List Bool.
From stdpp Require Import base numbers list strings.

Local Open Scope Z_scope.

(** ** Machine arithmetic *)

Definition SIZE_MAX : Z := 18446744073709551615.

(** Number of value bits of [size_t]; bounds the doubling loop. *)
Definition SIZE_BITS : nat := 64%nat.

Definition wrap (x : Z) : Z := x mod (SIZE_MAX + 1).

Arguments wrap : simpl never.

Definition in_size_t (x : Z) : Prop := 0 <= x <= SIZE_MAX.

Inductive fault : Type :=
| DivisionByZero
| AssertionFailed
| OutOfBounds
| OutOfFuel.

Inductive res (T : Type) : Type :=
| Ok (t : T)
| Crash (f : fault).

Arguments Ok {T} t.
Arguments Crash {T} f.

(** ** queue.h *)

Definition MEMORY_PROFILER_QUEUE_DEFAULT_COUNT : Z := 128.

Section Queue.

Context {A : Type}.

Record Memory_Profiler_Queue : Type := mkQueue {
  base : list A;
  capacity : Z;
  count : Z;
  element_size : Z
}.

(** What one call of [realloc] does. *)
Inductive realloc_result : Type :=
| realloc_NULL
| realloc_block (fresh : nat -> A).

(** [realloc(old, bytes)] on storage whose slots are [es] bytes wide: the
    block holds [bytes / es] slots, the old ones first. *)
Definition realloc (r : realloc_result) (old : list A) (bytes es : Z)
  : option (list A) :=
  match r with
  | realloc_NULL => None
  | realloc_block fresh =>
      let n := Z.to_nat (bytes / es) in
      Some (take n old ++ (fresh <$> seq (length old) (n - length old)))
  end.

Definition Memory_Profiler_Queue_initialize
    (queue : Memory_Profiler_Queue) (element_size : Z) : Memory_Profiler_Queue :=
  {| base := []; capacity := 0; count := 0; element_size := element_size |}.

Definition Memory_Profiler_Queue_free
    (queue : Memory_Profiler_Queue) : Memory_Profiler_Queue :=
  {| base := []; capacity := 0; count := 0;
     element_size := element_size queue |}.

(** The [while (new_capacity < required_capacity)] loop of
    [Memory_Profiler_Queue_resize]. *)
Inductive doubling : Type :=
| doubled (new_capacity : Z)
| would_overflow
| doubling_crash (f : fault).

Fixpoint double_until (fuel : nat) (element_size new_capacity required_capacity : Z)
  : doubling :=
  if new_capacity <? required_capacity then
    match fuel with
    | O => doubling_crash OutOfFuel
    | S fuel' =>
        let divisor := wrap (2 * element_size) in
        if divisor =? 0 then doubling_crash DivisionByZero
        else if new_capacity >? SIZE_MAX / divisor then would_overflow
        else double_until fuel' element_size (wrap (new_capacity * 2))
                          required_capacity
    end
  else doubled new_capacity.

(** Returns the [int] of the source (0, 1 or -1) and the queue after the
    call. *)
Definition Memory_Profiler_Queue_resize
    (queue : Memory_Profiler_Queue) (required_capacity : Z)
    (mem : realloc_result) : res (Z * Memory_Profiler_Queue) :=
  if required_capacity <=? capacity queue then Ok (0, queue)
  else
    let new_capacity :=
      if capacity queue =? 0 then MEMORY_PROFILER_QUEUE_DEFAULT_COUNT
      else capacity queue in
    match double_until SIZE_BITS (element_size queue) new_capacity
                       required_capacity with
    | doubling_crash f => Crash f
    | would_overflow => Ok (-1, queue)
    | doubled new_capacity =>
        if element_size queue =? 0 then Crash DivisionByZero
        else if new_capacity >? SIZE_MAX / element_size queue then Ok (-1, queue)
        else
          match realloc mem (base queue)
                        (wrap (new_capacity * element_size queue))
                        (element_size queue) with
          | None => Ok (-1, queue)
          | Some new_base =>
              Ok (1, {| base := new_base; capacity := new_capacity;
                        count := count queue;
                        element_size := element_size queue |})
          end
    end.

(** The returned pointer is the index of the reserved slot, [None] for
    [NULL]. *)
Definition Memory_Profiler_Queue_push
    (queue : Memory_Profiler_Queue) (mem : realloc_result)
  : res (option Z * Memory_Profiler_Queue) :=
  let new_count := wrap (count queue + 1) in
  let reserve (q : Memory_Profiler_Queue) :=
    Ok (Some (count q),
        {| base := base q; capacity := capacity q;
           count := wrap (count q + 1); element_size := element_size q |}) in
  if new_count >? capacity queue then
    match Memory_Profiler_Queue_resize queue new_count mem with
    | Crash f => Crash f
    | Ok (rc, q) => if rc =? -1 then Ok (None, q) else reserve q
    end
  else reserve queue.

Definition Memory_Profiler_Queue_clear
    (queue : Memory_Profiler_Queue) : Memory_Profiler_Queue :=
  {| base := base queue; capacity := capacity queue; count := 0;
     element_size := element_size queue |}.

Definition Memory_Profiler_Queue_at
    (queue : Memory_Profiler_Queue) (index : Z) : res Z :=
  if index <? count queue then Ok index else Crash AssertionFailed.

(** Reading and writing through a slot pointer. *)
Definition slot_load (queue : Memory_Profiler_Queue) (p : Z) : res A :=
  if p <? 0 then Crash OutOfBounds
  else match base queue !! Z.to_nat p with
       | Some x => Ok x
       | None => Crash OutOfBounds
       end.

Definition slot_store (queue : Memory_Profiler_Queue) (p : Z) (x : A)
  : res Memory_Profiler_Queue :=
  if (0 <=? p) && (p <? Z.of_nat (length (base queue))) then
    Ok {| base := <[Z.to_nat p := x]> (base queue);
          capacity := capacity queue; count := count queue;
          element_size := element_size queue |}
  else Crash OutOfBounds.

End Queue.

Arguments Memory_Profiler_Queue A : clear implicits.
Arguments realloc_result A : clear implicits.

(** ** events.h *)

(** A Ruby [VALUE] is a machine word.  [Qnil] is the special constant of
    ruby.h; nothing below depends on its numeric value. *)
Definition VALUE : Type := Z.
Definition Qnil : VALUE := 4.

(** Modelled from the spec: the sentinel kind "None" of a record.  events.c
    names it [MEMORY_PROFILER_EVENT_TYPE_NONE]; the events.h at hand declares
    only the two other enumerators.  The three kinds are distinct. *)
Inductive Memory_Profiler_Event_Type : Type :=
| MEMORY_PROFILER_EVENT_TYPE_NONE
| MEMORY_PROFILER_EVENT_TYPE_NEWOBJ
| MEMORY_PROFILER_EVENT_TYPE_FREEOBJ.

#[global] Instance Memory_Profiler_Event_Type_eq_dec :
  EqDecision Memory_Profiler_Event_Type.
Proof. solve_decision. Defined.

(** The members events.c reads and writes: the kind and three references.
    The struct of events.h has one more member, [allocations], between
    [klass] and [object]; events.c never reads or writes it (its [enqueue]
    takes no such argument), so a slot is modelled without it.  It counts
    in the size of a slot, below. *)
Record Memory_Profiler_Event : Type := mkEvent {
  type : Memory_Profiler_Event_Type;
  capture : VALUE;
  klass : VALUE;
  object : VALUE
}.

(** [sizeof(struct Memory_Profiler_Event)] on LP64: a 4-byte enum, 4 bytes
    of padding, and the four 8-byte words [capture], [klass], [allocations]
    and [object]. *)
Definition sizeof_Memory_Profiler_Event : Z := 40.

Definition set_type (t : Memory_Profiler_Event_Type) (e : Memory_Profiler_Event) :=
  {| type := t; capture := capture e; klass := klass e; object := object e |}.
Definition set_capture (v : VALUE) (e : Memory_Profiler_Event) :=
  {| type := type e; capture := v; klass := klass e; object := object e |}.
Definition set_klass (v : VALUE) (e : Memory_Profiler_Event) :=
  {| type := type e; capture := capture e; klass := v; object := object e |}.
Definition set_object (v : VALUE) (e : Memory_Profiler_Event) :=
  {| type := type e; capture := capture e; klass := klass e; object := v |}.

(** ** events.c: the store *)

(** [&events->queues[0]] and [&events->queues[1]]. *)
Inductive queue_ptr : Type := queues_0 | queues_1.

#[global] Instance queue_ptr_eq_dec : EqDecision queue_ptr.
Proof. solve_decision. Defined.

Record Memory_Profiler_Events : Type := mkEvents {
  self : VALUE;
  queues_at_0 : Memory_Profiler_Queue Memory_Profiler_Event;
  queues_at_1 : Memory_Profiler_Queue Memory_Profiler_Event;
  available : queue_ptr;
  processing : queue_ptr;
  processing_flag : Z;
  postponed_job_handle : Z
}.

Definition deref (events : Memory_Profiler_Events) (q : queue_ptr)
  : Memory_Profiler_Queue Memory_Profiler_Event :=
  match q with
  | queues_0 => queues_at_0 events
  | queues_1 => queues_at_1 events
  end.

Definition assign (events : Memory_Profiler_Events) (q : queue_ptr)
    (queue : Memory_Profiler_Queue Memory_Profiler_Event) : Memory_Profiler_Events :=
  match q with
  | queues_0 =>
      {| self := self events; queues_at_0 := queue;
         queues_at_1 := queues_at_1 events; available := available events;
         processing := processing events;
         processing_flag := processing_flag events;
         postponed_job_handle := postponed_job_handle events |}
  | queues_1 =>
      {| self := self events; queues_at_0 := queues_at_0 events;
         queues_at_1 := queue; available := available events;
         processing := processing events;
         processing_flag := processing_flag events;
         postponed_job_handle := postponed_job_handle events |}
  end.

Definition set_processing_flag (flag : Z) (events : Memory_Profiler_Events) :=
  {| self := self events; queues_at_0 := queues_at_0 events;
     queues_at_1 := queues_at_1 events; available := available events;
     processing := processing events; processing_flag := flag;
     postponed_job_handle := postponed_job_handle events |}.

Definition set_available (q : queue_ptr) (events : Memory_Profiler_Events) :=
  {| self := self events; queues_at_0 := queues_at_0 events;
     queues_at_1 := queues_at_1 events; available := q;
     processing := processing events;
     processing_flag := processing_flag events;
     postponed_job_handle := postponed_job_handle events |}.

Definition set_processing (q : queue_ptr) (events : Memory_Profiler_Events) :=
  {| self := self events; queues_at_0 := queues_at_0 events;
     queues_at_1 := queues_at_1 events; available := available events;
     processing := q;
     processing_flag := processing_flag events;
     postponed_job_handle := postponed_job_handle events |}.

(** A pointer to a record: the queue it lives in and its slot. *)
Definition event_ptr : Type := (queue_ptr * Z)%type.

(** ** The host: what the store calls and what calls the store *)

Inductive exception : Type :=
| rb_eRuntimeError (message : string)
| handler_error.

(** What can be observed at the boundary of the store, in order of
    occurrence.  [obs_enqueue] is logged by the caller of [enqueue] with the
    flag it got back; the others are calls the store makes. *)
Inductive observation : Type :=
| obs_enqueue (event : Memory_Profiler_Event) (flag : Z)
| obs_write_barrier (parent child : VALUE)
| obs_postponed_job_trigger (handle : Z)
| obs_process_event (event : Memory_Profiler_Event)
| obs_warning.

Record host : Type := mkHost {
  instance : Memory_Profiler_Events;
  observed : list observation
}.

Inductive outcome (T : Type) : Type :=
| Normal (t : T) (h : host)
| Raised (e : exception) (h : host)
| Stuck (f : fault).

Arguments Normal {T} t h.
Arguments Raised {T} e h.
Arguments Stuck {T} f.

Definition M (T : Type) : Type := host -> outcome T.

#[global] Instance M_ret : MRet M := fun T t h => Normal t h.

#[global] Instance M_bind : MBind M := fun T U k m h =>
  match m h with
  | Normal t h' => k t h'
  | Raised e h' => Raised e h'
  | Stuck f => Stuck f
  end.

Definition lift {T : Type} (r : res T) : M T := fun h =>
  match r with
  | Ok t => Normal t h
  | Crash f => Stuck f
  end.

Definition get_events : M Memory_Profiler_Events := fun h =>
  Normal (instance h) h.

Definition modify_events (f : Memory_Profiler_Events -> Memory_Profiler_Events)
  : M unit := fun h =>
  Normal tt {| instance := f (instance h); observed := observed h |}.

Definition observe (o : observation) : M unit := fun h =>
  Normal tt {| instance := instance h; observed := observed h ++ [o] |}.

Definition rb_raise {T : Type} (e : exception) : M T := fun h => Raised e h.

(** [*event] and [event->member = ...]. *)
Definition event_load (event : event_ptr) : M Memory_Profiler_Event :=
  events ← get_events;
  lift (slot_load (deref events event.1) event.2).

Definition event_store (event : event_ptr)
    (f : Memory_Profiler_Event -> Memory_Profiler_Event) : M unit :=
  events ← get_events;
  e ← lift (slot_load (deref events event.1) event.2);
  queue ← lift (slot_store (deref events event.1) event.2 (f e));
  modify_events (fun events => assign events event.1 queue).

(** [RB_OBJ_WRITE(parent, &event->member, value)]: the store, then the
    generational write barrier. *)
Definition RB_OBJ_WRITE (parent : VALUE) (event : event_ptr)
    (member : VALUE -> Memory_Profiler_Event -> Memory_Profiler_Event)
    (value : VALUE) : M unit :=
  event_store event (member value);;
  observe (obs_write_barrier parent value).

Definition rb_postponed_job_trigger (handle : Z) : M unit :=
  observe (obs_postponed_job_trigger handle).

Definition POSTPONED_JOB_HANDLE_INVALID : Z := 4294967295.

(** [handle] is what [rb_postponed_job_preregister] returned. *)
Definition Memory_Profiler_Events_new (self : VALUE) (handle : Z)
  : exception + Memory_Profiler_Events :=
  let queue :=
    Memory_Profiler_Queue_initialize
      {| base := []; capacity := 0; count := 0; element_size := 0 |}
      sizeof_Memory_Profiler_Event in
  if handle =? POSTPONED_JOB_HANDLE_INVALID then
    inl (rb_eRuntimeError "Failed to register postponed job!"%string)
  else
    inr {| self := self; queues_at_0 := queue; queues_at_1 := queue;
           available := queues_0; processing := queues_1;
           processing_flag := 0; postponed_job_handle := handle |}.

(** ** events.c: the collector's callbacks *)

(** The references [Memory_Profiler_Events_mark_queue] hands to
    [rb_gc_mark_movable], in the order of the calls, from slot [i] on. *)
Fixpoint mark_queue_from (fuel : nat)
    (queue : Memory_Profiler_Queue Memory_Profiler_Event) (skip_none : Z)
    (i : Z) : res (list VALUE) :=
  if i <? count queue then
    match fuel with
    | O => Crash OutOfFuel
    | S fuel' =>
        match Memory_Profiler_Queue_at queue i with
        | Crash f => Crash f
        | Ok p =>
            match slot_load queue p with
            | Crash f => Crash f
            | Ok event =>
                let marked :=
                  if negb (skip_none =? 0)
                     && bool_decide (type event = MEMORY_PROFILER_EVENT_TYPE_NONE)
                  then []
                  else
                    [capture event; klass event]
                    ++ (if bool_decide
                             (type event = MEMORY_PROFILER_EVENT_TYPE_NEWOBJ)
                        then [object event] else []) in
                match mark_queue_from fuel' queue skip_none (wrap (i + 1)) with
                | Crash f => Crash f
                | Ok rest => Ok (marked ++ rest)
                end
            end
        end
    end
  else Ok [].

Definition Memory_Profiler_Events_mark_queue
    (queue : Memory_Profiler_Queue Memory_Profiler_Event) (skip_none : Z)
  : res (list VALUE) :=
  mark_queue_from (Z.to_nat (count queue)) queue skip_none 0.

Definition Memory_Profiler_Events_mark (events : Memory_Profiler_Events)
  : res (list VALUE) :=
  match Memory_Profiler_Events_mark_queue (deref events (available events)) 0 with
  | Crash f => Crash f
  | Ok marked_available =>
      match Memory_Profiler_Events_mark_queue
              (deref events (processing events)) 1 with
      | Crash f => Crash f
      | Ok marked_processing => Ok (marked_available ++ marked_processing)
      end
  end.

(** [rb_gc_location] is the argument [location]. *)
Fixpoint compact_queue_from (fuel : nat) (location : VALUE -> VALUE)
    (queue : Memory_Profiler_Queue Memory_Profiler_Event) (skip_none : Z)
    (i : Z) : res (Memory_Profiler_Queue Memory_Profiler_Event) :=
  if i <? count queue then
    match fuel with
    | O => Crash OutOfFuel
    | S fuel' =>
        match Memory_Profiler_Queue_at queue i with
        | Crash f => Crash f
        | Ok p =>
            match slot_load queue p with
            | Crash f => Crash f
            | Ok event =>
                if negb (skip_none =? 0)
                   && bool_decide (type event = MEMORY_PROFILER_EVENT_TYPE_NONE)
                then compact_queue_from fuel' location queue skip_none (wrap (i + 1))
                else
                  let event1 := set_capture (location (capture event)) event in
                  let event2 := set_klass (location (klass event1)) event1 in
                  let event3 :=
                    if bool_decide
                         (type event2 = MEMORY_PROFILER_EVENT_TYPE_NEWOBJ)
                    then set_object (location (object event2)) event2
                    else event2 in
                  match slot_store queue p event3 with
                  | Crash f => Crash f
                  | Ok queue' =>
                      compact_queue_from fuel' location queue' skip_none
                                         (wrap (i + 1))
                  end
            end
        end
    end
  else Ok queue.

Definition Memory_Profiler_Events_compact_queue (location : VALUE -> VALUE)
    (queue : Memory_Profiler_Queue Memory_Profiler_Event) (skip_none : Z)
  : res (Memory_Profiler_Queue Memory_Profiler_Event) :=
  compact_queue_from (Z.to_nat (count queue)) location queue skip_none 0.

Definition Memory_Profiler_Events_compact (location : VALUE -> VALUE)
    (events : Memory_Profiler_Events) : res Memory_Profiler_Events :=
  match Memory_Profiler_Events_compact_queue location
          (deref events (available events)) 0 with
  | Crash f => Crash f
  | Ok queue =>
      let events1 := assign events (available events) queue in
      match Memory_Profiler_Events_compact_queue location
              (deref events1 (processing events1)) 1 with
      | Crash f => Crash f
      | Ok queue' => Ok (assign events1 (processing events1) queue')
      end
  end.

Definition Memory_Profiler_Events_free (events : Memory_Profiler_Events)
  : Memory_Profiler_Events :=
  let events1 := assign events queues_0 (Memory_Profiler_Queue_free (queues_at_0 events)) in
  assign events1 queues_1 (Memory_Profiler_Queue_free (queues_at_1 events1)).

(** ** events.c: enqueue *)

(** [mem] is what [realloc] does if this call reaches it.  [DEBUG] is 0, its
    branches are dead. *)
Definition Memory_Profiler_Events_enqueue
    (type : Memory_Profiler_Event_Type) (capture klass object : VALUE)
    (mem : realloc_result Memory_Profiler_Event) : M Z :=
  events ← get_events;
  pushed ← lift (Memory_Profiler_Queue_push (deref events (available events)) mem);
  modify_events (fun events => assign events (available events) pushed.2);;
  match pushed.1 with
  | Some p =>
      let event : event_ptr := (available events, p) in
      event_store event (set_type type);;
      RB_OBJ_WRITE (self events) event set_capture capture;;
      RB_OBJ_WRITE (self events) event set_klass klass;;
      RB_OBJ_WRITE (self events) event set_object object;;
      rb_postponed_job_trigger (postponed_job_handle events);;
      mret 1
  | None => mret 0
  end.

(** ** The producer and handler side *)

(** A call into the store, made by a producer or from inside the handler. *)
Inductive call : Type :=
| call_enqueue (type : Memory_Profiler_Event_Type) (capture klass object : VALUE)
               (mem : realloc_result Memory_Profiler_Event)
| call_postponed_job
| call_process_all.

Inductive reply : Type :=
| returned_int (n : Z)
| returned_void
| raised (e : exception).

(** Code outside the store: it returns, raises, or calls into the store and
    goes on according to what came back. *)
Inductive script : Type :=
| script_return
| script_raise (e : exception)
| script_call (c : call) (k : reply -> script).

Definition TAG_RAISE : Z := 6.

Section Events.

(** [Memory_Profiler_Capture_process_event], the external handler: what it
    does with a record, given all that was observed so far. *)
Variable Memory_Profiler_Capture_process_event :
  list observation -> Memory_Profiler_Event -> script.

(** [Memory_Profiler_Events_process_all], over the drain it calls. *)
Definition process_all_with (process_queue : M unit) : M unit :=
  events ← get_events;
  if negb (processing_flag events =? 0)
  then rb_raise (rb_eRuntimeError "Recursive call detected!"%string)
  else process_queue.

Definition run_call (process_queue : M unit) (c : call) : M reply :=
  match c with
  | call_enqueue type capture klass object mem =>
      flag ← Memory_Profiler_Events_enqueue type capture klass object mem;
      observe (obs_enqueue (mkEvent type capture klass object) flag);;
      mret (returned_int flag)
  | call_postponed_job => process_queue;; mret returned_void
  | call_process_all => process_all_with process_queue;; mret returned_void
  end.

Fixpoint run_script (process_queue : M unit) (s : script) (h : host)
  : outcome unit :=
  match s with
  | script_return => Normal tt h
  | script_raise e => Raised e h
  | script_call c k =>
      match run_call process_queue c h with
      | Normal r h' => run_script process_queue (k r) h'
      | Raised e h' => run_script process_queue (k (raised e)) h'
      | Stuck f => Stuck f
      end
  end.

(** [Memory_Profiler_Events_process_event_protected]. *)
Definition Memory_Profiler_Events_process_event_protected
    (process_queue : M unit) (event : event_ptr) : M unit := fun h =>
  (e ← event_load event;
   observe (obs_process_event e);;
   run_script process_queue (Memory_Profiler_Capture_process_event (observed h) e)) h.

(** [rb_protect(func, arg, &state)]: the exception, if any, stops here. *)
Definition rb_protect (body : M unit) : M Z := fun h =>
  match body h with
  | Normal _ h' => Normal 0 h'
  | Raised e h' => Normal TAG_RAISE h'
  | Stuck f => Stuck f
  end.

(** The body of the [for] loop of [Memory_Profiler_Events_process_queue], at
    index [i]: dispatch under [rb_protect], warn if it raised, reset the slot. *)
Definition process_event_at (process_queue : M unit) (i : Z) : M unit :=
  events ← get_events;
  p ← lift (Memory_Profiler_Queue_at (deref events (processing events)) i);
  let event : event_ptr := (processing events, p) in
  state ← rb_protect
            (Memory_Profiler_Events_process_event_protected process_queue event);
  (if negb (state =? 0) then observe obs_warning else mret tt);;
  events ← get_events;
  event_store event (set_type MEMORY_PROFILER_EVENT_TYPE_NONE);;
  RB_OBJ_WRITE (self events) event set_capture Qnil;;
  RB_OBJ_WRITE (self events) event set_klass Qnil;;
  RB_OBJ_WRITE (self events) event set_object Qnil.

(** The loop itself, from index [i]. *)
Fixpoint process_events_from (process_queue : M unit) (fuel : nat) (i : Z)
    (h : host) : outcome unit :=
  if i <? count (deref (instance h) (processing (instance h))) then
    match fuel with
    | O => Stuck OutOfFuel
    | S fuel' =>
        (process_event_at process_queue i;;
         process_events_from process_queue fuel' (wrap (i + 1))) h
    end
  else Normal tt h.

(** The first half of the drain: raise the guard and swap the roles. *)
Definition drain_begin (events : Memory_Profiler_Events) : Memory_Profiler_Events :=
  let events1 := set_processing_flag 1 events in
  let queue_to_process := available events1 in
  let events2 := set_available (processing events1) events1 in
  set_processing queue_to_process events2.

(** The second half: clear the processing queue and drop the guard. *)
Definition drain_end (events : Memory_Profiler_Events) : Memory_Profiler_Events :=
  let events1 :=
    assign events (processing events)
           (Memory_Profiler_Queue_clear (deref events (processing events))) in
  set_processing_flag 0 events1.

(** [depth] bounds how deep handlers may re-enter the drain. *)
Fixpoint Memory_Profiler_Events_process_queue (depth : nat) (h : host)
  : outcome unit :=
  if negb (processing_flag (instance h) =? 0) then Normal tt h
  else
    match depth with
    | O => Stuck OutOfFuel
    | S depth' =>
        (modify_events drain_begin;;
         events ← get_events;
         process_events_from (Memory_Profiler_Events_process_queue depth')
           (Z.to_nat (count (deref events (processing events)))) 0;;
         modify_events drain_end) h
    end.

Definition Memory_Profiler_Events_process_all (depth : nat) : M unit :=
  process_all_with (Memory_Profiler_Events_process_queue depth).

(** A producer program run against the store. *)
Definition run (depth : nat) (main : script) : M unit :=
  run_script (Memory_Profiler_Events_process_queue depth) main.

End Events.

(** ** Vocabulary of the statements *)

Section QueueVocabulary.

Context {A : Type}.

(** The storage really holds [capacity] slots of a positive size, the
    byte size of which fits [size_t], and the logical count is within it. *)
Definition queue_wf (q : Memory_Profiler_Queue A) : Prop :=
  length (base q) = Z.to_nat (capacity q)
  /\ 0 <= count q <= capacity q
  /\ 0 < element_size q < 9223372036854775808
  /\ capacity q * element_size q <= SIZE_MAX
  /\ capacity q < SIZE_MAX.

(** The records a queue logically holds: its slots below [count]. *)
Definition pending (q : Memory_Profiler_Queue A) : list A :=
  take (Z.to_nat (count q)) (base q).

(** The operations of queue.h, as a caller can sequence them. *)
Inductive queue_op : Type :=
| op_initialize (element_size : Z)
| op_push (mem : realloc_result A)
| op_at (index : Z)
| op_clear
| op_resize (required_capacity : Z) (mem : realloc_result A)
| op_free.

Definition queue_step (q : Memory_Profiler_Queue A) (op : queue_op)
  : res (Memory_Profiler_Queue A) :=
  match op with
  | op_initialize es => Ok (Memory_Profiler_Queue_initialize q es)
  | op_push mem =>
      match Memory_Profiler_Queue_push q mem with
      | Ok (_, q') => Ok q'
      | Crash f => Crash f
      end
  | op_at index =>
      match Memory_Profiler_Queue_at q index with
      | Ok _ => Ok q
      | Crash f => Crash f
      end
  | op_clear => Ok (Memory_Profiler_Queue_clear q)
  | op_resize required mem =>
      match Memory_Profiler_Queue_resize q required mem with
      | Ok (_, q') => Ok q'
      | Crash f => Crash f
      end
  | op_free => Ok (Memory_Profiler_Queue_free q)
  end.

Fixpoint queue_run (q : Memory_Profiler_Queue A) (ops : list queue_op)
  : res (Memory_Profiler_Queue A) :=
  match ops with
  | [] => Ok q
  | op :: ops' =>
      match queue_step q op with
      | Ok q' => queue_run q' ops'
      | Crash f => Crash f
      end
  end.

(** Whether an operation is one that gives the storage up. *)
Definition releases (op : queue_op) : bool :=
  match op with
  | op_initialize _ | op_free => true
  | _ => false
  end.

(** A caller that pushes a record: reserve the tail slot, write the record
    through the returned pointer.  [None] when [push] returned [NULL]. *)
Definition push_record (q : Memory_Profiler_Queue A) (x : A)
    (mem : realloc_result A) : res (option (Memory_Profiler_Queue A)) :=
  match Memory_Profiler_Queue_push q mem with
  | Crash f => Crash f
  | Ok (None, _) => Ok None
  | Ok (Some p, q') =>
      match slot_store q' p x with
      | Crash f => Crash f
      | Ok q'' => Ok (Some q'')
      end
  end.

Fixpoint push_records (q : Memory_Profiler_Queue A)
    (records : list (A * realloc_result A))
  : res (option (Memory_Profiler_Queue A)) :=
  match records with
  | [] => Ok (Some q)
  | (x, mem) :: rest =>
      match push_record q x mem with
      | Crash f => Crash f
      | Ok None => Ok None
      | Ok (Some q') => push_records q' rest
      end
  end.

(** Indexed access: [*(T * )Memory_Profiler_Queue_at(queue, index)]. *)
Definition read_at (q : Memory_Profiler_Queue A) (index : Z) : res A :=
  match Memory_Profiler_Queue_at q index with
  | Crash f => Crash f
  | Ok p => slot_load q p
  end.

(** Doubling in unbounded arithmetic: the least [c * 2^j] that covers the
    requirement, as the specification words it. *)
Fixpoint doubling_target (fuel : nat) (c required : Z) : Z :=
  if c <? required then
    match fuel with
    | O => c
    | S fuel' => doubling_target fuel' (2 * c) required
    end
  else c.

Definition grown_capacity (q : Memory_Profiler_Queue A) (required : Z) : Z :=
  doubling_target SIZE_BITS
    (if capacity q =? 0 then MEMORY_PROFILER_QUEUE_DEFAULT_COUNT else capacity q)
    required.

(** The queue after [*p = x]. *)
Definition store_slot (q : Memory_Profiler_Queue A) (p : Z) (x : A)
  : Memory_Profiler_Queue A :=
  {| base := <[Z.to_nat p := x]> (base q); capacity := capacity q;
     count := count q; element_size := element_size q |}.

Definition doubling_start (q : Memory_Profiler_Queue A) : Z :=
  if capacity q =? 0 then MEMORY_PROFILER_QUEUE_DEFAULT_COUNT else capacity q.

(** What [realloc] hands back when the byte count did not wrap. *)
Definition grown_base (fresh : nat -> A) (old : list A) (n : Z) : list A :=
  take (Z.to_nat n) old ++ (fresh <$> seq (length old) (Z.to_nat n - length old)).

(** The five ways out of [Memory_Profiler_Queue_resize]. *)
Inductive resize_spec (q : Memory_Profiler_Queue A) (required : Z)
    (mem : realloc_result A) : res (Z * Memory_Profiler_Queue A) -> Prop :=
| resize_enough :
    required <= capacity q -> resize_spec q required mem (Ok (0, q))
| resize_rejected :
    capacity q < required ->
    element_size q < 0 \/ grown_capacity q required * element_size q > SIZE_MAX ->
    resize_spec q required mem (Ok (-1, q))
| resize_exhausted :
    capacity q < required ->
    0 < element_size q ->
    grown_capacity q required * element_size q <= SIZE_MAX ->
    mem = realloc_NULL ->
    resize_spec q required mem (Ok (-1, q))
| resize_grown fresh :
    capacity q < required ->
    0 < element_size q ->
    grown_capacity q required * element_size q <= SIZE_MAX ->
    required <= grown_capacity q required ->
    mem = realloc_block fresh ->
    resize_spec q required mem
      (Ok (1, {| base := grown_base fresh (base q) (grown_capacity q required);
                 capacity := grown_capacity q required;
                 count := count q; element_size := element_size q |}))
| resize_undefined :
    capacity q < required ->
    element_size q = 0 \/ wrap (2 * element_size q) = 0 ->
    resize_spec q required mem (Crash DivisionByZero).

(** The two ways out of [Memory_Profiler_Queue_push] on a well-formed queue. *)
Inductive push_spec (q : Memory_Profiler_Queue A) (mem : realloc_result A)
  : res (option Z * Memory_Profiler_Queue A) -> Prop :=
| push_NULL :
    count q = capacity q ->
    grown_capacity q (count q + 1) * element_size q > SIZE_MAX
    \/ mem = realloc_NULL ->
    push_spec q mem (Ok (None, q))
| push_slot q' :
    queue_wf q' ->
    count q' = count q + 1 ->
    element_size q' = element_size q ->
    (exists extra, base q' = base q ++ extra) ->
    capacity q' = capacity q
    \/ count q = capacity q /\ capacity q' = grown_capacity q (count q + 1)
       /\ mem <> realloc_NULL ->
    push_spec q mem (Ok (Some (count q), q')).

(** A capacity reached from the default floor by doubling, or none yet. *)
Definition doubled_from_floor (c : Z) : Prop :=
  c = 0 \/ exists k, 0 <= k /\ c = MEMORY_PROFILER_QUEUE_DEFAULT_COUNT * 2 ^ k.

(** The arguments of an operation are values of [size_t]. *)
Definition op_in_range (op : queue_op) : Prop :=
  match op with
  | op_resize required _ => in_size_t required
  | _ => True
  end.

Definition queue_inv (q : Memory_Profiler_Queue A) : Prop :=
  0 <= count q <= capacity q
  /\ doubled_from_floor (capacity q)
  /\ length (base q) = Z.to_nat (capacity q).

End QueueVocabulary.

Arguments queue_op A : clear implicits.

(** ** Vocabulary of the statements about the store *)

Definition store_wf (events : Memory_Profiler_Events) : Prop :=
  queue_wf (queues_at_0 events) /\ queue_wf (queues_at_1 events)
  /\ available events <> processing events.

Definition available_queue (h : host) : Memory_Profiler_Queue Memory_Profiler_Event :=
  deref (instance h) (available (instance h)).

Definition processing_queue (h : host) : Memory_Profiler_Queue Memory_Profiler_Event :=
  deref (instance h) (processing (instance h)).

(** The records handed to the handler, in order. *)
Definition dispatched (obs : list observation) : list Memory_Profiler_Event :=
  omap (fun o => match o with obs_process_event e => Some e | _ => None end) obs.

(** The records whose [enqueue] reported success, in order. *)
Definition enqueued (obs : list observation) : list Memory_Profiler_Event :=
  omap (fun o => match o with
                 | obs_enqueue e flag => if flag =? 0 then None else Some e
                 | _ => None
                 end) obs.

(** A slot after its reset: the sentinel kind, no reference. *)
Definition cleared : Memory_Profiler_Event :=
  {| type := MEMORY_PROFILER_EVENT_TYPE_NONE; capture := Qnil; klass := Qnil;
     object := Qnil |}.

Definition write_event (events : Memory_Profiler_Events) (event : event_ptr)
    (e : Memory_Profiler_Event) : Memory_Profiler_Events :=
  assign events event.1 (store_slot (deref events event.1) event.2 e).

(** From [h] to [h'] the producer side appended [new] to the available
    queue and nothing else of the store moved. *)
Definition extends_by (new : list Memory_Profiler_Event) (h h' : host) : Prop :=
  store_wf (instance h')
  /\ self (instance h') = self (instance h)
  /\ postponed_job_handle (instance h') = postponed_job_handle (instance h)
  /\ processing_flag (instance h') = processing_flag (instance h)
  /\ available (instance h') = available (instance h)
  /\ processing (instance h') = processing (instance h)
  /\ processing_queue h' = processing_queue h
  /\ pending (available_queue h') = pending (available_queue h) ++ new
  /\ enqueued (observed h') = enqueued (observed h) ++ new
  /\ dispatched (observed h') = dispatched (observed h).

(** The two ways out of [Memory_Profiler_Events_enqueue] on a well-formed
    store. *)
Inductive enqueue_spec (type : Memory_Profiler_Event_Type)
    (capture klass object : VALUE) (mem : realloc_result Memory_Profiler_Event)
    (h : host) : outcome Z -> Prop :=
| enqueue_dropped :
    count (available_queue h) = capacity (available_queue h) ->
    grown_capacity (available_queue h) (count (available_queue h) + 1)
    * element_size (available_queue h) > SIZE_MAX
    \/ mem = realloc_NULL ->
    enqueue_spec type capture klass object mem h (Normal 0 h)
| enqueue_stored queue :
    queue_wf queue ->
    count queue = count (available_queue h) + 1 ->
    capacity (available_queue h) <= capacity queue ->
    pending queue
    = pending (available_queue h) ++ [mkEvent type capture klass object] ->
    enqueue_spec type capture klass object mem h
      (Normal 1
         {| instance := assign (instance h) (available (instance h)) queue;
            observed :=
              observed h
              ++ [obs_write_barrier (self (instance h)) capture;
                  obs_write_barrier (self (instance h)) klass;
                  obs_write_barrier (self (instance h)) object;
                  obs_postponed_job_trigger (postponed_job_handle (instance h))] |}).

(** From [h] to [h'] the drain dispatched the record [e] of slot [i] and
    reset the slot, while the producer side appended [new]. *)
Definition dispatches_slot (new : list Memory_Profiler_Event)
    (e : Memory_Profiler_Event) (i : Z) (h h' : host) : Prop :=
  store_wf (instance h')
  /\ self (instance h') = self (instance h)
  /\ postponed_job_handle (instance h') = postponed_job_handle (instance h)
  /\ processing_flag (instance h') = processing_flag (instance h)
  /\ available (instance h') = available (instance h)
  /\ processing (instance h') = processing (instance h)
  /\ processing_queue h' = store_slot (processing_queue h) i cleared
  /\ pending (available_queue h') = pending (available_queue h) ++ new
  /\ enqueued (observed h') = enqueued (observed h) ++ new
  /\ dispatched (observed h') = dispatched (observed h) ++ [e].

(** A queue whose slots from [i] up to the logical count have been reset. *)
Definition reset_from (i : Z) (q : Memory_Profiler_Queue Memory_Profiler_Event)
  : Memory_Profiler_Queue Memory_Profiler_Event :=
  {| base := take (Z.to_nat i) (base q)
             ++ replicate (Z.to_nat (count q - i)) cleared
             ++ drop (Z.to_nat (count q)) (base q);
     capacity := capacity q; count := count q;
     element_size := element_size q |}.

(** From [h] to [h'] the drain loop dispatched, in order, the records of the
    slots from [i] on and reset them, while the producer side appended
    [new]. *)
Definition drains_from (new : list Memory_Profiler_Event) (i : Z)
    (h h' : host) : Prop :=
  store_wf (instance h')
  /\ self (instance h') = self (instance h)
  /\ postponed_job_handle (instance h') = postponed_job_handle (instance h)
  /\ processing_flag (instance h') = processing_flag (instance h)
  /\ available (instance h') = available (instance h)
  /\ processing (instance h') = processing (instance h)
  /\ processing_queue h' = reset_from i (processing_queue h)
  /\ pending (available_queue h') = pending (available_queue h) ++ new
  /\ enqueued (observed h') = enqueued (observed h) ++ new
  /\ dispatched (observed h')
     = dispatched (observed h) ++ drop (Z.to_nat i) (pending (processing_queue h)).

(** From [h] to [h'] one whole drain ran. *)
Definition drained (new : list Memory_Profiler_Event) (h h' : host) : Prop :=
  store_wf (instance h')
  /\ self (instance h') = self (instance h)
  /\ postponed_job_handle (instance h') = postponed_job_handle (instance h)
  /\ processing_flag (instance h') = 0
  /\ available (instance h') = processing (instance h)
  /\ processing (instance h') = available (instance h)
  /\ processing_queue h'
     = Memory_Profiler_Queue_clear (reset_from 0 (available_queue h))
  /\ pending (available_queue h') = pending (processing_queue h) ++ new
  /\ enqueued (observed h') = enqueued (observed h) ++ new
  /\ dispatched (observed h')
     = dispatched (observed h) ++ pending (available_queue h).

(** The store between drains. *)
Definition idle (h : host) : Prop :=
  store_wf (instance h)
  /\ processing_flag (instance h) = 0
  /\ count (processing_queue h) = 0
  /\ enqueued (observed h) = dispatched (observed h) ++ pending (available_queue h).

(** A drain entered while the guard is up returns at once. *)
Definition guarded (process_queue : M unit) : Prop :=
  forall h, processing_flag (instance h) <> 0 -> process_queue h = Normal tt h.

(** What the mark walk hands to the collector for one slot. *)
Definition marked_of (skip_none : Z) (e : Memory_Profiler_Event) : list VALUE :=
  if negb (skip_none =? 0)
     && bool_decide (type e = MEMORY_PROFILER_EVENT_TYPE_NONE)
  then []
  else [capture e; klass e]
       ++ (if bool_decide (type e = MEMORY_PROFILER_EVENT_TYPE_NEWOBJ)
           then [object e] else []).

(** What the relocation walk leaves in one slot. *)
Definition relocated (location : VALUE -> VALUE) (skip_none : Z)
    (e : Memory_Profiler_Event) : Memory_Profiler_Event :=
  if negb (skip_none =? 0)
     && bool_decide (type e = MEMORY_PROFILER_EVENT_TYPE_NONE)
  then e
  else {| type := type e; capture := location (capture e);
          klass := location (klass e);
          object := if bool_decide (type e = MEMORY_PROFILER_EVENT_TYPE_NEWOBJ)
                    then location (object e) else object e |}.

(** A queue whose slots from [i] up to the logical count have been through
    the relocation walk. *)
Definition relocate_from (location : VALUE -> VALUE) (skip_none : Z) (i : Z)
    (q : Memory_Profiler_Queue Memory_Profiler_Event)
  : Memory_Profiler_Queue Memory_Profiler_Event :=
  {| base := take (Z.to_nat i) (base q)
             ++ (relocated location skip_none
                   <$> drop (Z.to_nat i) (pending q))
             ++ drop (Z.to_nat (count q)) (base q);
     capacity := capacity q; count := count q;
     element_size := element_size q |}.

(** Every reference stored in a slot below the logical count of either
    queue. *)
Definition references_of (e : Memory_Profiler_Event) : list VALUE :=
  filter (fun v => v <> Qnil) [capture e; klass e; object e].

Definition held (events : Memory_Profiler_Events) : list VALUE :=
  (pending (deref events (available events)) ≫= references_of)
  ++ (pending (deref events (processing events)) ≫= references_of).

(** ** Worked instances *)

(** The store [Memory_Profiler_Events_new] builds for wrapper 100 and job
    handle 7, and the host around it with nothing observed yet. *)
Definition fresh_store : Memory_Profiler_Events :=
  {| self := 100;
     queues_at_0 := {| base := []; capacity := 0; count := 0;
                       element_size := sizeof_Memory_Profiler_Event |};
     queues_at_1 := {| base := []; capacity := 0; count := 0;
                       element_size := sizeof_Memory_Profiler_Event |};
     available := queues_0; processing := queues_1;
     processing_flag := 0; postponed_job_handle := 7 |}.

Definition fresh_host : host := {| instance := fresh_store; observed := [] |}.

(** An allocator that succeeds and leaves stale bytes in the new slots. *)
Definition stale_block : realloc_result Memory_Profiler_Event :=
  realloc_block (fun _ => {| type := MEMORY_PROFILER_EVENT_TYPE_FREEOBJ;
                             capture := 666; klass := 666; object := 666 |}).

(** A handler that raises on the records of capture 2 and returns on the
    others. *)
Definition faulty_handler (obs : list observation) (e : Memory_Profiler_Event)
  : script :=
  if capture e =? 2 then script_raise handler_error else script_return.

(** A producer that enqueues an allocation, a second allocation and the
    release of the first object. *)
Definition three_enqueues : script :=
  script_call (call_enqueue MEMORY_PROFILER_EVENT_TYPE_NEWOBJ 1 11 21 stale_block)
    (fun _ =>
  script_call (call_enqueue MEMORY_PROFILER_EVENT_TYPE_NEWOBJ 2 12 22 stale_block)
    (fun _ =>
  script_call (call_enqueue MEMORY_PROFILER_EVENT_TYPE_FREEOBJ 1 11 21 stale_block)
    (fun _ => script_return))).

Definition host_after (o : outcome unit) : host :=
  match o with
  | Normal _ h | Raised _ h => h
  | Stuck _ => fresh_host
  end.

(** The host with those three records pending. *)
Definition three_pending : host :=
  host_after (run faulty_handler 1 three_enqueues fresh_host).

(** The same host in the middle of a drain: guard up, roles swapped. *)
Definition three_draining : host :=
  {| instance := drain_begin (instance three_pending);
     observed := observed three_pending |}.

(** Ten thousand records 0, 1, ..., each pushed with an allocator that
    succeeds. *)
Definition ten_thousand : list (Z * realloc_result Z) :=
  (fun i => (Z.of_nat i, realloc_block (fun _ => -1)))
    <$> seq 0 (Z.to_nat 10000).

(** The store holding one record, the release of object 3. *)
Definition freed_once : Memory_Profiler_Events :=
  instance
    (host_after
       (run faulty_handler 1
          (script_call
             (call_enqueue MEMORY_PROFILER_EVENT_TYPE_FREEOBJ 1 2 3 stale_block)
             (fun _ => script_return))
          fresh_host)).

(** ** events.c: the remaining functions *)

(** [sizeof(struct Memory_Profiler_Events)] on LP64: the wrapper (8), two
    queues of a pointer and three [size_t] (2 * 32), two queue pointers (16),
    the guard (4) and the job handle (4). *)
Definition sizeof_Memory_Profiler_Events : Z := 96.

(** [Memory_Profiler_Events_memsize]: [size_t] arithmetic, left to right. *)
Definition Memory_Profiler_Events_memsize (events : Memory_Profiler_Events) : Z :=
  wrap (wrap (sizeof_Memory_Profiler_Events
              + wrap (capacity (queues_at_0 events)
                      * element_size (queues_at_0 events)))
        + wrap (capacity (queues_at_1 events)
                * element_size (queues_at_1 events))).

(** [Memory_Profiler_Events_instance]: the two function-local statics are
    [None] while [instance == Qnil].  [self] and [handle] are what
    [TypedData_Make_Struct] and [rb_postponed_job_preregister] return if this
    call gets to them.  The result is the exception [Memory_Profiler_Events_new]
    raised, or the store, the statics after the call, and whether
    [rb_gc_register_mark_object] was called. *)
Definition Memory_Profiler_Events_instance (self : VALUE) (handle : Z)
    (statics : option Memory_Profiler_Events)
  : exception + (Memory_Profiler_Events * option Memory_Profiler_Events * bool) :=
  match statics with
  | None =>
      match Memory_Profiler_Events_new self handle with
      | inl e => inl e
      | inr events => inr (events, Some events, true)
      end
  | Some events => inr (events, Some events, false)
  end.

(** ** Vocabulary of the further statements *)

(** The handles the store passed to [rb_postponed_job_trigger], in order. *)
Definition triggered (obs : list observation) : list Z :=
  omap (fun o => match o with
                 | obs_postponed_job_trigger handle => Some handle
                 | _ => None
                 end) obs.

(** The write barriers the store raised, in order: parent and child. *)
Definition barriers (obs : list observation) : list (VALUE * VALUE) :=
  omap (fun o => match o with
                 | obs_write_barrier parent child => Some (parent, child)
                 | _ => None
                 end) obs.

(** The steps a store goes through, each with the condition under which the
    code takes it: a successful [enqueue] as its caller sees it, a dropped
    one, and the moves of the drain (raise the guard and swap, hand a record
    to the handler, warn, reset a slot, clear and drop the guard). *)
Inductive store_step : host -> host -> Prop :=
| step_enqueue_stored type capture klass object queue h :
    store_wf (instance h) ->
    queue_wf queue ->
    count queue = count (available_queue h) + 1 ->
    capacity (available_queue h) <= capacity queue ->
    element_size queue = element_size (available_queue h) ->
    pending queue
    = pending (available_queue h) ++ [mkEvent type capture klass object] ->
    store_step h
      {| instance := assign (instance h) (available (instance h)) queue;
         observed :=
           observed h
           ++ [obs_write_barrier (self (instance h)) capture;
               obs_write_barrier (self (instance h)) klass;
               obs_write_barrier (self (instance h)) object;
               obs_postponed_job_trigger (postponed_job_handle (instance h));
               obs_enqueue (mkEvent type capture klass object) 1] |}
| step_enqueue_dropped e h :
    store_step h
      {| instance := instance h; observed := observed h ++ [obs_enqueue e 0] |}
| step_begin h :
    processing_flag (instance h) = 0 ->
    store_step h
      {| instance := drain_begin (instance h); observed := observed h |}
| step_dispatch i e h :
    processing_flag (instance h) <> 0 ->
    0 <= i < count (processing_queue h) ->
    base (processing_queue h) !! Z.to_nat i = Some e ->
    store_step h
      {| instance := instance h;
         observed := observed h ++ [obs_process_event e] |}
| step_warning h :
    processing_flag (instance h) <> 0 ->
    store_step h
      {| instance := instance h; observed := observed h ++ [obs_warning] |}
| step_reset i h :
    store_wf (instance h) ->
    processing_flag (instance h) <> 0 ->
    0 <= i < count (processing_queue h) ->
    store_step h
      {| instance := write_event (instance h) (processing (instance h), i) cleared;
         observed :=
           observed h
           ++ [obs_write_barrier (self (instance h)) Qnil;
               obs_write_barrier (self (instance h)) Qnil;
               obs_write_barrier (self (instance h)) Qnil] |}
| step_end h :
    processing_flag (instance h) <> 0 ->
    store_step h
      {| instance := drain_end (instance h); observed := observed h |}.

(** Any number of steps. *)
Inductive store_steps : host -> host -> Prop :=
| steps_none h : store_steps h h
| steps_more h h' h'' : store_step h h' -> store_steps h' h'' -> store_steps h h''.

(** A producer that pushes without ever getting memory from the allocator. *)
Definition without_memory {A} (records : list A) : list (A * realloc_result A) :=
  (fun x => (x, realloc_NULL)) <$> records.

(** * Facts about the embedding *)



Lemma wrap_id x : 0 <= x <= SIZE_MAX -> wrap x = x.
Proof. intros H. unfold wrap. apply Z.mod_small. unfold SIZE_MAX in *. lia. Qed.

Lemma wrap_range x : 0 <= wrap x <= SIZE_MAX.
Proof. unfold wrap, SIZE_MAX. pose proof (Z.mod_pos_bound x (18446744073709551615 + 1)). lia. Qed.

Lemma wrap_twice_even es : wrap (2 * es) = 2 * (es mod 9223372036854775808).
Proof.
  unfold wrap, SIZE_MAX.
  replace (18446744073709551615 + 1) with (2 * 9223372036854775808) by lia.
  apply Zmult_mod_distr_l.
Qed.

Lemma wrap_twice_ge_2 es : wrap (2 * es) <> 0 -> 2 <= wrap (2 * es).
Proof.
  rewrite wrap_twice_even.
  pose proof (Z.mod_pos_bound es 9223372036854775808). lia.
Qed.

Lemma gtb_div_true c m d : 0 < d -> (c >? m / d) = true -> c * d > m.
Proof.
  intros Hd H. apply Z.gtb_lt in H.
  destruct (Z_le_gt_dec (c * d) m) as [Hle|]; [|lia].
  assert (c <= m / d) by (apply Z.div_le_lower_bound; lia). lia.
Qed.

Lemma gtb_div_false c m d : 0 < d -> (c >? m / d) = false -> c * d <= m.
Proof.
  intros Hd H. rewrite Z.gtb_ltb in H. apply Z.ltb_ge in H.
  pose proof (Z.mul_div_le m d Hd). nia.
Qed.

Lemma doubling_target_ge fuel : forall c required, 0 < c -> c <= doubling_target fuel c required.
Proof.
  induction fuel as [|fuel IH]; intros c required Hc; simpl;
    destruct (c <? required); try lia.
  specialize (IH (2 * c) required). lia.
Qed.

Lemma doubling_target_covers fuel : forall c required,
  0 < c -> required <= c * 2 ^ Z.of_nat fuel ->
  required <= doubling_target fuel c required.
Proof.
  induction fuel as [|fuel IH]; intros c required Hc Hreq; simpl;
    destruct (Z.ltb_spec c required); try lia.
  apply IH; [lia|].
  rewrite Nat2Z.inj_succ, Z.pow_succ_r in Hreq by lia. lia.
Qed.

Lemma doubling_target_power fuel : forall c required,
  0 < c -> exists j, 0 <= j /\ doubling_target fuel c required = c * 2 ^ j.
Proof.
  induction fuel as [|fuel IH]; intros c required Hc; simpl;
    destruct (Z.ltb_spec c required); try (exists 0; lia).
  destruct (IH (2 * c) required) as (j & Hj & ->); [lia|].
  exists (Z.succ j). rewrite Z.pow_succ_r by lia. lia.
Qed.

Lemma doubling_target_least fuel : forall c required,
  0 < c ->
  doubling_target fuel c required = c \/ doubling_target fuel c required < 2 * required.
Proof.
  induction fuel as [|fuel IH]; intros c required Hc; simpl;
    destruct (Z.ltb_spec c required); try lia.
  destruct (IH (2 * c) required) as [-> | ?]; lia.
Qed.

Lemma double_until_cases fuel : forall es nc required,
  0 < nc -> required <= nc * 2 ^ Z.of_nat fuel ->
  match double_until fuel es nc required with
  | doubled c =>
      c = doubling_target fuel nc required /\ required <= c
      /\ (c = nc \/ c * wrap (2 * es) <= 2 * SIZE_MAX /\ 2 <= wrap (2 * es))
  | would_overflow =>
      2 <= wrap (2 * es)
      /\ exists c, nc <= c < required /\ c * wrap (2 * es) > SIZE_MAX
                   /\ 2 * c <= doubling_target fuel nc required
  | doubling_crash f => f = DivisionByZero /\ wrap (2 * es) = 0 /\ nc < required
  end.
Proof.
  induction fuel as [|fuel IH]; intros es nc required Hnc Hfuel; simpl.
  - destruct (Z.ltb_spec nc required); [lia|]. repeat split; auto; lia.
  - destruct (Z.ltb_spec nc required) as [Hlt|Hge]; [|repeat split; auto; lia].
    destruct (Z.eqb_spec (wrap (2 * es)) 0) as [Hz|Hnz]; [auto|].
    pose proof (wrap_twice_ge_2 es Hnz) as Hd.
    destruct (nc >? SIZE_MAX / wrap (2 * es)) eqn:Hchk.
    + apply gtb_div_true in Hchk; [|lia]. split; [lia|].
      exists nc. repeat split; try lia.
      apply doubling_target_ge. lia.
    + apply gtb_div_false in Hchk; [|lia].
      assert (Hw : wrap (nc * 2) = 2 * nc).
      { rewrite wrap_id; [lia|]. unfold SIZE_MAX in *. nia. }
      rewrite Hw.
      assert (Hfuel' : required <= 2 * nc * 2 ^ Z.of_nat fuel).
      { rewrite Nat2Z.inj_succ, Z.pow_succ_r in Hfuel by lia. lia. }
      specialize (IH es (2 * nc) required ltac:(lia) Hfuel').
      destruct (double_until fuel es (2 * nc) required) as [c| |f].
      * destruct IH as (Hc & Hreq & Hmin). repeat split; try assumption.
        right. split; [|lia]. destruct Hmin as [-> | [? _]]; nia.
      * destruct IH as (_ & c & Hc1 & Hc2 & Hc3). split; [lia|].
        exists c. repeat split; lia.
      * destruct IH as (-> & ? & ?). congruence.
Qed.


Section QueueFacts.
Context {A : Type}.
Implicit Types q : Memory_Profiler_Queue A.

Lemma div_negative_divisor m d : 0 <= m -> d < 0 -> m / d <= 0.
Proof. intros Hm Hd. Z.div_mod_to_equations. nia. Qed.

Lemma grown_capacity_start q :
  0 <= capacity q ->
  0 < (if capacity q =? 0 then MEMORY_PROFILER_QUEUE_DEFAULT_COUNT else capacity q).
Proof.
  intros H. destruct (Z.eqb_spec (capacity q) 0); unfold MEMORY_PROFILER_QUEUE_DEFAULT_COUNT; lia.
Qed.

Lemma fuel_enough c required :
  0 < c -> required <= SIZE_MAX -> required <= c * 2 ^ Z.of_nat SIZE_BITS.
Proof. unfold SIZE_MAX, SIZE_BITS. simpl. intros. lia. Qed.

Lemma grown_base_length (fresh : nat -> A) old n : length (grown_base fresh old n) = Z.to_nat n.
Proof.
  unfold grown_base. rewrite length_app, length_take, length_fmap, length_seq. lia.
Qed.

Lemma grown_base_prefix (fresh : nat -> A) old n :
  (length old <= Z.to_nat n)%nat -> exists extra, grown_base fresh old n = old ++ extra.
Proof.
  intros H. unfold grown_base. rewrite take_ge by lia. eauto.
Qed.

Lemma resize_cases q required mem :
  0 <= capacity q -> required <= SIZE_MAX ->
  resize_spec q required mem (Memory_Profiler_Queue_resize q required mem).
Proof.
  intros Hcap Hreq. unfold Memory_Profiler_Queue_resize.
  destruct (Z.leb_spec required (capacity q)) as [Hle|Hlt]; [by constructor|].
  pose proof (grown_capacity_start q Hcap) as Hstart.
  pose proof (double_until_cases SIZE_BITS (element_size q) _ required Hstart
                (fuel_enough _ _ Hstart Hreq)) as Hloop.
  fold (grown_capacity q required) in Hloop.
  destruct (double_until SIZE_BITS (element_size q) _ required) as [c| |f].
  - destruct Hloop as (-> & Hcover & _).
    destruct (Z.eqb_spec (element_size q) 0) as [Hz|Hnz];
      [constructor; auto|].
    destruct (Z_lt_le_dec (element_size q) 0) as [Hneg|Hpos].
    + assert (Hq : SIZE_MAX / element_size q <= 0)
        by (apply div_negative_divisor; [unfold SIZE_MAX|]; lia).
      assert (Hg : 0 < grown_capacity q required).
      { unfold grown_capacity.
        pose proof (doubling_target_ge SIZE_BITS _ required Hstart). lia. }
      replace (grown_capacity q required >? SIZE_MAX / element_size q) with true
        by (symmetry; apply Z.gtb_lt; lia).
      constructor; auto.
    + destruct (grown_capacity q required >? SIZE_MAX / element_size q) eqn:Hchk.
      * apply gtb_div_true in Hchk; [|lia]. constructor; auto.
      * apply gtb_div_false in Hchk; [|lia].
        assert (Hg : 0 <= grown_capacity q required) by lia.
        destruct mem as [|fresh]; simpl.
        -- apply resize_exhausted; auto; lia.
        -- rewrite wrap_id by nia. rewrite Z.div_mul by lia.
           apply resize_grown; auto; lia.
  - destruct Hloop as (Hd & c & Hc1 & Hc2 & Hc3).
    constructor; [lia|].
    destruct (Z_lt_le_dec (element_size q) 0) as [Hneg|Hpos]; [auto|right].
    pose proof (wrap_range (2 * element_size q)) as Hr.
    rewrite wrap_twice_even in *.
    pose proof (Z.mod_le (element_size q) 9223372036854775808 Hpos ltac:(lia)).
    fold (grown_capacity q required) in Hc3. nia.
  - destruct Hloop as (-> & Hz & _). constructor; auto.
Qed.


Lemma doubled_from_floor_nonneg c : doubled_from_floor c -> 0 <= c.
Proof.
  intros [-> | (k & Hk & ->)]; [lia|].
  unfold MEMORY_PROFILER_QUEUE_DEFAULT_COUNT. pose proof (Z.pow_pos_nonneg 2 k). lia.
Qed.

Lemma grown_capacity_from_floor q required :
  doubled_from_floor (capacity q) ->
  exists j, 0 <= j
    /\ grown_capacity q required
       = (if capacity q =? 0 then MEMORY_PROFILER_QUEUE_DEFAULT_COUNT else capacity q) * 2 ^ j
    /\ doubled_from_floor (grown_capacity q required).
Proof.
  intros Hc. pose proof (doubled_from_floor_nonneg _ Hc) as Hn.
  destruct (doubling_target_power SIZE_BITS _ required (grown_capacity_start q Hn))
    as (j & Hj & Heq).
  fold (grown_capacity q required) in Heq.
  exists j. repeat split; [done..|]. rewrite Heq. right.
  destruct Hc as [-> | (k & Hk & ->)]; simpl.
  - exists j. done.
  - destruct (Z.eqb_spec (MEMORY_PROFILER_QUEUE_DEFAULT_COUNT * 2 ^ k) 0) as [E|_].
    + exists j. done.
    + exists (k + j). split; [lia|]. rewrite Z.pow_add_r by lia. lia.
Qed.

(** One step of the queue: the invariant is kept, and the capacity moves
    only up, by doubling, unless the storage is given up. *)
Lemma queue_step_inv q op q' :
  queue_inv q -> op_in_range op -> queue_step q op = Ok q' ->
  queue_inv q'
  /\ (if releases op then capacity q' = 0
      else capacity q' = capacity q
           \/ capacity q < capacity q'
              /\ exists j, 0 <= j
                   /\ capacity q'
                      = (if capacity q =? 0 then MEMORY_PROFILER_QUEUE_DEFAULT_COUNT
                         else capacity q) * 2 ^ j).
Proof.
  intros (Hcount & Hfloor & Hlen) Hrange Hstep.
  pose proof (doubled_from_floor_nonneg _ Hfloor) as Hcap.
  destruct op as [es|mem|index| |required mem|]; simpl in *.
  - inversion Hstep; subst; clear Hstep. simpl.
    split; [|done]. repeat split; simpl; try lia. by left.
  - unfold Memory_Profiler_Queue_push in Hstep.
    pose proof (wrap_range (count q + 1)) as Hw.
    destruct (Z.gtb_spec (wrap (count q + 1)) (capacity q)) as [Hgt|Hle].
    + pose proof (resize_cases q (wrap (count q + 1)) mem Hcap ltac:(lia)) as Hr.
      destruct (grown_capacity_from_floor q (wrap (count q + 1)) Hfloor)
        as (j & Hj & Hg & Hgf).
      inversion Hr as [Hle E|? ? E|? ? ? ? E|fresh ? ? ? ? ? E|? ? E];
        rewrite <- E in Hstep; simpl in Hstep;
        inversion Hstep; subst; clear Hstep; simpl.
      * lia.
      * split; [done|]. by left.
      * split; [done|]. by left.
      * split.
        -- repeat split; simpl; try lia; [done|]. apply grown_base_length.
        -- right. split; [lia|]. eauto.
    + inversion Hstep; subst; clear Hstep. simpl.
      split; [|by left]. repeat split; simpl; try lia; done.
  - destruct (Memory_Profiler_Queue_at q index); inversion Hstep; subst.
    split; [done|]. by left.
  - inversion Hstep; subst; clear Hstep. simpl.
    split; [|by left]. repeat split; simpl; try lia; done.
  - pose proof (resize_cases q required mem Hcap ltac:(unfold in_size_t in *; lia)) as Hr.
    destruct (grown_capacity_from_floor q required Hfloor) as (j & Hj & Hg & Hgf).
    inversion Hr as [Hle E|? ? E|? ? ? ? E|fresh ? ? ? ? ? E|? ? E];
      rewrite <- E in Hstep; simpl in Hstep;
      inversion Hstep; subst; clear Hstep; simpl.
    + split; [done|]. by left.
    + split; [done|]. by left.
    + split; [done|]. by left.
    + split.
      * repeat split; simpl; try lia; [done|]. apply grown_base_length.
      * right. split; [lia|]. eauto.
  - inversion Hstep; subst; clear Hstep. simpl.
    split; [|done]. repeat split; simpl; try lia. by left.
Qed.

Lemma queue_run_inv ops : forall q q',
  queue_inv q -> Forall op_in_range ops -> queue_run q ops = Ok q' -> queue_inv q'.
Proof.
  induction ops as [|op ops IH]; intros q q' Hinv Hops Hrun; simpl in Hrun.
  - by inversion Hrun; subst.
  - inversion Hops; subst.
    destruct (queue_step q op) as [q1|f] eqn:Hstep; [|done].
    eapply IH; [|done..].
    by destruct (queue_step_inv q op q1).
Qed.

Lemma queue_initialize_inv q es : queue_inv (Memory_Profiler_Queue_initialize q es).
Proof. repeat split; simpl; try lia. by left. Qed.

End QueueFacts.


Section QueueFacts2.
Context {A : Type}.
Implicit Types q : Memory_Profiler_Queue A.

Lemma wrap_twice_small es :
  0 < es < 9223372036854775808 -> wrap (2 * es) = 2 * es.
Proof. intros H. apply wrap_id. unfold SIZE_MAX. lia. Qed.

Lemma push_cases q mem :
  queue_wf q -> push_spec q mem (Memory_Profiler_Queue_push q mem).
Proof.
  intros (Hlen & Hcount & Hes & Hbytes & Hcap).
  unfold Memory_Profiler_Queue_push.
  rewrite (wrap_id (count q + 1)) by lia.
  destruct (Z.gtb_spec (count q + 1) (capacity q)) as [Hgt|Hle].
  - pose proof (resize_cases q (count q + 1) mem ltac:(lia) ltac:(lia)) as Hr.
    inversion Hr as [Hle E|? Hov E|? ? ? ? E|fresh ? ? Hfit Hcover ? E|? Hz E]; simpl.
    + lia.
    + apply push_NULL; [lia|]. left. destruct Hov; [lia|done].
    + apply push_NULL; [lia|]. by right.
    + destruct (doubling_target_power SIZE_BITS _ (count q + 1)
                  (grown_capacity_start q ltac:(lia))) as (j & Hj & Hpow).
      fold (grown_capacity q (count q + 1)) in Hpow.
      assert (Hlt : grown_capacity q (count q + 1) < SIZE_MAX).
      { destruct (Z.eq_dec j 0) as [->|Hj0].
        - rewrite Hpow, Z.pow_0_r, Z.mul_1_r.
          destruct (capacity q =? 0); unfold MEMORY_PROFILER_QUEUE_DEFAULT_COUNT, SIZE_MAX in *; lia.
        - replace j with (Z.succ (j - 1)) in Hpow by lia.
          rewrite Z.pow_succ_r in Hpow by lia.
          assert (grown_capacity q (count q + 1) <= SIZE_MAX) by nia.
          unfold SIZE_MAX in *. lia. }
      rewrite (wrap_id (count q + 1)) by lia.
      apply push_slot; simpl; try done.
      * repeat split; simpl; try lia. apply grown_base_length.
      * apply grown_base_prefix. lia.
      * right. split; [lia|]. split; [done|]. by subst.
    + exfalso. rewrite wrap_twice_small in Hz by lia. lia.
  - apply push_slot; simpl; try done.
    + repeat split; simpl; lia.
    + exists []. by rewrite app_nil_r.
    + by left.
Qed.

Lemma resize_failure_unchanged q required mem rc q' :
  Memory_Profiler_Queue_resize q required mem = Ok (rc, q') -> rc = -1 -> q' = q.
Proof.
  unfold Memory_Profiler_Queue_resize.
  destruct (required <=? capacity q); [intros H; inversion H; lia|].
  destruct (double_until _ _ _ _); [|intros H; by inversion H|done].
  destruct (element_size q =? 0); [done|].
  destruct (_ >? _); [intros H; by inversion H|].
  destruct (realloc _ _ _ _); intros H; inversion H; subst; [lia|done].
Qed.

Lemma push_NULL_unchanged q mem q' :
  Memory_Profiler_Queue_push q mem = Ok (None, q') -> q' = q.
Proof.
  unfold Memory_Profiler_Queue_push.
  destruct (_ >? _); [|intros H; by inversion H].
  destruct (Memory_Profiler_Queue_resize _ _ _) as [[rc q1]|f] eqn:E; [|done].
  destruct (Z.eqb_spec rc (-1)) as [Hrc|_]; intros H; inversion H; subst.
  by eapply resize_failure_unchanged.
Qed.

Lemma pending_push_store q q' x :
  0 <= count q -> (Z.to_nat (count q) < length (base q'))%nat ->
  (exists extra, base q' = base q ++ extra) ->
  (Z.to_nat (count q) <= length (base q))%nat ->
  take (Z.to_nat (count q + 1)) (<[Z.to_nat (count q) := x]> (base q'))
  = pending q ++ [x].
Proof.
  intros Hc Hlt (extra & Hext) Hle. unfold pending.
  replace (Z.to_nat (count q + 1)) with (S (Z.to_nat (count q))) by lia.
  erewrite take_S_r by (by apply list_lookup_insert_eq).
  rewrite take_insert_ge by lia. rewrite Hext, take_app_le by lia. done.
Qed.

End QueueFacts2.


Section QueueFacts3.
Context {A : Type}.
Implicit Types q : Memory_Profiler_Queue A.

Lemma doubling_target_within fuel : forall c required i,
  0 < c -> 0 <= i -> required <= c * 2 ^ i ->
  exists i', 0 <= i' /\ c * 2 ^ i = doubling_target fuel c required * 2 ^ i'.
Proof.
  induction fuel as [|fuel IH]; intros c required i Hc Hi Hreq; simpl;
    destruct (Z.ltb_spec c required) as [Hlt|Hge]; eauto.
  assert (Hi1 : 1 <= i).
  { destruct (Z.eq_dec i 0) as [->|]; [|lia]. rewrite Z.pow_0_r in Hreq. lia. }
  assert (Hpow : c * 2 ^ i = 2 * c * 2 ^ (i - 1)).
  { replace i with (Z.succ (i - 1)) at 1 by lia. rewrite Z.pow_succ_r by lia. lia. }
  rewrite Hpow. apply IH; lia.
Qed.

(** C6. For every requested capacity and every queue whose element size is
    a positive [size_t] other than 2^63 (where the loop's [2 * element_size]
    wraps to 0): [resize] returns; when it returns -1 the queue is as it
    was; when the capacity reached by doubling, times the element size,
    exceeds [SIZE_MAX], it returns -1; and when it returns 1 the new capacity
    is that doubled capacity, covers the request, its byte size fits
    [size_t] so the multiplication did not wrap, and the storage holds that
    many slots. *)
Theorem resize_rejects_overflow q required mem :
  in_size_t (capacity q) -> in_size_t required ->
  0 < element_size q <= SIZE_MAX -> element_size q <> 9223372036854775808 ->
  exists rc q',
    Memory_Profiler_Queue_resize q required mem = Ok (rc, q')
    /\ (rc = -1 -> q' = q)
    /\ (capacity q < required ->
        grown_capacity q required * element_size q > SIZE_MAX ->
        rc = -1 /\ q' = q)
    /\ (rc = 1 ->
        capacity q' = grown_capacity q required
        /\ required <= capacity q'
        /\ capacity q' * element_size q' <= SIZE_MAX
        /\ wrap (capacity q' * element_size q') = capacity q' * element_size q'
        /\ length (base q') = Z.to_nat (capacity q')).
Proof.
  intros [Hcap _] [_ Hreq] Hes Hne.
  pose proof (resize_cases q required mem Hcap Hreq) as Hr.
  inversion Hr as [Hle E|Hlt Hov E|Hlt ? ? ? E|fresh Hlt ? Hfit Hcover ? E|Hlt Hz E].
  - exists 0, q. repeat split; try lia.
  - exists (-1), q. repeat split; try lia.
  - exists (-1), q. repeat split; try lia.
  - eexists 1, _. split; [done|]. simpl. repeat split; try lia.
    + apply wrap_id.
      pose proof (doubling_target_ge SIZE_BITS _ required (grown_capacity_start q Hcap)).
      fold (grown_capacity q required) in *. nia.
    + apply grown_base_length.
  - exfalso. destruct Hz as [Hz|Hz]; [lia|].
    rewrite wrap_twice_even in Hz. unfold SIZE_MAX in Hes.
    destruct (Z_lt_le_dec (element_size q) 9223372036854775808).
    + rewrite Z.mod_small in Hz by lia. lia.
    + replace (element_size q)
        with (element_size q - 9223372036854775808 + 1 * 9223372036854775808) in Hz by lia.
      rewrite Z.mod_add, Z.mod_small in Hz by lia. lia.
Qed.

Lemma push_record_ok q x mem :
  queue_wf q -> mem <> realloc_NULL ->
  grown_capacity q (count q + 1) * element_size q <= SIZE_MAX ->
  exists q',
    push_record q x mem = Ok (Some q')
    /\ queue_wf q'
    /\ count q' = count q + 1
    /\ element_size q' = element_size q
    /\ pending q' = pending q ++ [x]
    /\ (capacity q' = capacity q
        \/ count q = capacity q /\ capacity q' = grown_capacity q (count q + 1)).
Proof.
  intros Hwf Hmem Hfit. unfold push_record.
  pose proof Hwf as (Hlen & Hcount & Hes & Hbytes & Hcap).
  destruct (push_cases q mem Hwf) as [? [?|?]|q1 Hwf1 Hc1 He1 Hext Hgrow]; [lia|done|].
  pose proof Hwf1 as (Hlen1 & Hcount1 & Hes1 & Hbytes1 & Hcap1).
  unfold slot_store.
  replace ((0 <=? count q) && (count q <? Z.of_nat (length (base q1)))) with true
    by (symmetry; apply andb_true_iff; split; [apply Z.leb_le|apply Z.ltb_lt]; lia).
  eexists. split; [done|]. simpl. repeat split; simpl; try lia.
  - rewrite length_insert. done.
  - unfold pending at 1. simpl. rewrite Hc1.
    apply pending_push_store; try lia. done.
Qed.

Lemma push_records_ok B items : forall q,
  queue_wf q ->
  (exists i, 0 <= i /\ B = doubling_start q * 2 ^ i) ->
  B * element_size q <= SIZE_MAX ->
  count q + Z.of_nat (length items) <= B ->
  Forall (fun item => item.2 <> realloc_NULL) items ->
  exists q',
    push_records q items = Ok (Some q')
    /\ queue_wf q'
    /\ count q' = count q + Z.of_nat (length items)
    /\ element_size q' = element_size q
    /\ pending q' = pending q ++ items.*1
    /\ (exists i, 0 <= i /\ B = doubling_start q' * 2 ^ i).
Proof.
  induction items as [|[x mem] items IH]; intros q Hwf Hchain HB Hroom Hmem; simpl in *.
  - exists q. rewrite app_nil_r. split_and!; try done; lia.
  - inversion Hmem as [|? ? Hm Hmem']; subst. simpl in Hm.
    pose proof Hwf as (Hlen & Hcount & Hes & Hbytes & Hcap).
    destruct Hchain as (i & Hi & HBi).
    assert (Hstart : 0 < doubling_start q) by (apply grown_capacity_start; lia).
    destruct (doubling_target_within SIZE_BITS (doubling_start q) (count q + 1) i
                Hstart Hi ltac:(lia)) as (i' & Hi' & Hwithin).
    change (doubling_target SIZE_BITS (doubling_start q) (count q + 1))
      with (grown_capacity q (count q + 1)) in Hwithin.
    assert (Hg : 0 < grown_capacity q (count q + 1)).
    { pose proof (doubling_target_ge SIZE_BITS _ (count q + 1) Hstart).
      unfold grown_capacity, doubling_start in *. lia. }
    assert (Hfit : grown_capacity q (count q + 1) * element_size q <= SIZE_MAX).
    { pose proof (Z.pow_pos_nonneg 2 i' ltac:(lia) Hi') as Hpos.
      assert (Hle : grown_capacity q (count q + 1) <= B).
      { rewrite HBi, Hwithin. nia. }
      apply Z.le_trans with (B * element_size q); [|done].
      apply Z.mul_le_mono_nonneg_r; lia. }
    destruct (push_record_ok q x mem Hwf Hm Hfit)
      as (q1 & -> & Hwf1 & Hc1 & He1 & Hp1 & Hgrow).
    destruct (IH q1 Hwf1) as (q' & Hrun & Hwf' & Hc' & He' & Hp' & Hchain').
    + pose proof Hwf1 as (_ & Hcount1 & _).
      unfold doubling_start.
      destruct (Z.eqb_spec (capacity q1) 0) as [?|_]; [lia|].
      destruct Hgrow as [Hsame|(_ & Hgrown)].
      * exists i. split; [done|]. rewrite HBi, Hsame. unfold doubling_start.
        destruct (Z.eqb_spec (capacity q) 0); [lia|done].
      * exists i'. split; [done|]. rewrite Hgrown. lia.
    + rewrite He1. done.
    + lia.
    + done.
    + exists q'. split_and!; try done; try lia.
      rewrite Hp', Hp1, <- app_assoc. done.
Qed.

Lemma read_at_pending q i x :
  (Z.to_nat (count q) <= length (base q))%nat ->
  pending q !! i = Some x -> read_at q (Z.of_nat i) = Ok x.
Proof.
  intros Hlen Hx. unfold pending in Hx.
  apply lookup_take_Some in Hx as [Hx Hi].
  unfold read_at, Memory_Profiler_Queue_at, slot_load.
  replace (Z.of_nat i <? count q) with true by (symmetry; apply Z.ltb_lt; lia).
  replace (Z.of_nat i <? 0) with false by (symmetry; apply Z.ltb_ge; lia).
  rewrite Nat2Z.id, Hx. done.
Qed.

(** C5. Pushing 10,000 records, each written through the pointer [push]
    returned, onto a queue just initialized with an element size for which
    16384 elements fit [size_t], every [realloc] succeeding: all pushes
    succeed, the count is 10,000, the capacity is 128 * 2^7 = 16384, at least
    10,000, and indexed access returns every pushed record, the first and
    the last in particular. *)
Theorem push_ten_thousand q0 es (items : list (A * realloc_result A)) :
  0 < es -> 16384 * es <= SIZE_MAX ->
  Z.of_nat (length items) = 10000 ->
  Forall (fun item => item.2 <> realloc_NULL) items ->
  exists q,
    push_records (Memory_Profiler_Queue_initialize q0 es) items = Ok (Some q)
    /\ count q = 10000
    /\ 10000 <= capacity q
    /\ capacity q = MEMORY_PROFILER_QUEUE_DEFAULT_COUNT * 2 ^ 7
    /\ (forall x, head items.*1 = Some x -> read_at q 0 = Ok x)
    /\ (forall x, last items.*1 = Some x -> read_at q 9999 = Ok x)
    /\ (forall i x, items.*1 !! i = Some x -> read_at q (Z.of_nat i) = Ok x).
Proof.
  intros Hes Hfit Hlen Hmem.
  destruct (push_records_ok 16384 items (Memory_Profiler_Queue_initialize q0 es))
    as (q & Hrun & Hwf & Hcount & He & Hp & i & Hi & Hchain); simpl.
  - unfold queue_wf, SIZE_MAX in *. simpl. split_and!; try done; lia.
  - exists 7. split; [lia|]. reflexivity.
  - done.
  - rewrite Hlen. lia.
  - done.
  - simpl in Hcount. rewrite Hlen in Hcount.
    pose proof Hwf as (Hl & Hc & _).
    assert (Hcap : capacity q = 16384).
    { unfold doubling_start in Hchain.
      destruct (Z.eqb_spec (capacity q) 0); [lia|].
      destruct (Z.eq_dec i 0) as [->|]; [rewrite Z.pow_0_r in Hchain; lia|].
      replace i with (Z.succ (i - 1)) in Hchain by lia.
      rewrite Z.pow_succ_r in Hchain by lia.
      pose proof (Z.pow_pos_nonneg 2 (i - 1) ltac:(lia) ltac:(lia)). nia. }
    assert (Hread : forall i x, items.*1 !! i = Some x -> read_at q (Z.of_nat i) = Ok x).
    { intros j x Hx. apply read_at_pending; [lia|]. rewrite Hp. done. }
    exists q. split_and!; try done; try lia.
    + intros x Hx. apply (Hread 0%nat). by rewrite <- head_lookup.
    + intros x Hx. rewrite last_lookup, length_fmap in Hx.
      replace 9999 with (Z.of_nat (pred (length items))) by lia.
      by apply Hread.
Qed.

End QueueFacts3.


(** ** The store: pointers and member writes *)

Lemma deref_assign_eq events q queue : deref (assign events q queue) q = queue.
Proof. by destruct q. Qed.

Lemma deref_assign_ne events q q' queue :
  q <> q' -> deref (assign events q queue) q' = deref events q'.
Proof. by destruct q, q'. Qed.

Lemma assign_assign events q queue queue' :
  assign (assign events q queue) q queue' = assign events q queue'.
Proof. by destruct q. Qed.

Lemma assign_deref events q : assign events q (deref events q) = events.
Proof. by destruct events, q. Qed.

Lemma write_event_write_event events event e e' :
  write_event (write_event events event e) event e' = write_event events event e'.
Proof.
  unfold write_event. rewrite deref_assign_eq, assign_assign.
  unfold store_slot. simpl. by rewrite list_insert_insert_eq.
Qed.

Lemma write_event_lookup events event e :
  0 <= event.2 ->
  (Z.to_nat event.2 < length (base (deref events event.1)))%nat ->
  base (deref (write_event events event e) event.1) !! Z.to_nat event.2 = Some e.
Proof.
  intros Hp Hlen. unfold write_event. rewrite deref_assign_eq. simpl.
  by apply list_lookup_insert_eq.
Qed.

Lemma event_store_bind {T} (event : event_ptr) f (k : unit -> M T) h e :
  0 <= event.2 ->
  base (deref (instance h) event.1) !! Z.to_nat event.2 = Some e ->
  (event_store event f ≫= k) h
  = k tt {| instance := write_event (instance h) event (f e);
            observed := observed h |}.
Proof.
  intros Hp He. pose proof (lookup_lt_Some _ _ _ He) as Hlt.
  unfold event_store, mbind, M_bind, get_events, lift, modify_events, slot_load,
    slot_store. simpl.
  replace (event.2 <? 0) with false by (symmetry; apply Z.ltb_ge; lia).
  rewrite He. simpl.
  replace ((0 <=? event.2) && (event.2 <? Z.of_nat (length (base (deref (instance h) event.1)))))
    with true
    by (symmetry; apply andb_true_iff; split; [apply Z.leb_le|apply Z.ltb_lt]; lia).
  done.
Qed.

Lemma RB_OBJ_WRITE_bind {T} parent (event : event_ptr) member v (k : unit -> M T) h e :
  0 <= event.2 ->
  base (deref (instance h) event.1) !! Z.to_nat event.2 = Some e ->
  (RB_OBJ_WRITE parent event member v ≫= k) h
  = k tt {| instance := write_event (instance h) event (member v e);
            observed := observed h ++ [obs_write_barrier parent v] |}.
Proof.
  intros Hp He. unfold RB_OBJ_WRITE.
  change ((event_store event (member v) ≫= (fun _ => observe (obs_write_barrier parent v))) ≫= k)
    with (fun h => match (event_store event (member v) ≫= (fun _ => observe (obs_write_barrier parent v))) h with
                   | Normal t h' => k t h'
                   | Raised e h' => Raised e h'
                   | Stuck f => Stuck f
                   end).
  simpl. by rewrite (event_store_bind _ _ _ _ e).
Qed.

(** Writing the kind and the three references of a record, as both
    [enqueue] and the drain do. *)
Lemma write_members_bind {T} parent (event : event_ptr) t c k o (K : M T) h e :
  0 <= event.2 ->
  base (deref (instance h) event.1) !! Z.to_nat event.2 = Some e ->
  (event_store event (set_type t);;
   RB_OBJ_WRITE parent event set_capture c;;
   RB_OBJ_WRITE parent event set_klass k;;
   RB_OBJ_WRITE parent event set_object o;;
   K) h
  = K {| instance := write_event (instance h) event (mkEvent t c k o);
         observed := observed h ++ [obs_write_barrier parent c;
                                    obs_write_barrier parent k;
                                    obs_write_barrier parent o] |}.
Proof.
  intros Hp He. pose proof (lookup_lt_Some _ _ _ He) as Hlt.
  erewrite event_store_bind by done.
  erewrite RB_OBJ_WRITE_bind; [|done|by apply write_event_lookup]. simpl.
  rewrite write_event_write_event.
  erewrite RB_OBJ_WRITE_bind; [|done|by apply write_event_lookup]. simpl.
  rewrite write_event_write_event.
  erewrite RB_OBJ_WRITE_bind; [|done|by apply write_event_lookup]. simpl.
  rewrite write_event_write_event.
  by rewrite <- !app_assoc.
Qed.

(** ** Stepping through the monad *)

Lemma get_events_bind {T} (k : Memory_Profiler_Events -> M T) h :
  (get_events ≫= k) h = k (instance h) h.
Proof. done. Qed.

Lemma lift_bind {T U} (x : T) (k : T -> M U) h : (lift (Ok x) ≫= k) h = k x h.
Proof. done. Qed.

Lemma modify_events_bind {T} f (k : unit -> M T) h :
  (modify_events f ≫= k) h
  = k tt {| instance := f (instance h); observed := observed h |}.
Proof. done. Qed.

Lemma observe_bind {T} o (k : unit -> M T) h :
  (observe o ≫= k) h
  = k tt {| instance := instance h; observed := observed h ++ [o] |}.
Proof. done. Qed.

Lemma mret_bind {T U} (x : T) (k : T -> M U) h : (mret x ≫= k) h = k x h.
Proof. done. Qed.

Lemma host_eta h : {| instance := instance h; observed := observed h |} = h.
Proof. by destruct h. Qed.

Lemma store_wf_assign events q queue :
  store_wf events -> queue_wf queue -> store_wf (assign events q queue).
Proof. intros (H0 & H1 & Hne) Hq. by destruct q. Qed.

Lemma store_wf_deref events q : store_wf events -> queue_wf (deref events q).
Proof. intros (H0 & H1 & _). by destruct q. Qed.

Lemma queue_wf_store_slot {A} (q : Memory_Profiler_Queue A) p x :
  queue_wf q -> queue_wf (store_slot q p x).
Proof.
  intros (Hlen & H). split; [|done]. simpl. by rewrite length_insert.
Qed.

Lemma dispatched_app obs obs' : dispatched (obs ++ obs') = dispatched obs ++ dispatched obs'.
Proof. apply omap_app. Qed.

Lemma enqueued_app obs obs' : enqueued (obs ++ obs') = enqueued obs ++ enqueued obs'.
Proof. apply omap_app. Qed.

(** ** enqueue *)

Lemma enqueue_cases type capture klass object mem h :
  store_wf (instance h) ->
  enqueue_spec type capture klass object mem h
    (Memory_Profiler_Events_enqueue type capture klass object mem h).
Proof.
  intros Hwf. unfold Memory_Profiler_Events_enqueue.
  rewrite get_events_bind.
  pose proof (store_wf_deref _ (available (instance h)) Hwf) as Hq.
  destruct (push_cases _ mem Hq) as [Hfull Hwhy|q' Hwf' Hcount Hes Hext Hgrow].
  - rewrite lift_bind, modify_events_bind. simpl.
    rewrite assign_deref, host_eta. by constructor.
  - rewrite lift_bind, modify_events_bind. simpl.
    pose proof Hq as (Hlen & Hc & _). pose proof Hwf' as (Hlen' & Hc' & _).
    destruct (lookup_lt_is_Some_2 (base q') (Z.to_nat (count (deref (instance h) (available (instance h))))))
      as [e He]; [lia|].
    erewrite (write_members_bind _ (available (instance h), _) _ _ _ _ _ _ e);
      [|simpl; lia|simpl; by rewrite deref_assign_eq].
    unfold rb_postponed_job_trigger. rewrite observe_bind. simpl.
    unfold write_event. simpl. rewrite deref_assign_eq, assign_assign, <- app_assoc.
    simpl. apply enqueue_stored; unfold available_queue.
    + by apply queue_wf_store_slot.
    + done.
    + simpl. lia.
    + unfold pending at 1. simpl. rewrite Hcount.
      apply pending_push_store; [lia|lia|done|lia].
Qed.

(** ** The producer side leaves the drain's queue alone *)

Lemma assign_fields events q queue :
  self (assign events q queue) = self events
  /\ postponed_job_handle (assign events q queue) = postponed_job_handle events
  /\ processing_flag (assign events q queue) = processing_flag events
  /\ available (assign events q queue) = available events
  /\ processing (assign events q queue) = processing events.
Proof. by destruct q. Qed.

Lemma extends_by_refl h : store_wf (instance h) -> extends_by [] h h.
Proof. intros Hwf. unfold extends_by. by rewrite !app_nil_r. Qed.

Lemma extends_by_trans new new' h h' h'' :
  extends_by new h h' -> extends_by new' h' h'' -> extends_by (new ++ new') h h''.
Proof.
  unfold extends_by, available_queue, processing_queue.
  intros (_ & Hs & Hj & Hf & Ha & Hp & Hpq & Hpend & Henq & Hdis)
         (Hwf & Hs' & Hj' & Hf' & Ha' & Hp' & Hpq' & Hpend' & Henq' & Hdis').
  split_and!; try congruence.
  - rewrite Hpend', Hpend, app_assoc. done.
  - rewrite Henq', Henq, app_assoc. done.
Qed.

Lemma extends_by_observe new h h' o :
  extends_by new h h' ->
  dispatched [o] = [] -> enqueued [o] = [] ->
  extends_by new h {| instance := instance h'; observed := observed h' ++ [o] |}.
Proof.
  unfold extends_by, available_queue, processing_queue.
  intros (Hwf & Hs & Hj & Hf & Ha & Hp & Hpq & Hpend & Henq & Hdis) Hd He.
  cbn [instance observed].
  rewrite dispatched_app, enqueued_app, Hd, He, !app_nil_r. done.
Qed.

Lemma run_call_enqueue process_queue type capture klass object mem h :
  store_wf (instance h) ->
  exists flag h' new,
    run_call process_queue (call_enqueue type capture klass object mem) h
    = Normal (returned_int flag) h'
    /\ extends_by new h h'
    /\ new = (if flag =? 0 then [] else [mkEvent type capture klass object]).
Proof.
  intros Hwf. unfold run_call.
  unfold mbind at 1, M_bind at 1.
  destruct (enqueue_cases type capture klass object mem h Hwf)
    as [Hfull Hwhy|queue Hq Hcount Hcap Hpend].
  - rewrite observe_bind. eexists 0, _, []. split; [done|]. split; [|done].
    apply extends_by_observe; [by apply extends_by_refl|done..].
  - rewrite observe_bind. simpl. eexists 1, _, _. split; [done|]. split; [|done].
    pose proof Hwf as (_ & _ & Hne).
    destruct (assign_fields (instance h) (available (instance h)) queue)
      as (Hs & Hj & Hf & Ha & Hp).
    unfold extends_by, available_queue, processing_queue. simpl.
    rewrite Hs, Hj, Hf, Ha, Hp, deref_assign_eq, deref_assign_ne by done.
    rewrite !dispatched_app, !enqueued_app. simpl. rewrite !app_nil_r.
    split_and!; try done. by apply store_wf_assign.
Qed.

Lemma run_call_draining process_queue c h :
  store_wf (instance h) -> processing_flag (instance h) <> 0 ->
  guarded process_queue ->
  exists new h',
    extends_by new h h'
    /\ ((exists r, run_call process_queue c h = Normal r h')
        \/ (exists e, run_call process_queue c h = Raised e h')).
Proof.
  intros Hwf Hflag Hguard. destruct c as [type capture klass object mem| |].
  - destruct (run_call_enqueue process_queue type capture klass object mem h Hwf)
      as (flag & h' & new & Hrun & Hext & _).
    exists new, h'. split; [done|]. left. eauto.
  - exists [], h. split; [by apply extends_by_refl|]. left. exists returned_void.
    unfold run_call, mbind, M_bind. by rewrite Hguard.
  - exists [], h. split; [by apply extends_by_refl|]. right.
    exists (rb_eRuntimeError "Recursive call detected!").
    unfold run_call, process_all_with.
    unfold mbind at 1, M_bind at 1. rewrite get_events_bind.
    destruct (Z.eqb_spec (processing_flag (instance h)) 0); [done|]. done.
Qed.

Lemma run_script_draining process_queue s : forall h,
  store_wf (instance h) -> processing_flag (instance h) <> 0 ->
  guarded process_queue ->
  exists new h',
    extends_by new h h'
    /\ (run_script process_queue s h = Normal tt h'
        \/ exists e, run_script process_queue s h = Raised e h').
Proof.
  induction s as [|e|c k IH]; intros h Hwf Hflag Hguard; simpl.
  - exists [], h. split; [by apply extends_by_refl|by left].
  - exists [], h. split; [by apply extends_by_refl|right; eauto].
  - destruct (run_call_draining process_queue c h Hwf Hflag Hguard)
      as (new & h1 & Hext & [[r ->]|[e ->]]);
      pose proof Hext as (Hwf1 & _ & _ & Hf1 & _).
    + destruct (IH r h1) as (new' & h' & Hext' & Hrun);
        [done|by rewrite Hf1|done|].
      exists (new ++ new'), h'. split; [by eapply extends_by_trans|done].
    + destruct (IH (raised e) h1) as (new' & h' & Hext' & Hrun);
        [done|by rewrite Hf1|done|].
      exists (new ++ new'), h'. split; [by eapply extends_by_trans|done].
Qed.

(** ** One turn of the drain loop *)

Lemma event_load_bind {T} (event : event_ptr) (k : Memory_Profiler_Event -> M T) h e :
  0 <= event.2 ->
  base (deref (instance h) event.1) !! Z.to_nat event.2 = Some e ->
  (event_load event ≫= k) h = k e h.
Proof.
  intros Hp He.
  unfold event_load, mbind, M_bind, get_events, lift, slot_load. simpl.
  replace (event.2 <? 0) with false by (symmetry; apply Z.ltb_ge; lia).
  by rewrite He.
Qed.

Lemma RB_OBJ_WRITE_run parent (event : event_ptr) member v h e :
  0 <= event.2 ->
  base (deref (instance h) event.1) !! Z.to_nat event.2 = Some e ->
  RB_OBJ_WRITE parent event member v h
  = Normal tt {| instance := write_event (instance h) event (member v e);
                 observed := observed h ++ [obs_write_barrier parent v] |}.
Proof.
  intros Hp He. unfold RB_OBJ_WRITE. by erewrite event_store_bind.
Qed.

Lemma reset_slot_run parent (event : event_ptr) h e :
  0 <= event.2 ->
  base (deref (instance h) event.1) !! Z.to_nat event.2 = Some e ->
  (event_store event (set_type MEMORY_PROFILER_EVENT_TYPE_NONE);;
   RB_OBJ_WRITE parent event set_capture Qnil;;
   RB_OBJ_WRITE parent event set_klass Qnil;;
   RB_OBJ_WRITE parent event set_object Qnil) h
  = Normal tt {| instance := write_event (instance h) event cleared;
                 observed := observed h ++ [obs_write_barrier parent Qnil;
                                            obs_write_barrier parent Qnil;
                                            obs_write_barrier parent Qnil] |}.
Proof.
  intros Hp He. pose proof (lookup_lt_Some _ _ _ He) as Hlt.
  erewrite event_store_bind by done.
  erewrite RB_OBJ_WRITE_bind; [|done|by apply write_event_lookup]. simpl.
  rewrite write_event_write_event.
  erewrite RB_OBJ_WRITE_bind; [|done|by apply write_event_lookup]. simpl.
  rewrite write_event_write_event.
  erewrite RB_OBJ_WRITE_run; [|done|by apply write_event_lookup]. simpl.
  rewrite write_event_write_event.
  by rewrite <- !app_assoc.
Qed.

Section Drain.

Variable handler : list observation -> Memory_Profiler_Event -> script.

(** After the handler ran (extending [h] to [h1]), the slot is reset. *)
Lemma reset_after_dispatch new e i h h1 obs :
  store_wf (instance h) ->
  0 <= i ->
  base (processing_queue h) !! Z.to_nat i = Some e ->
  extends_by new {| instance := instance h;
                    observed := observed h ++ [obs_process_event e] |} h1 ->
  dispatched obs = [] -> enqueued obs = [] ->
  dispatches_slot new e i h
    {| instance := write_event (instance h1) (processing (instance h), i) cleared;
       observed := (observed h1 ++ obs) |}.
Proof.
  unfold extends_by, dispatches_slot, available_queue, processing_queue.
  cbn [instance observed].
  intros Hwf Hi He (Hwf1 & Hs & Hj & Hf & Ha & Hp & Hpq & Hpend & Henq & Hdis) Hd Hn.
  unfold write_event. cbn [fst snd].
  destruct (assign_fields (instance h1) (processing (instance h))
              (store_slot (deref (instance h1) (processing (instance h))) i cleared))
    as (Hs' & Hj' & Hf' & Ha' & Hp').
  pose proof Hwf as (_ & _ & Hne).
  rewrite Hs', Hj', Hf', Ha', Hp', Hp, Ha, deref_assign_eq.
  rewrite deref_assign_ne by done.
  rewrite Hp in Hpq. rewrite Ha in Hpend. rewrite Hpq.
  rewrite !dispatched_app, !enqueued_app, Hd, Hn, !app_nil_r in *.
  change (dispatched [obs_process_event e]) with [e] in Hdis.
  split_and!; try done.
  apply store_wf_assign; [done|].
  apply queue_wf_store_slot. rewrite <- Hp. by apply store_wf_deref.
Qed.

Lemma process_event_at_spec process_queue i h e :
  store_wf (instance h) -> processing_flag (instance h) <> 0 ->
  guarded process_queue ->
  0 <= i < count (processing_queue h) ->
  base (processing_queue h) !! Z.to_nat i = Some e ->
  exists new h',
    process_event_at handler process_queue i h = Normal tt h'
    /\ dispatches_slot new e i h h'.
Proof.
  intros Hwf Hflag Hguard Hi He. unfold process_event_at.
  rewrite get_events_bind. unfold Memory_Profiler_Queue_at.
  fold (processing_queue h).
  replace (i <? count (processing_queue h)) with true
    by (symmetry; apply Z.ltb_lt; lia).
  rewrite lift_bind.
  unfold mbind at 1, M_bind at 1, rb_protect,
    Memory_Profiler_Events_process_event_protected.
  erewrite event_load_bind; [|cbn; lia|done].
  rewrite observe_bind.
  set (h0 := {| instance := instance h;
                observed := observed h ++ [obs_process_event e] |}).
  destruct (run_script_draining process_queue (handler (observed h) e) h0)
    as (new & h1 & Hext & [Hrun|[e' Hrun]]); [done..| |];
    rewrite Hrun; pose proof Hext as (Hwf1 & Hs & _ & _ & _ & Hp & Hpq & _);
    unfold processing_queue in Hpq; rewrite Hp in Hpq; cbn [instance h0] in Hpq, Hp, Hs.
  - change (negb (0 =? 0)) with false. cbn iota.
    rewrite mret_bind.
    rewrite get_events_bind.
    erewrite reset_slot_run; [|cbn; lia|cbn [fst snd]; by rewrite Hpq].
    exists new. eexists. split; [done|].
    apply (reset_after_dispatch new e i h h1); try done; lia.
  - change (negb (TAG_RAISE =? 0)) with true. cbn iota.
    rewrite observe_bind, get_events_bind.
    erewrite reset_slot_run; [|cbn; lia|cbn [fst snd instance]; by rewrite Hpq].
    exists new. eexists. split; [done|]. cbn [instance observed].
    rewrite <- app_assoc.
    apply (reset_after_dispatch new e i h h1); try done; lia.
Qed.

(** ** The drain loop *)

Lemma reset_from_count q :
  (Z.to_nat (count q) <= length (base q))%nat -> reset_from (count q) q = q.
Proof.
  intros H. unfold reset_from. rewrite Z.sub_diag. simpl.
  rewrite take_drop. by destruct q.
Qed.

Lemma reset_from_store_slot q i :
  0 <= i < count q -> (Z.to_nat (count q) <= length (base q))%nat ->
  reset_from (i + 1) (store_slot q i cleared) = reset_from i q.
Proof.
  intros Hi Hlen. unfold reset_from, store_slot. simpl. f_equal.
  replace (Z.to_nat (i + 1)) with (S (Z.to_nat i)) by lia.
  replace (Z.to_nat (count q - i)) with (S (Z.to_nat (count q - (i + 1)))) by lia.
  erewrite take_S_r by (apply list_lookup_insert_eq; lia).
  rewrite take_insert_ge, drop_insert_lt by lia.
  by rewrite <- app_assoc.
Qed.

Lemma pending_drop_store_slot (q : Memory_Profiler_Queue Memory_Profiler_Event) i e :
  0 <= i < count q -> base q !! Z.to_nat i = Some e ->
  drop (Z.to_nat i) (pending q)
  = e :: drop (Z.to_nat (i + 1)) (pending (store_slot q i cleared)).
Proof.
  intros Hi He. unfold pending, store_slot. simpl.
  replace (Z.to_nat (i + 1)) with (S (Z.to_nat i)) by lia.
  rewrite take_insert_lt, drop_insert_lt by lia.
  apply drop_S. rewrite lookup_take_lt by lia. done.
Qed.

Lemma process_events_from_spec process_queue fuel : forall i h,
  store_wf (instance h) -> processing_flag (instance h) <> 0 ->
  guarded process_queue ->
  0 <= i <= count (processing_queue h) ->
  (Z.to_nat (count (processing_queue h) - i) <= fuel)%nat ->
  exists new h',
    process_events_from handler process_queue fuel i h = Normal tt h'
    /\ drains_from new i h h'.
Proof.
  induction fuel as [|fuel IH]; intros i h Hwf Hflag Hguard Hi Hfuel;
    pose proof (store_wf_deref _ (processing (instance h)) Hwf) as (Hlen & Hc & _);
    fold (processing_queue h) in Hlen, Hc;
    cbn [process_events_from]; fold (processing_queue h);
    destruct (Z.ltb_spec i (count (processing_queue h))) as [Hlt|Hge];
    try lia.
  - assert (i = count (processing_queue h)) as -> by lia.
    exists [], h. split; [done|]. unfold drains_from.
    rewrite reset_from_count, !app_nil_r by lia.
    unfold pending. rewrite drop_ge, app_nil_r by (rewrite length_take; lia). done.
  - destruct (lookup_lt_is_Some_2 (base (processing_queue h)) (Z.to_nat i))
      as [e He]; [lia|].
    destruct (process_event_at_spec process_queue i h e)
      as (new1 & h1 & Hrun1 & Hstep); [done|done|done|lia|done|].
    unfold mbind, M_bind. rewrite Hrun1.
    rewrite wrap_id by (unfold SIZE_MAX; pose proof (store_wf_deref _ (processing (instance h)) Hwf) as (_ & _ & _ & _ & Hcap); fold (processing_queue h) in Hcap; unfold SIZE_MAX in Hcap; lia).
    destruct Hstep as (Hwf1 & Hs1 & Hj1 & Hf1 & Ha1 & Hp1 & Hpq1 & Hpend1 & Henq1 & Hdis1).
    destruct (IH (i + 1) h1) as (new2 & h' & Hrun & Hrest);
      [done|by rewrite Hf1|done|rewrite Hpq1; simpl; lia|rewrite Hpq1; simpl; lia|].
    destruct Hrest as (Hwf' & Hs' & Hj' & Hf' & Ha' & Hp' & Hpq' & Hpend' & Henq' & Hdis').
    exists (new1 ++ new2), h'. split; [done|]. unfold drains_from.
    split_and!; try congruence.
    + rewrite Hpq', Hpq1. apply reset_from_store_slot; lia.
    + rewrite Hpend', Hpend1, app_assoc. done.
    + rewrite Henq', Henq1, app_assoc. done.
    + rewrite Hdis', Hdis1, Hpq1, <- app_assoc. f_equal.
      symmetry. apply pending_drop_store_slot; [lia|done].
  - exists [], h. split; [done|]. unfold drains_from.
    assert (i = count (processing_queue h)) as -> by lia.
    rewrite reset_from_count, !app_nil_r by lia.
    unfold pending. rewrite drop_ge, app_nil_r by (rewrite length_take; lia). done.
Qed.

End Drain.


(** ** One whole drain *)

Lemma drain_begin_fields events :
  self (drain_begin events) = self events
  /\ postponed_job_handle (drain_begin events) = postponed_job_handle events
  /\ processing_flag (drain_begin events) = 1
  /\ available (drain_begin events) = processing events
  /\ processing (drain_begin events) = available events
  /\ (forall q, deref (drain_begin events) q = deref events q).
Proof. split_and!; try done. Qed.

Lemma drain_end_fields events :
  self (drain_end events) = self events
  /\ postponed_job_handle (drain_end events) = postponed_job_handle events
  /\ processing_flag (drain_end events) = 0
  /\ available (drain_end events) = available events
  /\ processing (drain_end events) = processing events
  /\ deref (drain_end events) (processing events)
     = Memory_Profiler_Queue_clear (deref events (processing events))
  /\ (forall q, q <> processing events ->
                deref (drain_end events) q = deref events q).
Proof.
  unfold drain_end.
  destruct (assign_fields events (processing events)
              (Memory_Profiler_Queue_clear (deref events (processing events))))
    as (Hs & Hj & Hf & Ha & Hp).
  split_and!; try done.
  - by destruct (processing events).
  - intros q Hq. by destruct q, (processing events).
Qed.

Lemma store_wf_drain_begin events : store_wf events -> store_wf (drain_begin events).
Proof. intros (H0 & H1 & Hne). by split_and!. Qed.

Lemma queue_wf_clear {A} (q : Memory_Profiler_Queue A) :
  queue_wf q -> queue_wf (Memory_Profiler_Queue_clear q).
Proof. intros (Hlen & Hc & H). split_and!; simpl; try done; lia. Qed.

Lemma store_wf_drain_end events : store_wf events -> store_wf (drain_end events).
Proof.
  intros Hwf. pose proof Hwf as (H0 & H1 & Hne).
  unfold drain_end.
  assert (Hc : store_wf (assign events (processing events)
                           (Memory_Profiler_Queue_clear (deref events (processing events)))))
    by (apply store_wf_assign; [done|]; by apply queue_wf_clear, store_wf_deref).
  destruct Hc as (? & ? & ?). by split_and!.
Qed.

Section DrainWhole.

Variable handler : list observation -> Memory_Profiler_Event -> script.

Lemma process_queue_guarded depth :
  guarded (Memory_Profiler_Events_process_queue handler depth).
Proof.
  intros h Hflag.
  destruct depth; simpl;
    by destruct (Z.eqb_spec (processing_flag (instance h)) 0).
Qed.

Lemma process_queue_spec depth h :
  store_wf (instance h) -> processing_flag (instance h) = 0 ->
  exists new h2,
    process_events_from handler (Memory_Profiler_Events_process_queue handler depth)
      (Z.to_nat (count (available_queue h))) 0
      {| instance := drain_begin (instance h); observed := observed h |}
    = Normal tt h2
    /\ drains_from new 0
         {| instance := drain_begin (instance h); observed := observed h |} h2
    /\ Memory_Profiler_Events_process_queue handler (S depth) h
       = Normal tt {| instance := drain_end (instance h2); observed := observed h2 |}
    /\ drained new h {| instance := drain_end (instance h2); observed := observed h2 |}.
Proof.
  intros Hwf Hflag.
  set (h1 := {| instance := drain_begin (instance h); observed := observed h |}).
  destruct (drain_begin_fields (instance h)) as (Hs1 & Hj1 & Hf1 & Ha1 & Hp1 & Hq1).
  assert (Hpq1 : processing_queue h1 = available_queue h).
  { unfold processing_queue, available_queue, h1. cbn [instance]. by rewrite Hq1, Hp1. }
  assert (Haq1 : available_queue h1 = processing_queue h).
  { unfold processing_queue, available_queue, h1. cbn [instance]. by rewrite Hq1, Ha1. }
  pose proof (store_wf_deref _ (available (instance h)) Hwf) as (_ & Hc & _).
  fold (available_queue h) in Hc.
  destruct (process_events_from_spec handler
              (Memory_Profiler_Events_process_queue handler depth)
              (Z.to_nat (count (available_queue h))) 0 h1)
    as (new & h2 & Hloop & Hdrain).
  { by apply store_wf_drain_begin. }
  { cbn [instance h1]. rewrite Hf1. lia. }
  { apply process_queue_guarded. }
  { rewrite Hpq1. lia. }
  { rewrite Hpq1. lia. }
  exists new, h2. split; [done|]. split; [done|]. split.
  - cbn [Memory_Profiler_Events_process_queue]. rewrite Hflag. cbn [Z.eqb negb].
    rewrite modify_events_bind, get_events_bind. fold h1.
    change (deref (instance h1) (processing (instance h1))) with (processing_queue h1).
    rewrite Hpq1. unfold mbind, M_bind. by rewrite Hloop.
  - destruct Hdrain as (Hwf2 & Hs2 & Hj2 & Hf2 & Ha2 & Hp2 & Hpq2 & Hpend2 & Henq2 & Hdis2).
    destruct (drain_end_fields (instance h2)) as (Hs & Hj & Hf & Ha & Hp & Hq & Hq').
    pose proof Hwf2 as (_ & _ & Hne2).
    unfold drained, processing_queue, available_queue in *.
    cbn [instance observed h1] in *.
    rewrite Hs, Hj, Hf, Ha, Hp, Hq, (Hq' _ Hne2).
    rewrite Hpq2, Hpend2, Henq2, Hdis2, Hs2, Hj2, Ha2, Hp2, Hs1, Hj1, Ha1, Hp1, !Hq1.
    split_and!; try done. by apply store_wf_drain_end.
Qed.

(** ** Producer programs, between drains *)

Lemma idle_extends new h h' : idle h -> extends_by new h h' -> idle h'.
Proof.
  unfold idle, extends_by.
  intros (_ & Hflag & Hcount & Hinv)
         (Hwf & _ & _ & Hf & _ & _ & Hpq & Hpend & Henq & Hdis).
  split_and!; try congruence.
  rewrite Henq, Hdis, Hpend, Hinv. by rewrite <- app_assoc.
Qed.

Lemma idle_drained new h h' : idle h -> drained new h h' -> idle h'.
Proof.
  unfold idle, drained.
  intros (_ & Hflag & Hcount & Hinv)
         (Hwf & _ & _ & Hf & _ & _ & Hpq & Hpend & Henq & Hdis).
  split_and!; try done.
  - by rewrite Hpq.
  - assert (Hnone : pending (processing_queue h) = [])
      by (unfold pending; by rewrite Hcount).
    by rewrite Henq, Hdis, Hpend, Hinv, Hnone.
Qed.

Lemma run_call_idle depth c h :
  idle h ->
  exists r h',
    run_call (Memory_Profiler_Events_process_queue handler (S depth)) c h
    = Normal r h' /\ idle h'.
Proof.
  intros Hidle. pose proof Hidle as (Hwf & Hflag & _).
  destruct c as [type capture klass object mem| |].
  - destruct (run_call_enqueue
                (Memory_Profiler_Events_process_queue handler (S depth))
                type capture klass object mem h Hwf)
      as (flag & h' & new & Hrun & Hext & _).
    exists (returned_int flag), h'. split; [done|]. by eapply idle_extends.
  - destruct (process_queue_spec depth h Hwf Hflag)
      as (new & h2 & _ & _ & Hrun & Hdrained).
    eexists returned_void, _. split; [|by eapply idle_drained].
    unfold run_call, mbind, M_bind. by rewrite Hrun.
  - destruct (process_queue_spec depth h Hwf Hflag)
      as (new & h2 & _ & _ & Hrun & Hdrained).
    eexists returned_void, _. split; [|by eapply idle_drained].
    unfold run_call, process_all_with.
    unfold mbind at 1, M_bind at 1. rewrite get_events_bind, Hflag.
    cbn [Z.eqb negb]. by rewrite Hrun.
Qed.

Lemma run_idle depth main : forall h,
  idle h ->
  exists h',
    (run handler (S depth) main h = Normal tt h'
     \/ exists e, run handler (S depth) main h = Raised e h')
    /\ idle h'.
Proof.
  unfold run.
  induction main as [|e|c k IH]; intros h Hidle; cbn [run_script].
  - exists h. split; [by left|done].
  - exists h. split; [right; eauto|done].
  - destruct (run_call_idle depth c h Hidle) as (r & h1 & -> & Hidle1).
    by apply IH.
Qed.

End DrainWhole.


(** ** The collector's walks *)

Lemma count_in_size_t {A} (q : Memory_Profiler_Queue A) :
  queue_wf q -> forall i, 0 <= i < count q -> wrap (i + 1) = i + 1.
Proof.
  intros (_ & Hc & _ & _ & Hcap) i Hi. apply wrap_id. lia.
Qed.

Lemma mark_queue_from_spec q skip_none fuel : forall i,
  queue_wf q -> 0 <= i <= count q ->
  (Z.to_nat (count q - i) <= fuel)%nat ->
  mark_queue_from fuel q skip_none i
  = Ok (drop (Z.to_nat i) (pending q) ≫= marked_of skip_none).
Proof.
  induction fuel as [|fuel IH]; intros i Hwf Hi Hfuel;
    pose proof Hwf as (Hlen & Hc & _);
    cbn [mark_queue_from];
    destruct (Z.ltb_spec i (count q)) as [Hlt|Hge]; try lia.
  - unfold pending. rewrite drop_ge by (rewrite length_take; lia). done.
  - destruct (lookup_lt_is_Some_2 (base q) (Z.to_nat i)) as [e He]; [lia|].
    unfold Memory_Profiler_Queue_at, slot_load.
    replace (i <? count q) with true by (symmetry; apply Z.ltb_lt; lia).
    replace (i <? 0) with false by (symmetry; apply Z.ltb_ge; lia).
    rewrite He, (count_in_size_t q Hwf i) by lia.
    rewrite IH by (try done; lia).
    assert (Hdrop : drop (Z.to_nat i) (pending q)
                    = e :: drop (Z.to_nat (i + 1)) (pending q)).
    { replace (Z.to_nat (i + 1)) with (S (Z.to_nat i)) by lia.
      apply drop_S. unfold pending. rewrite lookup_take_lt by lia. done. }
    rewrite Hdrop, bind_cons. done.
  - unfold pending. rewrite drop_ge by (rewrite length_take; lia). done.
Qed.

Lemma mark_queue_spec q skip_none :
  queue_wf q ->
  Memory_Profiler_Events_mark_queue q skip_none
  = Ok (pending q ≫= marked_of skip_none).
Proof.
  intros Hwf. pose proof Hwf as (_ & Hc & _).
  unfold Memory_Profiler_Events_mark_queue.
  rewrite mark_queue_from_spec by (try done; lia). done.
Qed.

Lemma mark_spec events :
  store_wf events ->
  Memory_Profiler_Events_mark events
  = Ok ((pending (deref events (available events)) ≫= marked_of 0)
        ++ (pending (deref events (processing events)) ≫= marked_of 1)).
Proof.
  intros Hwf. unfold Memory_Profiler_Events_mark.
  by rewrite !mark_queue_spec by by apply store_wf_deref.
Qed.

Lemma relocated_steps location skip_none e :
  (negb (skip_none =? 0)
   && bool_decide (type e = MEMORY_PROFILER_EVENT_TYPE_NONE)) = false ->
  (if bool_decide
        (type (set_klass (location (klass (set_capture (location (capture e)) e)))
                 (set_capture (location (capture e)) e))
         = MEMORY_PROFILER_EVENT_TYPE_NEWOBJ)
   then set_object
          (location
             (object (set_klass (location (klass (set_capture (location (capture e)) e)))
                        (set_capture (location (capture e)) e))))
          (set_klass (location (klass (set_capture (location (capture e)) e)))
             (set_capture (location (capture e)) e))
   else set_klass (location (klass (set_capture (location (capture e)) e)))
          (set_capture (location (capture e)) e))
  = relocated location skip_none e.
Proof.
  intros Hskip. unfold relocated. rewrite Hskip.
  by destruct e as [[| |] c k o].
Qed.

Lemma relocate_from_count location skip_none q :
  (Z.to_nat (count q) <= length (base q))%nat ->
  relocate_from location skip_none (count q) q = q.
Proof.
  intros H. unfold relocate_from, pending.
  rewrite drop_ge by (rewrite length_take; lia). simpl.
  rewrite take_drop. by destruct q.
Qed.

Lemma relocate_from_store_slot location skip_none q i e :
  0 <= i < count q -> (Z.to_nat (count q) <= length (base q))%nat ->
  base q !! Z.to_nat i = Some e ->
  relocate_from location skip_none (i + 1)
    (store_slot q i (relocated location skip_none e))
  = relocate_from location skip_none i q.
Proof.
  intros Hi Hlen He. unfold relocate_from, store_slot, pending. simpl. f_equal.
  replace (Z.to_nat (i + 1)) with (S (Z.to_nat i)) by lia.
  erewrite take_S_r by (apply list_lookup_insert_eq; lia).
  rewrite take_insert_ge, drop_insert_lt by lia.
  rewrite take_insert_lt, drop_insert_lt by lia.
  rewrite <- app_assoc. f_equal. simpl.
  erewrite (drop_S (take _ _) e (Z.to_nat i)) by (rewrite lookup_take_lt by lia; done).
  done.
Qed.

Lemma compact_queue_from_spec location skip_none fuel : forall q i,
  queue_wf q -> 0 <= i <= count q ->
  (Z.to_nat (count q - i) <= fuel)%nat ->
  compact_queue_from fuel location q skip_none i
  = Ok (relocate_from location skip_none i q).
Proof.
  induction fuel as [|fuel IH]; intros q i Hwf Hi Hfuel;
    pose proof Hwf as (Hlen & Hc & _);
    cbn [compact_queue_from];
    destruct (Z.ltb_spec i (count q)) as [Hlt|Hge]; try lia.
  - assert (i = count q) as -> by lia. by rewrite relocate_from_count by lia.
  - destruct (lookup_lt_is_Some_2 (base q) (Z.to_nat i)) as [e He]; [lia|].
    unfold Memory_Profiler_Queue_at, slot_load.
    replace (i <? count q) with true by (symmetry; apply Z.ltb_lt; lia).
    replace (i <? 0) with false by (symmetry; apply Z.ltb_ge; lia).
    rewrite He, (count_in_size_t q Hwf i) by lia.
    destruct (negb (skip_none =? 0)
              && bool_decide (type e = MEMORY_PROFILER_EVENT_TYPE_NONE)) eqn:Hskip.
    + rewrite IH by (try done; lia).
      assert (Hq : store_slot q i (relocated location skip_none e) = q).
      { unfold relocated. rewrite Hskip. unfold store_slot.
        rewrite list_insert_id by done. by destruct q. }
      rewrite <- (relocate_from_store_slot location skip_none q i e)
        by (try done; lia).
      by rewrite Hq.
    + rewrite (relocated_steps location skip_none e Hskip).
      unfold slot_store.
      replace ((0 <=? i) && (i <? Z.of_nat (length (base q)))) with true
        by (symmetry; apply andb_true_iff; split; [apply Z.leb_le|apply Z.ltb_lt]; lia).
      fold (store_slot q i (relocated location skip_none e)).
      rewrite IH; [|by apply queue_wf_store_slot|simpl; lia|simpl; lia].
      by rewrite relocate_from_store_slot by (try done; lia).
  - assert (i = count q) as -> by lia. by rewrite relocate_from_count by lia.
Qed.

Lemma compact_queue_spec location skip_none q :
  queue_wf q ->
  Memory_Profiler_Events_compact_queue location q skip_none
  = Ok (relocate_from location skip_none 0 q).
Proof.
  intros Hwf. pose proof Hwf as (_ & Hc & _).
  unfold Memory_Profiler_Events_compact_queue.
  by rewrite compact_queue_from_spec by (try done; lia).
Qed.

Lemma pending_relocate_from location skip_none q :
  (Z.to_nat (count q) <= length (base q))%nat ->
  pending (relocate_from location skip_none 0 q)
  = relocated location skip_none <$> pending q.
Proof.
  intros Hlen. unfold relocate_from. unfold pending at 1. simpl.
  change (Z.to_nat 0) with 0%nat. rewrite drop_0.
  rewrite take_app_length'; [done|].
  rewrite length_fmap. unfold pending. rewrite length_take. lia.
Qed.

Lemma queue_wf_relocate_from location skip_none q :
  queue_wf q -> queue_wf (relocate_from location skip_none 0 q).
Proof.
  intros (Hlen & Hc & H). split; [|done]. simpl.
  unfold pending.
  rewrite ?length_app, ?length_fmap, ?length_drop, ?length_take. lia.
Qed.


(** * The claims *)

Lemma idle_new self handle events :
  Memory_Profiler_Events_new self handle = inr events ->
  idle {| instance := events; observed := [] |}.
Proof.
  unfold Memory_Profiler_Events_new.
  destruct (handle =? POSTPONED_JOB_HANDLE_INVALID); [done|].
  intros H. inversion H; subst; clear H.
  unfold idle, store_wf, queue_wf, sizeof_Memory_Profiler_Event, SIZE_MAX.
  simpl. split_and!; try done; lia.
Qed.

(** C1. For every producer program (an interleaving of enqueue calls, drain
    triggers and flushes, with handlers that may themselves enqueue, trigger
    and flush), run on a newly built store with any re-entrancy bound of at
    least one: the run ends, the records handed to the handler are a prefix
    of the successfully enqueued records in insertion order, what remains is
    exactly the content of the available queue, so a record enqueued after
    another is never dispatched before it; and one more drain hands out
    exactly the rest. *)
Theorem dispatch_exactly_once_in_order handler depth main self handle events :
  Memory_Profiler_Events_new self handle = inr events ->
  exists h,
    (run handler (S depth) main {| instance := events; observed := [] |}
     = Normal tt h
     \/ exists e,
          run handler (S depth) main {| instance := events; observed := [] |}
          = Raised e h)
    /\ enqueued (observed h)
       = dispatched (observed h) ++ pending (available_queue h)
    /\ (forall i j create destroy,
          (i < j)%nat ->
          enqueued (observed h) !! i = Some create ->
          enqueued (observed h) !! j = Some destroy ->
          (j < length (dispatched (observed h)))%nat ->
          dispatched (observed h) !! i = Some create
          /\ dispatched (observed h) !! j = Some destroy)
    /\ exists h',
         Memory_Profiler_Events_process_queue handler (S depth) h = Normal tt h'
         /\ dispatched (observed h') = enqueued (observed h).
Proof.
  intros Hnew.
  destruct (run_idle handler depth main _ (idle_new _ _ _ Hnew))
    as (h & Hrun & Hidle).
  exists h. split; [done|].
  pose proof Hidle as (Hwf & Hflag & Hcount & Hinv).
  split; [done|]. split.
  - intros i j create destroy Hij Hi Hj Hlen.
    rewrite Hinv in Hi, Hj.
    rewrite lookup_app_l in Hi by lia. rewrite lookup_app_l in Hj by lia. done.
  - destruct (process_queue_spec handler depth h Hwf Hflag)
      as (new & h2 & _ & _ & Hdrain & Hdrained).
    eexists. split; [done|].
    destruct Hdrained as (_ & _ & _ & _ & _ & _ & _ & _ & _ & Hdis).
    by rewrite Hdis, Hinv.
Qed.

Lemma dispatch_exactly_once_in_order_witness :
  exists h,
    (run faulty_handler 1 three_enqueues fresh_host = Normal tt h
     \/ exists e, run faulty_handler 1 three_enqueues fresh_host = Raised e h)
    /\ enqueued (observed h)
       = dispatched (observed h) ++ pending (available_queue h).
Proof.
  destruct (dispatch_exactly_once_in_order faulty_handler 0 three_enqueues
              100 7 fresh_store) as (h & Hrun & Hinv & _).
  - reflexivity.
  - exists h. split; [exact Hrun|exact Hinv].
Defined.

(** C2. While the guard is up, the deferred-callback drain returns at once
    and leaves the store and everything observed as they were, and the
    synchronous flush raises "Recursive call detected!" to its caller,
    likewise without touching anything: neither path dispatches a record. *)
Theorem drain_request_while_draining handler depth h :
  processing_flag (instance h) <> 0 ->
  Memory_Profiler_Events_process_queue handler depth h = Normal tt h
  /\ Memory_Profiler_Events_process_all handler depth h
     = Raised (rb_eRuntimeError "Recursive call detected!") h.
Proof.
  intros Hflag. split.
  - by apply process_queue_guarded.
  - unfold Memory_Profiler_Events_process_all, process_all_with.
    rewrite get_events_bind.
    by destruct (Z.eqb_spec (processing_flag (instance h)) 0).
Qed.

Lemma drain_request_while_draining_witness :
  Memory_Profiler_Events_process_queue faulty_handler 1 three_draining
  = Normal tt three_draining
  /\ Memory_Profiler_Events_process_all faulty_handler 1 three_draining
     = Raised (rb_eRuntimeError "Recursive call detected!") three_draining.
Proof.
  apply (drain_request_while_draining faulty_handler 1 three_draining).
  vm_compute. discriminate.
Defined.


Lemma marked_of_cleared skip_none :
  skip_none <> 0 -> marked_of skip_none cleared = [].
Proof.
  intros H. unfold marked_of.
  by destruct (Z.eqb_spec skip_none 0).
Qed.

Lemma pending_reset_from_0 q :
  (Z.to_nat (count q) <= length (base q))%nat ->
  pending (reset_from 0 q) = replicate (Z.to_nat (count q)) cleared.
Proof.
  intros Hlen. unfold reset_from. unfold pending at 1. simpl.
  rewrite Z.sub_0_r, take_app_length'; [done|]. by rewrite length_replicate.
Qed.

Lemma bind_replicate_nil {A B} (f : A -> list B) n x :
  f x = [] -> replicate n x ≫= f = [].
Proof.
  intros Hf. induction n as [|n IH]; [done|].
  cbn [replicate]. by rewrite bind_cons, Hf, IH.
Qed.

Lemma queue_wf_reset_from q : queue_wf q -> queue_wf (reset_from 0 q).
Proof.
  intros (Hlen & Hc & H). split; [|done]. simpl.
  rewrite ?length_app, ?length_replicate, ?length_drop. lia.
Qed.

Lemma reset_from_lookup q j :
  0 <= j < count q -> base (reset_from 0 q) !! Z.to_nat j = Some cleared.
Proof.
  intros Hj. unfold reset_from. simpl.
  rewrite lookup_app_l by (rewrite length_replicate; lia).
  apply lookup_replicate_2. lia.
Qed.

(** C3. In a drain of [n] pending records: each turn of the loop hands its
    record to the handler and leaves its slot with the sentinel kind and
    [Qnil] in its three reference members, the logical count untouched; when
    the loop is over, before the count is zeroed, the processing queue still
    counts [n] slots, all of them reset, and the mark walk over it marks
    nothing; the drain then zeroes the count, and a mark walk over the
    processing queue marks nothing whether or not it skips sentinels. *)
Theorem slots_reset_before_count_zeroed handler depth h :
  store_wf (instance h) -> processing_flag (instance h) = 0 ->
  (forall hm i e,
      store_wf (instance hm) -> processing_flag (instance hm) <> 0 ->
      0 <= i < count (processing_queue hm) ->
      base (processing_queue hm) !! Z.to_nat i = Some e ->
      exists hm',
        process_event_at handler
          (Memory_Profiler_Events_process_queue handler depth) i hm
        = Normal tt hm'
        /\ last (dispatched (observed hm')) = Some e
        /\ base (processing_queue hm') !! Z.to_nat i = Some cleared
        /\ count (processing_queue hm') = count (processing_queue hm))
  /\ exists h2 h',
       process_events_from handler
         (Memory_Profiler_Events_process_queue handler depth)
         (Z.to_nat (count (available_queue h))) 0
         {| instance := drain_begin (instance h); observed := observed h |}
       = Normal tt h2
       /\ count (processing_queue h2) = count (available_queue h)
       /\ (forall j, 0 <= j < count (available_queue h) ->
                     base (processing_queue h2) !! Z.to_nat j = Some cleared)
       /\ Memory_Profiler_Events_mark_queue (processing_queue h2) 1 = Ok []
       /\ Memory_Profiler_Events_process_queue handler (S depth) h = Normal tt h'
       /\ instance h' = drain_end (instance h2)
       /\ count (processing_queue h') = 0
       /\ (forall j, 0 <= j < count (available_queue h) ->
                     base (processing_queue h') !! Z.to_nat j = Some cleared)
       /\ (forall skip_none,
             Memory_Profiler_Events_mark_queue (processing_queue h') skip_none
             = Ok []).
Proof.
  intros Hwf Hflag. split.
  - intros hm i e Hwfm Hflagm Hi He.
    destruct (process_event_at_spec handler
                (Memory_Profiler_Events_process_queue handler depth) i hm e)
      as (new & hm' & Hrun & Hstep); [done|done|apply process_queue_guarded|done..|].
    exists hm'. split; [done|].
    destruct Hstep as (_ & _ & _ & _ & _ & _ & Hpq & _ & _ & Hdis).
    rewrite Hdis, Hpq, last_snoc. simpl. split_and!; try done.
    apply list_lookup_insert_eq. by eapply lookup_lt_Some.
  - destruct (process_queue_spec handler depth h Hwf Hflag)
      as (new & h2 & Hloop & Hdrain & Hrun & Hdrained).
    pose proof (store_wf_deref _ (available (instance h)) Hwf) as Hq.
    fold (available_queue h) in Hq. pose proof Hq as (Hlen & Hc & _).
    destruct Hdrain as (_ & _ & _ & _ & _ & _ & Hpq2 & _).
    assert (Hpq1 : processing_queue
                     {| instance := drain_begin (instance h); observed := observed h |}
                   = available_queue h).
    { unfold processing_queue, available_queue. simpl.
      by destruct (available (instance h)). }
    rewrite Hpq1 in Hpq2.
    destruct Hdrained as (_ & _ & _ & _ & _ & _ & Hpq' & _).
    eexists h2, _. split; [done|]. rewrite Hpq2, Hpq'.
    split_and!; try done.
    + intros j Hj. by apply reset_from_lookup.
    + rewrite mark_queue_spec by by apply queue_wf_reset_from.
      rewrite pending_reset_from_0 by lia.
      by rewrite bind_replicate_nil by by apply marked_of_cleared.
    + intros j Hj. simpl. by apply reset_from_lookup.
Qed.

Lemma three_pending_wf : store_wf (instance three_pending).
Proof.
  unfold store_wf, queue_wf.
  split_and!; vm_compute; try reflexivity; try discriminate.
Defined.

Lemma slots_reset_before_count_zeroed_witness :
  exists h',
    Memory_Profiler_Events_process_queue faulty_handler 1 three_pending
    = Normal tt h'
    /\ count (processing_queue h') = 0
    /\ Memory_Profiler_Events_mark_queue (processing_queue h') 1 = Ok [].
Proof.
  destruct (slots_reset_before_count_zeroed faulty_handler 0 three_pending)
    as (_ & h2 & h' & _ & _ & _ & _ & Hrun & _ & Hcount & _ & Hmark).
  - exact three_pending_wf.
  - reflexivity.
  - exists h'. split; [exact Hrun|]. split; [exact Hcount|apply Hmark].
Defined.

(** C4. Whatever the handler does with each record (return or raise, after
    any calls back into the store), a drain started between drains returns
    normally, as does the synchronous flush; it has handed every pending
    record to the handler, once and in order; the processing queue is empty
    afterwards and the available queue holds only what was enqueued
    meanwhile, so a record whose handler raised is not delivered again. *)
Theorem drain_contains_handler_faults handler depth h :
  store_wf (instance h) -> processing_flag (instance h) = 0 ->
  exists new h',
    Memory_Profiler_Events_process_queue handler (S depth) h = Normal tt h'
    /\ Memory_Profiler_Events_process_all handler (S depth) h = Normal tt h'
    /\ dispatched (observed h')
       = dispatched (observed h) ++ pending (available_queue h)
    /\ count (processing_queue h') = 0
    /\ pending (available_queue h') = pending (processing_queue h) ++ new
    /\ enqueued (observed h') = enqueued (observed h) ++ new.
Proof.
  intros Hwf Hflag.
  destruct (process_queue_spec handler depth h Hwf Hflag)
    as (new & h2 & _ & _ & Hrun & Hdrained).
  destruct Hdrained as (_ & _ & _ & _ & _ & _ & Hpq & Hpend & Henq & Hdis).
  eexists new, _. split; [done|]. split_and!; try done.
  - unfold Memory_Profiler_Events_process_all, process_all_with.
    rewrite get_events_bind, Hflag. done.
  - by rewrite Hpq.
Qed.

Lemma drain_contains_handler_faults_witness :
  exists new h',
    Memory_Profiler_Events_process_queue faulty_handler 1 three_pending
    = Normal tt h'
    /\ dispatched (observed h')
       = dispatched (observed three_pending)
         ++ pending (available_queue three_pending)
    /\ enqueued (observed h') = enqueued (observed three_pending) ++ new.
Proof.
  destruct (drain_contains_handler_faults faulty_handler 0 three_pending)
    as (new & h' & Hrun & _ & Hdis & _ & _ & Henq).
  - exact three_pending_wf.
  - reflexivity.
  - exists new, h'. split; [exact Hrun|]. split; [exact Hdis|exact Henq].
Defined.

(** The scenario of the specification: three records, the handler raising on
    the second. *)
Example fault_on_second_of_three :
  exists h',
    Memory_Profiler_Events_process_queue faulty_handler 1 three_pending
    = Normal tt h'
    /\ dispatched (observed h')
       = [mkEvent MEMORY_PROFILER_EVENT_TYPE_NEWOBJ 1 11 21;
          mkEvent MEMORY_PROFILER_EVENT_TYPE_NEWOBJ 2 12 22;
          mkEvent MEMORY_PROFILER_EVENT_TYPE_FREEOBJ 1 11 21]
    /\ last (observed h') = Some (obs_write_barrier 100 Qnil)
    /\ pending (available_queue h') = [].
Proof. eexists. split; [vm_compute; reflexivity|]. by vm_compute. Qed.


Lemma push_ten_thousand_witness :
  exists q,
    push_records (Memory_Profiler_Queue_initialize (mkQueue [] 0 0 0) 32)
      ten_thousand
    = Ok (Some q)
    /\ capacity q = 16384
    /\ read_at q 0 = Ok 0
    /\ read_at q 9999 = Ok 9999.
Proof.
  destruct (push_ten_thousand (mkQueue [] 0 0 0) 32 ten_thousand)
    as (q & Hrun & _ & _ & Hcap & Hfirst & Hlast & _).
  - lia.
  - vm_compute. discriminate.
  - unfold ten_thousand. rewrite length_fmap, length_seq. lia.
  - unfold ten_thousand. apply Forall_fmap, Forall_forall. intros i _. discriminate.
  - exists q. split; [exact Hrun|]. split; [exact Hcap|].
    split; [apply Hfirst|apply Hlast]; vm_compute; reflexivity.
Defined.

Lemma resize_rejects_overflow_witness :
  exists rc q',
    Memory_Profiler_Queue_resize
      (mkQueue ([] : list Memory_Profiler_Event) 0 0 40) SIZE_MAX stale_block
    = Ok (rc, q')
    /\ (rc = -1 -> q' = mkQueue [] 0 0 40).
Proof.
  destruct (resize_rejects_overflow
              (mkQueue ([] : list Memory_Profiler_Event) 0 0 40) SIZE_MAX stale_block)
    as (rc & q' & Hrun & Hsame & _).
  - vm_compute. split; discriminate.
  - vm_compute. split; discriminate.
  - vm_compute. split; [reflexivity|discriminate].
  - vm_compute. discriminate.
  - exists rc, q'. split; [exact Hrun|exact Hsame].
Defined.

(** C7. When [Memory_Profiler_Queue_push] on the available queue returns
    [NULL], that is when growing the storage was rejected or [realloc]
    failed, [enqueue] returns 0 and nothing else happens: no exception, the
    store as it was (counts and contents of both queues), and nothing
    observed, in particular no postponed-job trigger. *)
Theorem enqueue_failure_drops_event type capture klass object mem h queue :
  Memory_Profiler_Queue_push (available_queue h) mem = Ok (None, queue) ->
  Memory_Profiler_Events_enqueue type capture klass object mem h = Normal 0 h.
Proof.
  intros Hpush. pose proof (push_NULL_unchanged _ _ _ Hpush) as ->.
  unfold Memory_Profiler_Events_enqueue. rewrite get_events_bind.
  unfold available_queue in Hpush. rewrite Hpush.
  rewrite lift_bind, modify_events_bind. simpl.
  by rewrite assign_deref, host_eta.
Qed.

Lemma enqueue_failure_drops_event_witness :
  Memory_Profiler_Events_enqueue MEMORY_PROFILER_EVENT_TYPE_NEWOBJ 1 11 21
    realloc_NULL fresh_host
  = Normal 0 fresh_host.
Proof.
  apply (enqueue_failure_drops_event _ _ _ _ realloc_NULL fresh_host
           (available_queue fresh_host)).
  vm_compute. reflexivity.
Defined.

(** C8, as the code has it. From [initialize] on, over every sequence of
    operations with arguments in range that runs without a crash: the count
    stays within the capacity, the capacity is 0 or 128 doubled some number
    of times, and the storage holds that many slots.  [push], [at], [clear]
    and [resize] never lower the capacity, and change it only by doubling
    (from 128 when it was 0); [free] and [initialize] give the storage up
    and put the capacity back to 0.  [clear] zeroes the count and keeps
    storage and capacity. *)
Theorem queue_capacity_invariant {A} (q0 : Memory_Profiler_Queue A) es ops q :
  Forall op_in_range ops ->
  queue_run (Memory_Profiler_Queue_initialize q0 es) ops = Ok q ->
  0 <= count q <= capacity q
  /\ doubled_from_floor (capacity q)
  /\ length (base q) = Z.to_nat (capacity q)
  /\ (forall op q',
        op_in_range op -> queue_step q op = Ok q' ->
        if releases op then capacity q' = 0
        else capacity q' = capacity q
             \/ capacity q < capacity q'
                /\ exists j, 0 <= j /\ capacity q' = doubling_start q * 2 ^ j)
  /\ count (Memory_Profiler_Queue_clear q) = 0
  /\ base (Memory_Profiler_Queue_clear q) = base q
  /\ capacity (Memory_Profiler_Queue_clear q) = capacity q.
Proof.
  intros Hops Hrun.
  pose proof (queue_run_inv ops _ q (queue_initialize_inv q0 es) Hops Hrun) as Hinv.
  pose proof Hinv as (Hc & Hfloor & Hlen).
  split; [done|]. split; [done|]. split; [done|]. split; [|done].
  intros op q' Hop Hstep.
  by destruct (queue_step_inv q op q' Hinv Hop Hstep).
Qed.

Lemma queue_capacity_invariant_witness :
  0 <= count (mkQueue (replicate 128 0) 128 1 8)
    <= capacity (mkQueue (replicate 128 0) 128 1 8)
  /\ doubled_from_floor 128.
Proof.
  destruct (queue_capacity_invariant (mkQueue ([] : list Z) 0 0 0) 8
              [op_push (realloc_block (fun _ => 0))]
              (mkQueue (replicate 128 0) 128 1 8))
    as (Hc & Hfloor & _).
  - repeat constructor.
  - vm_compute. reflexivity.
  - split; [exact Hc|exact Hfloor].
Defined.

(** C8, as stated, fails: after a push the capacity is 128, and [free]
    lowers it to 0. *)
Lemma capacity_decreases_on_free :
  ~ (forall (ops : list (queue_op Z)) q op q',
        queue_run (Memory_Profiler_Queue_initialize (mkQueue [] 0 0 0) 8) ops
        = Ok q ->
        queue_step q op = Ok q' ->
        capacity q <= capacity q').
Proof.
  intros H.
  specialize (H [op_push (realloc_block (fun _ => 0))] _ op_free _
                eq_refl eq_refl).
  vm_compute in H. by apply H.
Qed.

(** C9, as stated, fails: the store holds the object reference of a Freed
    record, and the mark walk does not visit it. *)
Lemma freed_object_held_not_marked :
  In 3 (held freed_once)
  /\ Memory_Profiler_Events_mark freed_once = Ok [1; 2].
Proof. split; vm_compute; [tauto|reflexivity]. Qed.

(** C9, as the code has it. The mark walk goes over both queues up to their
    logical counts, the available queue first.  It visits the capture and
    class reference of every slot of the available queue, and of every slot
    of the processing queue whose kind is not the sentinel; it visits the
    object reference of the Allocated records among them, and of no other.
    The relocation walk rewrites exactly the members the mark walk visits,
    and leaves counts, capacities and roles alone. *)
Theorem mark_walk_visits_live_references events :
  store_wf events ->
  Memory_Profiler_Events_mark events
  = Ok ((pending (deref events (available events)) ≫= marked_of 0)
        ++ (pending (deref events (processing events)) ≫= marked_of 1))
  /\ (forall e, marked_of 0 e
                = [capture e; klass e]
                  ++ (if bool_decide (type e = MEMORY_PROFILER_EVENT_TYPE_NEWOBJ)
                      then [object e] else []))
  /\ (forall e, marked_of 1 e
                = if bool_decide (type e = MEMORY_PROFILER_EVENT_TYPE_NONE)
                  then []
                  else marked_of 0 e)
  /\ (forall marked e,
        Memory_Profiler_Events_mark events = Ok marked ->
        e ∈ pending (deref events (available events))
        \/ (e ∈ pending (deref events (processing events))
            /\ type e <> MEMORY_PROFILER_EVENT_TYPE_NONE) ->
        capture e ∈ marked /\ klass e ∈ marked
        /\ (type e = MEMORY_PROFILER_EVENT_TYPE_NEWOBJ -> object e ∈ marked))
  /\ (forall location,
      exists events',
        Memory_Profiler_Events_compact location events = Ok events'
        /\ pending (deref events' (available events))
           = relocated location 0 <$> pending (deref events (available events))
        /\ pending (deref events' (processing events))
           = relocated location 1 <$> pending (deref events (processing events))
        /\ available events' = available events
        /\ processing events' = processing events
        /\ (forall q, count (deref events' q) = count (deref events q)
                      /\ capacity (deref events' q) = capacity (deref events q))
        /\ (forall skip_none e,
              marked_of skip_none (relocated location skip_none e)
              = location <$> marked_of skip_none e)).
Proof.
  intros Hwf. pose proof (mark_spec events Hwf) as Hmark.
  split; [done|]. split; [done|]. split.
  { intros e. unfold marked_of. simpl. by case_bool_decide. }
  split.
  - intros marked e Hm He. rewrite Hmark in Hm. inversion Hm; subst; clear Hm.
    assert (Hin : forall v, v ∈ marked_of 0 e ->
                  e ∈ pending (deref events (available events))
                  \/ e ∈ pending (deref events (processing events))
                     /\ type e <> MEMORY_PROFILER_EVENT_TYPE_NONE ->
                  v ∈ (pending (deref events (available events)) ≫= marked_of 0)
                      ++ (pending (deref events (processing events)) ≫= marked_of 1)).
    { intros v Hv [Ha|[Hp Hne]]; apply elem_of_app; [left|right];
        apply list_elem_of_bind; exists e; split; try done.
      unfold marked_of in *. simpl in *. by rewrite bool_decide_eq_false_2. }
    split_and!.
    + apply Hin; [|done]. unfold marked_of. simpl. constructor.
    + apply Hin; [|done]. unfold marked_of. simpl. do 2 constructor.
    + intros Ht. apply Hin; [|done]. unfold marked_of. simpl.
      rewrite bool_decide_eq_true_2 by done. do 3 constructor.
  - intros location. unfold Memory_Profiler_Events_compact.
    pose proof Hwf as (_ & _ & Hne).
    rewrite compact_queue_spec by by apply store_wf_deref.
    destruct (assign_fields events (available events)
                (relocate_from location 0 0 (deref events (available events))))
      as (_ & _ & _ & Ha & Hp).
    rewrite Hp, deref_assign_ne by done.
    rewrite compact_queue_spec by by apply store_wf_deref.
    eexists. split; [done|].
    pose proof (store_wf_deref _ (available events) Hwf) as (Hla & Hca & _).
    pose proof (store_wf_deref _ (processing events) Hwf) as (Hlp & Hcp & _).
    split_and!.
    + rewrite deref_assign_ne, deref_assign_eq by done.
      apply pending_relocate_from. lia.
    + rewrite deref_assign_eq. apply pending_relocate_from. lia.
    + by destruct (processing events), (available events).
    + by destruct (processing events), (available events).
    + intros q. destruct q, (processing events) eqn:E1, (available events) eqn:E2;
        simpl; rewrite ?E1, ?E2; done.
    + intros skip_none e. unfold marked_of, relocated.
      by destruct (negb (skip_none =? 0)), e as [[| |] c k o].
Qed.

Lemma freed_once_wf : store_wf freed_once.
Proof.
  unfold store_wf, queue_wf.
  split_and!; vm_compute; try reflexivity; try discriminate.
Defined.

Lemma mark_walk_visits_live_references_witness :
  Memory_Profiler_Events_mark freed_once
  = Ok ((pending (deref freed_once (available freed_once)) ≫= marked_of 0)
        ++ (pending (deref freed_once (processing freed_once)) ≫= marked_of 1)).
Proof.
  destruct (mark_walk_visits_live_references freed_once freed_once_wf)
    as (Hmark & _).
  exact Hmark.
Defined.


Lemma slot_load_pending {A} (q : Memory_Profiler_Queue A) p x :
  0 <= p -> pending q !! Z.to_nat p = Some x -> slot_load q p = Ok x.
Proof.
  intros Hp Hx. unfold slot_load.
  replace (p <? 0) with false by (symmetry; apply Z.ltb_ge; lia).
  unfold pending in Hx. apply lookup_take_Some in Hx as [-> _]. done.
Qed.

Lemma compact_pending location events :
  store_wf events ->
  exists events',
    Memory_Profiler_Events_compact location events = Ok events'
    /\ pending (deref events' (available events))
       = relocated location 0 <$> pending (deref events (available events))
    /\ pending (deref events' (processing events))
       = relocated location 1 <$> pending (deref events (processing events)).
Proof.
  intros Hwf. unfold Memory_Profiler_Events_compact.
  pose proof Hwf as (_ & _ & Hne).
  rewrite compact_queue_spec by by apply store_wf_deref.
  destruct (assign_fields events (available events)
              (relocate_from location 0 0 (deref events (available events))))
    as (_ & _ & _ & Ha & Hp).
  rewrite Hp, deref_assign_ne by done.
  rewrite compact_queue_spec by by apply store_wf_deref.
  eexists. split; [done|].
  pose proof (store_wf_deref _ (available events) Hwf) as (Hla & Hca & _).
  pose proof (store_wf_deref _ (processing events) Hwf) as (Hlp & Hcp & _).
  split.
  - rewrite deref_assign_ne, deref_assign_eq by done.
    apply pending_relocate_from. lia.
  - rewrite deref_assign_eq. apply pending_relocate_from. lia.
Qed.

Lemma enqueue_at_pushed_slot type capture klass object mem h p queue :
  store_wf (instance h) ->
  Memory_Profiler_Queue_push (available_queue h) mem = Ok (Some p, queue) ->
  Memory_Profiler_Events_enqueue type capture klass object mem h
  = Normal 1
      {| instance :=
           assign (instance h) (available (instance h))
             (store_slot queue p (mkEvent type capture klass object));
         observed :=
           observed h
           ++ [obs_write_barrier (self (instance h)) capture;
               obs_write_barrier (self (instance h)) klass;
               obs_write_barrier (self (instance h)) object;
               obs_postponed_job_trigger (postponed_job_handle (instance h))] |}
  /\ p = count (available_queue h)
  /\ queue_wf queue
  /\ pending (store_slot queue p (mkEvent type capture klass object))
     = pending (available_queue h) ++ [mkEvent type capture klass object].
Proof.
  intros Hwf Hpush. unfold available_queue in *.
  pose proof (store_wf_deref _ (available (instance h)) Hwf) as Hq.
  pose proof (push_cases _ mem Hq) as Hspec. rewrite Hpush in Hspec.
  inversion Hspec as [|q' Hwf' Hcount Hes Hext Hgrow]; subst; clear Hspec.
  pose proof Hq as (Hlen & Hc & _). pose proof Hwf' as (Hlen' & Hc' & _).
  unfold Memory_Profiler_Events_enqueue.
  rewrite get_events_bind, Hpush, lift_bind, modify_events_bind. simpl.
  destruct (lookup_lt_is_Some_2 (base queue)
              (Z.to_nat (count (deref (instance h) (available (instance h))))))
    as [e He]; [lia|].
  erewrite (write_members_bind _ (available (instance h), _) _ _ _ _ _ _ e);
    [|simpl; lia|simpl; by rewrite deref_assign_eq].
  unfold rb_postponed_job_trigger. rewrite observe_bind. simpl.
  unfold write_event. simpl. rewrite deref_assign_eq, assign_assign, <- app_assoc.
  simpl. split_and!; try done.
  unfold pending at 1. simpl. rewrite Hcount.
  apply pending_push_store; [lia|lia|done|lia].
Qed.

(** C10. Whenever [Memory_Profiler_Queue_push] on the available queue hands
    out a slot, [enqueue] of a Freed record returns 1, having stored the
    kind and the capture, class and object references in that slot, with a
    write barrier for each of the three and the object reference among them.
    The mark walk over the store after this [enqueue] marks what it marked
    before and, for the new record, the capture and class references: not
    the object reference.  The relocation walk rewrites the capture and
    class members of the new record and leaves its object member as stored.
    In general, on either queue (with or without sentinel skipping), the
    object member is visited and rewritten for Allocated records only; the
    capture and class members are visited and rewritten for every record the
    walk does not skip, whatever its kind. *)
Theorem freed_object_stored_not_walked c k o mem h p queue :
  store_wf (instance h) ->
  Memory_Profiler_Queue_push (available_queue h) mem = Ok (Some p, queue) ->
  (exists h',
      Memory_Profiler_Events_enqueue MEMORY_PROFILER_EVENT_TYPE_FREEOBJ
        c k o mem h = Normal 1 h'
      /\ slot_load (available_queue h') p
         = Ok (mkEvent MEMORY_PROFILER_EVENT_TYPE_FREEOBJ c k o)
      /\ pending (available_queue h')
         = pending (available_queue h)
           ++ [mkEvent MEMORY_PROFILER_EVENT_TYPE_FREEOBJ c k o]
      /\ processing_queue h' = processing_queue h
      /\ observed h'
         = observed h
           ++ [obs_write_barrier (self (instance h)) c;
               obs_write_barrier (self (instance h)) k;
               obs_write_barrier (self (instance h)) o;
               obs_postponed_job_trigger (postponed_job_handle (instance h))]
      /\ (exists marked_available marked_processing,
            Memory_Profiler_Events_mark_queue (available_queue h) 0
            = Ok marked_available
            /\ Memory_Profiler_Events_mark_queue (processing_queue h) 1
               = Ok marked_processing
            /\ Memory_Profiler_Events_mark (instance h')
               = Ok (marked_available ++ [c; k] ++ marked_processing))
      /\ (forall location,
          exists events',
            Memory_Profiler_Events_compact location (instance h') = Ok events'
            /\ slot_load (deref events' (available (instance h'))) p
               = Ok (mkEvent MEMORY_PROFILER_EVENT_TYPE_FREEOBJ
                       (location c) (location k) o)))
  /\ (forall q skip_none location,
        queue_wf q ->
        Memory_Profiler_Events_mark_queue q skip_none
        = Ok (pending q ≫= marked_of skip_none)
        /\ exists q',
             Memory_Profiler_Events_compact_queue location q skip_none = Ok q'
             /\ pending q' = relocated location skip_none <$> pending q)
  /\ (forall skip_none location e,
        match type e with
        | MEMORY_PROFILER_EVENT_TYPE_FREEOBJ =>
            marked_of skip_none e = [capture e; klass e]
            /\ relocated location skip_none e
               = mkEvent MEMORY_PROFILER_EVENT_TYPE_FREEOBJ
                   (location (capture e)) (location (klass e))
                   (object e)
        | MEMORY_PROFILER_EVENT_TYPE_NEWOBJ =>
            marked_of skip_none e
            = [capture e; klass e; object e]
            /\ relocated location skip_none e
               = mkEvent MEMORY_PROFILER_EVENT_TYPE_NEWOBJ
                   (location (capture e)) (location (klass e))
                   (location (object e))
        | MEMORY_PROFILER_EVENT_TYPE_NONE =>
            if skip_none =? 0
            then marked_of skip_none e = [capture e; klass e]
                 /\ relocated location skip_none e
                    = mkEvent MEMORY_PROFILER_EVENT_TYPE_NONE
                        (location (capture e)) (location (klass e))
                        (object e)
            else marked_of skip_none e = []
                 /\ relocated location skip_none e = e
        end).
Proof.
  intros Hwf Hpush. split_and!.
  - destruct (enqueue_at_pushed_slot MEMORY_PROFILER_EVENT_TYPE_FREEOBJ
                c k o mem h p queue Hwf Hpush) as (Hrun & Hp & Hq & Hpend).
    pose proof Hwf as (_ & _ & Hne).
    pose proof (store_wf_deref _ (available (instance h)) Hwf) as (Hla & Hca & _).
    set (e := mkEvent MEMORY_PROFILER_EVENT_TYPE_FREEOBJ c k o) in *.
    set (events' := assign (instance h) (available (instance h))
                      (store_slot queue p e)) in *.
    assert (Hwf' : store_wf events').
    { apply store_wf_assign; [done|]. by apply queue_wf_store_slot. }
    destruct (assign_fields (instance h) (available (instance h))
                (store_slot queue p e)) as (_ & _ & _ & Ha & Hpr).
    fold events' in Ha, Hpr.
    assert (Hlen : length (pending (available_queue h)) = Z.to_nat p).
    { unfold pending. fold (available_queue h) in Hla, Hca.
      rewrite length_take. lia. }
    assert (Hav : deref events' (available events') = store_slot queue p e).
    { rewrite Ha. apply deref_assign_eq. }
    assert (Hproc : deref events' (processing events')
                    = deref (instance h) (processing (instance h))).
    { rewrite Hpr. by apply deref_assign_ne. }
    eexists. split; [exact Hrun|].
    unfold available_queue at 1 2, processing_queue at 1. cbn [instance observed].
    rewrite Hav, Hproc. split_and!; try done.
    + apply slot_load_pending; [fold (available_queue h) in Hca; lia|].
      rewrite Hpend, lookup_app_r by lia.
      by rewrite Hlen, Nat.sub_diag.
    + exists (pending (available_queue h) ≫= marked_of 0),
             (pending (processing_queue h) ≫= marked_of 1).
      split; [by apply mark_queue_spec, store_wf_deref|].
      split; [by apply mark_queue_spec, store_wf_deref|].
      rewrite mark_spec, Hav, Hproc, Hpend, bind_app by done.
      by rewrite <- app_assoc.
    + intros location.
      destruct (compact_pending location events' Hwf')
        as (events'' & Hcompact & Hpa & _).
      exists events''. split; [done|].
      apply slot_load_pending; [fold (available_queue h) in Hca; lia|].
      rewrite Hpa, Hav, Hpend, fmap_app, lookup_app_r
        by (rewrite length_fmap; lia).
      by rewrite length_fmap, Hlen, Nat.sub_diag.
  - intros q skip_none location Hq. split; [by apply mark_queue_spec|].
    eexists. split; [by apply compact_queue_spec|].
    apply pending_relocate_from. destruct Hq as (Hlen & Hc & _). lia.
  - intros skip_none location e. unfold marked_of, relocated.
    destruct e as [[| |] c' k' o']; simpl;
      destruct (skip_none =? 0); simpl; done.
Qed.

Lemma freed_object_stored_not_walked_witness :
  exists h',
    Memory_Profiler_Events_enqueue MEMORY_PROFILER_EVENT_TYPE_FREEOBJ 1 2 3
      stale_block fresh_host = Normal 1 h'
    /\ instance h' = freed_once
    /\ slot_load (deref freed_once (available freed_once)) 0
       = Ok (mkEvent MEMORY_PROFILER_EVENT_TYPE_FREEOBJ 1 2 3)
    /\ Memory_Profiler_Events_mark freed_once = Ok [1; 2]
    /\ exists events',
         Memory_Profiler_Events_compact (Z.add 1000) freed_once = Ok events'
         /\ slot_load (deref events' (available freed_once)) 0
            = Ok (mkEvent MEMORY_PROFILER_EVENT_TYPE_FREEOBJ 1001 1002 3).
Proof.
  destruct (freed_object_stored_not_walked 1 2 3 stale_block fresh_host 0
              (mkQueue (replicate 128 (mkEvent MEMORY_PROFILER_EVENT_TYPE_FREEOBJ
                                         666 666 666))
                 128 1 sizeof_Memory_Profiler_Event))
    as ((h' & Hrun & Hslot & _ & _ & _ & Hmark & Hcompact) & _).
  - unfold store_wf, queue_wf.
    split_and!; vm_compute; try reflexivity; try discriminate.
  - vm_compute. reflexivity.
  - assert (Hh' : instance h' = freed_once).
    { vm_compute in Hrun. injection Hrun as <-. vm_compute. reflexivity. }
    destruct Hmark as (ma & mp & Hma & Hmp & Hmark).
    vm_compute in Hma. injection Hma as <-.
    vm_compute in Hmp. injection Hmp as <-.
    destruct (Hcompact (Z.add 1000)) as (events' & Hc & Hs).
    unfold available_queue in Hslot. rewrite Hh' in *.
    exists h'. split; [exact Hrun|]. split; [exact Hh'|].
    split; [exact Hslot|]. split; [exact Hmark|].
    exists events'. split; [exact Hc|exact Hs].
Defined.

(** * Further properties of queue.h *)

Section QueueMore.

Context {A : Type}.
Implicit Types q : Memory_Profiler_Queue A.

Lemma read_at_lookup q i :
  0 <= i ->
  read_at q i
  = if i <? count q
    then match base q !! Z.to_nat i with
         | Some x => Ok x
         | None => Crash OutOfBounds
         end
    else Crash AssertionFailed.
Proof.
  intros Hi. unfold read_at, Memory_Profiler_Queue_at, slot_load.
  destruct (i <? count q); [|done].
  by replace (i <? 0) with false by (symmetry; apply Z.ltb_ge; lia).
Qed.

Lemma read_at_iff q i x :
  (Z.to_nat (count q) <= length (base q))%nat -> 0 <= i ->
  read_at q i = Ok x <-> pending q !! Z.to_nat i = Some x.
Proof.
  intros Hlen Hi. rewrite read_at_lookup by done. unfold pending.
  destruct (Z.ltb_spec i (count q)) as [Hlt|Hge].
  - rewrite lookup_take_lt by lia.
    destruct (base q !! Z.to_nat i); split; intros H; by inversion H.
  - rewrite lookup_take_ge by lia. split; intros H; by inversion H.
Qed.

(** X1. Indexed access is bounds-checked against the logical count, not the
    capacity: on a queue whose storage holds its count, reading index [i]
    returns a record exactly when [i] is below the count, and then it is the
    record of slot [i]; at or beyond the count the assertion fails, also for
    slots the storage does have. *)
Theorem indexed_access_is_bounded_by_count q i :
  (Z.to_nat (count q) <= length (base q))%nat -> 0 <= i ->
  (forall x, read_at q i = Ok x <-> pending q !! Z.to_nat i = Some x)
  /\ (i < count q -> exists x, read_at q i = Ok x)
  /\ (count q <= i -> read_at q i = Crash AssertionFailed).
Proof.
  intros Hlen Hi. split_and!.
  - intros x. by apply read_at_iff.
  - intros Hlt.
    destruct (lookup_lt_is_Some_2 (pending q) (Z.to_nat i)) as [x Hx].
    { unfold pending. rewrite length_take. lia. }
    exists x. by apply read_at_iff.
  - intros Hge. rewrite read_at_lookup by done.
    by replace (i <? count q) with false by (symmetry; apply Z.ltb_ge; lia).
Qed.

Lemma push_record_cases q x mem q' :
  queue_wf q -> push_record q x mem = Ok (Some q') ->
  exists q1,
    Memory_Profiler_Queue_push q mem = Ok (Some (count q), q1)
    /\ q' = store_slot q1 (count q) x
    /\ queue_wf q1 /\ count q1 = count q + 1
    /\ element_size q1 = element_size q
    /\ (exists extra, base q1 = base q ++ extra)
    /\ (capacity q1 = capacity q
        \/ count q = capacity q /\ capacity q1 = grown_capacity q (count q + 1)).
Proof.
  intros Hwf. unfold push_record.
  pose proof Hwf as (Hlen & Hcount & Hes & Hbytes & Hcap).
  destruct (push_cases q mem Hwf) as [? ?|q1 Hwf1 Hc1 He1 Hext Hgrow]; [done|].
  pose proof Hwf1 as (Hlen1 & Hcount1 & _).
  unfold slot_store.
  replace ((0 <=? count q) && (count q <? Z.of_nat (length (base q1)))) with true
    by (symmetry; apply andb_true_iff; split; [apply Z.leb_le|apply Z.ltb_lt]; lia).
  intros H. inversion H; subst; clear H.
  exists q1. split_and!; try done.
  destruct Hgrow as [?|(? & ? & _)]; [by left|by right].
Qed.

(** X2. A successful push of a record (reserve the tail slot, write through
    the pointer) appends exactly that record: the count grows by one, the
    record is read back at the old count, every record that could be read
    before is read back unchanged at its index, also when the storage was
    reallocated, and the capacity did not go down. *)
Theorem push_record_appends q x mem q' :
  queue_wf q -> push_record q x mem = Ok (Some q') ->
  queue_wf q'
  /\ count q' = count q + 1
  /\ pending q' = pending q ++ [x]
  /\ read_at q' (count q) = Ok x
  /\ (forall i y, 0 <= i -> read_at q i = Ok y -> read_at q' i = Ok y)
  /\ capacity q <= capacity q'.
Proof.
  intros Hwf Hpush.
  destruct (push_record_cases q x mem q' Hwf Hpush)
    as (q1 & _ & -> & Hwf1 & Hc1 & He1 & Hext & Hgrow).
  pose proof Hwf as (Hlen & Hcount & _).
  pose proof Hwf1 as (Hlen1 & Hcount1 & _).
  assert (Hpend : pending (store_slot q1 (count q) x) = pending q ++ [x]).
  { unfold pending at 1. simpl. rewrite Hc1.
    apply pending_push_store; try lia. done. }
  assert (Hwf' : queue_wf (store_slot q1 (count q) x))
    by by apply queue_wf_store_slot.
  pose proof Hwf' as (Hlen' & Hcount' & _).
  split_and!; try done.
  - apply read_at_iff; [lia|lia|]. rewrite Hpend.
    rewrite lookup_app_r by (unfold pending; rewrite length_take; lia).
    unfold pending. rewrite length_take.
    by replace (Z.to_nat (count q) - Z.to_nat (count q) `min` length (base q))%nat
      with 0%nat by lia.
  - intros i y Hi Hy. apply read_at_iff in Hy; [|lia|done].
    apply read_at_iff; [lia|done|]. rewrite Hpend.
    by apply lookup_app_l_Some.
  - simpl. destruct Hgrow as [->|(Hfull & _)]; lia.
Qed.

End QueueMore.

Lemma indexed_access_is_bounded_by_count_witness :
  read_at (mkQueue [10; 20; 30; 40] 4 2 8) 1 = Ok 20
  /\ read_at (mkQueue [10; 20; 30; 40] 4 2 8) 2 = Crash AssertionFailed.
Proof.
  destruct (indexed_access_is_bounded_by_count (mkQueue [10; 20; 30; 40] 4 2 8) 1)
    as (Hread & _); [simpl; lia|lia|].
  destruct (indexed_access_is_bounded_by_count (mkQueue [10; 20; 30; 40] 4 2 8) 2)
    as (_ & _ & Hfail); [simpl; lia|lia|].
  split; [apply Hread; reflexivity|apply Hfail; simpl; lia].
Defined.

Lemma push_record_appends_witness :
  pending (mkQueue [10; 20; 99; 40] 4 3 8) = [10; 20] ++ [99]
  /\ read_at (mkQueue [10; 20; 99; 40] 4 3 8) 2 = Ok 99.
Proof.
  destruct (push_record_appends (mkQueue [10; 20; 30; 40] 4 2 8) 99 realloc_NULL
              (mkQueue [10; 20; 99; 40] 4 3 8))
    as (_ & _ & Hpend & Hread & _).
  - unfold queue_wf, SIZE_MAX. simpl. lia.
  - vm_compute. reflexivity.
  - split; [exact Hpend|exact Hread].
Defined.

Section QueueGrowth.

Context {A : Type}.
Implicit Types q : Memory_Profiler_Queue A.

Lemma push_with_room q mem :
  0 <= count q < capacity q -> capacity q <= SIZE_MAX ->
  Memory_Profiler_Queue_push q mem
  = Ok (Some (count q),
        {| base := base q; capacity := capacity q; count := count q + 1;
           element_size := element_size q |}).
Proof.
  intros Hc Hcap. unfold Memory_Profiler_Queue_push.
  rewrite wrap_id by lia.
  by replace (count q + 1 >? capacity q) with false
    by (symmetry; rewrite Z.gtb_ltb; apply Z.ltb_ge; lia).
Qed.

Lemma push_records_with_room records : forall q,
  queue_wf q -> count q + Z.of_nat (length records) <= capacity q ->
  exists q',
    push_records q (without_memory records) = Ok (Some q')
    /\ queue_wf q'
    /\ capacity q' = capacity q
    /\ length (base q') = length (base q)
    /\ count q' = count q + Z.of_nat (length records)
    /\ pending q' = pending q ++ records.
Proof.
  induction records as [|x records IH]; intros q Hwf Hroom; simpl in *.
  - exists q. rewrite app_nil_r. split_and!; try done. lia.
  - pose proof Hwf as (Hlen & Hcount & Hes & Hbytes & Hcap).
    unfold push_record. rewrite push_with_room by lia.
    unfold slot_store. cbn [base count capacity element_size].
    replace ((0 <=? count q) && (count q <? Z.of_nat (length (base q)))) with true
      by (symmetry; apply andb_true_iff; split; [apply Z.leb_le|apply Z.ltb_lt]; lia).
    set (q1 := {| base := <[Z.to_nat (count q) := x]> (base q);
                  capacity := capacity q; count := count q + 1;
                  element_size := element_size q |}).
    assert (Hwf1 : queue_wf q1).
    { unfold queue_wf, q1. simpl. rewrite length_insert. split_and!; try done; lia. }
    destruct (IH q1 Hwf1) as (q' & Hrun & Hwf' & Hcap' & Hlen' & Hcount' & Hpend').
    { unfold q1. simpl. lia. }
    exists q'. split_and!; try done.
    + rewrite Hlen'. unfold q1. simpl. by rewrite length_insert.
    + rewrite Hcount'. unfold q1. simpl. lia.
    + rewrite Hpend'. unfold q1, pending at 1. simpl.
      rewrite (pending_push_store q q x); try lia.
      * by rewrite <- app_assoc.
      * exists []. by rewrite app_nil_r.
Qed.

(** X3. After [clear] the queue is refilled without the allocator: on a
    well-formed queue, as many records as its capacity holds can be pushed
    after a [clear] even when every [realloc] would fail; the capacity and
    the storage size stay as they were and the queue then holds exactly the
    pushed records, in order. *)
Theorem refill_after_clear_needs_no_allocation q (records : list A) :
  queue_wf q -> Z.of_nat (length records) <= capacity q ->
  exists q',
    push_records (Memory_Profiler_Queue_clear q) (without_memory records)
    = Ok (Some q')
    /\ capacity q' = capacity q
    /\ length (base q') = length (base q)
    /\ count q' = Z.of_nat (length records)
    /\ pending q' = records.
Proof.
  intros Hwf Hroom.
  destruct (push_records_with_room records (Memory_Profiler_Queue_clear q))
    as (q' & Hrun & _ & Hcap & Hlen & Hcount & Hpend).
  - by apply queue_wf_clear.
  - simpl. lia.
  - exists q'. split_and!; try done.
Qed.

Lemma grown_capacity_one_more q :
  0 <= capacity q ->
  grown_capacity q (capacity q + 1)
  = if capacity q =? 0 then MEMORY_PROFILER_QUEUE_DEFAULT_COUNT
    else 2 * capacity q.
Proof.
  intros Hcap. unfold grown_capacity, SIZE_BITS, MEMORY_PROFILER_QUEUE_DEFAULT_COUNT.
  destruct (Z.eqb_spec (capacity q) 0) as [->|Hne]; [done|].
  cbn [doubling_target].
  replace (capacity q <? capacity q + 1) with true
    by (symmetry; apply Z.ltb_lt; lia).
  by replace (2 * capacity q <? capacity q + 1) with false
    by (symmetry; apply Z.ltb_ge; lia).
Qed.

(** X4. A push grows the storage by one doubling at most: on a well-formed
    queue a successful push leaves the capacity as it was when there was
    room, and otherwise (the queue was full) makes it 128 from 0 and twice
    the old capacity from anything else. *)
Theorem push_doubles_at_most_once q mem p q' :
  queue_wf q -> Memory_Profiler_Queue_push q mem = Ok (Some p, q') ->
  p = count q
  /\ (count q < capacity q -> capacity q' = capacity q)
  /\ (count q = capacity q ->
      capacity q' = if capacity q =? 0 then MEMORY_PROFILER_QUEUE_DEFAULT_COUNT
                    else 2 * capacity q).
Proof.
  intros Hwf Hpush. pose proof Hwf as (_ & Hcount & _).
  destruct (push_cases q mem Hwf) as [? ?|q1 Hwf1 Hc1 He1 Hext Hgrow]; [done|].
  inversion Hpush; subst; clear Hpush.
  split; [done|]. split.
  - intros Hroom. destruct Hgrow as [?|(? & _)]; [done|lia].
  - intros Hfull. destruct Hgrow as [Hsame|(_ & Hgrown & _)].
    + destruct Hwf1 as (_ & ? & _). lia.
    + rewrite Hgrown, Hfull. apply grown_capacity_one_more. lia.
Qed.

(** X6. [resize] never loses records: on a queue whose storage holds its
    capacity, whatever [resize] returns (0, 1 or -1), the count, the element
    size and every record below the count are as before, and the capacity
    did not go down; after a return of 1 the old storage is a prefix of the
    new one. *)
Theorem resize_preserves_records q required mem rc q' :
  length (base q) = Z.to_nat (capacity q) ->
  0 <= count q <= capacity q -> required <= SIZE_MAX ->
  Memory_Profiler_Queue_resize q required mem = Ok (rc, q') ->
  count q' = count q
  /\ element_size q' = element_size q
  /\ pending q' = pending q
  /\ capacity q <= capacity q'
  /\ (rc = 0 \/ rc = -1 \/ rc = 1)
  /\ (rc <> 1 -> q' = q)
  /\ (rc = 1 -> exists extra, base q' = base q ++ extra).
Proof.
  intros Hlen Hcount Hreq Hrun.
  pose proof (resize_cases q required mem ltac:(lia) Hreq) as Hr.
  rewrite Hrun in Hr.
  inversion Hr as [Hle|? Hov|? ? ? ?|fresh ? ? Hfit Hcover ?|]; subst;
    try (split_and!; try done; try lia; auto; fail).
  destruct (grown_base_prefix fresh (base q) (grown_capacity q required))
    as (extra & Hextra); [lia|].
  simpl. split_and!; try done; try lia; auto.
  - unfold pending. simpl. rewrite Hextra, take_app_le by lia. done.
  - eauto.
Qed.

(** X7. [free] leaves a queue that is empty and usable again: count and
    capacity are 0, every indexed access fails the assertion, and a push
    (with an allocator that succeeds) starts over from the default floor of
    128 with the pushed record alone in the queue. *)
Theorem free_then_push_starts_over q x fresh :
  0 < element_size q -> MEMORY_PROFILER_QUEUE_DEFAULT_COUNT * element_size q <= SIZE_MAX ->
  count (Memory_Profiler_Queue_free q) = 0
  /\ capacity (Memory_Profiler_Queue_free q) = 0
  /\ base (Memory_Profiler_Queue_free q) = []
  /\ (forall i, 0 <= i ->
                read_at (Memory_Profiler_Queue_free q) i = Crash AssertionFailed)
  /\ exists q',
       push_record (Memory_Profiler_Queue_free q) x (realloc_block fresh)
       = Ok (Some q')
       /\ capacity q' = MEMORY_PROFILER_QUEUE_DEFAULT_COUNT
       /\ count q' = 1
       /\ pending q' = [x].
Proof.
  intros Hes Hfit. split_and!; try done.
  - intros i Hi. rewrite read_at_lookup by done. simpl.
    by replace (i <? 0) with false by (symmetry; apply Z.ltb_ge; lia).
  - destruct (push_record_ok (Memory_Profiler_Queue_free q) x (realloc_block fresh))
      as (q' & Hrun & _ & Hcount & _ & Hpend & Hgrow).
    + unfold queue_wf, MEMORY_PROFILER_QUEUE_DEFAULT_COUNT, SIZE_MAX in *.
      simpl. split_and!; try done; lia.
    + done.
    + done.
    + exists q'. split_and!; try done.
      destruct Hgrow as [Hsame|(_ & ->)]; [|done].
      apply push_record_cases in Hrun as (q1 & _ & -> & (_ & Hc1 & _) & Hn & _).
      * simpl in *. lia.
      * unfold queue_wf, MEMORY_PROFILER_QUEUE_DEFAULT_COUNT, SIZE_MAX in *.
        simpl. split_and!; try done; lia.
Qed.

End QueueGrowth.

Lemma refill_after_clear_needs_no_allocation_witness :
  exists q',
    push_records (Memory_Profiler_Queue_clear (mkQueue [10; 20; 30; 40] 4 3 8))
      (without_memory [7; 8])
    = Ok (Some q')
    /\ capacity q' = 4 /\ pending q' = [7; 8].
Proof.
  destruct (refill_after_clear_needs_no_allocation
              (mkQueue [10; 20; 30; 40] 4 3 8) [7; 8])
    as (q' & Hrun & Hcap & _ & _ & Hpend).
  - unfold queue_wf, SIZE_MAX. simpl. lia.
  - simpl. lia.
  - exists q'. split; [exact Hrun|]. split; [exact Hcap|exact Hpend].
Defined.

Lemma push_doubles_at_most_once_witness :
  capacity (mkQueue [10; 20; 0; 0] 4 3 8) = 2 * 2.
Proof.
  destruct (push_doubles_at_most_once (mkQueue [10; 20] 2 2 8)
              (realloc_block (fun _ => 0)) 2 (mkQueue [10; 20; 0; 0] 4 3 8))
    as (_ & _ & Hfull).
  - unfold queue_wf, SIZE_MAX. simpl. lia.
  - vm_compute. reflexivity.
  - apply Hfull. reflexivity.
Defined.

Lemma resize_preserves_records_witness :
  pending (mkQueue [10; 20; 0; 0] 4 2 8) = pending (mkQueue [10; 20] 2 2 8).
Proof.
  destruct (resize_preserves_records (mkQueue [10; 20] 2 2 8) 3
              (realloc_block (fun _ => 0)) 1 (mkQueue [10; 20; 0; 0] 4 2 8))
    as (_ & _ & Hpend & _).
  - reflexivity.
  - simpl. lia.
  - unfold SIZE_MAX. lia.
  - vm_compute. reflexivity.
  - exact Hpend.
Defined.

Lemma free_then_push_starts_over_witness :
  exists q',
    push_record (Memory_Profiler_Queue_free (mkQueue [10; 20] 2 2 8)) 5
      (realloc_block (fun _ => 0))
    = Ok (Some q')
    /\ capacity q' = 128 /\ pending q' = [5].
Proof.
  destruct (free_then_push_starts_over (mkQueue [10; 20] 2 2 8) 5 (fun _ => 0))
    as (_ & _ & _ & _ & q' & Hrun & Hcap & _ & Hpend).
  - simpl. lia.
  - vm_compute. discriminate.
  - exists q'. split; [exact Hrun|]. split; [exact Hcap|exact Hpend].
Defined.

(** * Further properties of events.c *)

Lemma enqueue_outcome type capture klass object mem h :
  store_wf (instance h) ->
  Memory_Profiler_Events_enqueue type capture klass object mem h = Normal 0 h
  \/ exists queue,
       Memory_Profiler_Events_enqueue type capture klass object mem h
       = Normal 1
           {| instance := assign (instance h) (available (instance h)) queue;
              observed :=
                observed h
                ++ [obs_write_barrier (self (instance h)) capture;
                    obs_write_barrier (self (instance h)) klass;
                    obs_write_barrier (self (instance h)) object;
                    obs_postponed_job_trigger
                      (postponed_job_handle (instance h))] |}
       /\ queue_wf queue
       /\ count queue = count (available_queue h) + 1
       /\ capacity (available_queue h) <= capacity queue
       /\ element_size queue = element_size (available_queue h)
       /\ pending queue
          = pending (available_queue h) ++ [mkEvent type capture klass object].
Proof.
  intros Hwf. unfold Memory_Profiler_Events_enqueue.
  rewrite get_events_bind.
  pose proof (store_wf_deref _ (available (instance h)) Hwf) as Hq.
  destruct (push_cases _ mem Hq) as [Hfull Hwhy|q' Hwf' Hcount Hes Hext Hgrow].
  - left. rewrite lift_bind, modify_events_bind. simpl.
    by rewrite assign_deref, host_eta.
  - right. rewrite lift_bind, modify_events_bind. simpl.
    pose proof Hq as (Hlen & Hc & _). pose proof Hwf' as (Hlen' & Hc' & _).
    destruct (lookup_lt_is_Some_2 (base q')
                (Z.to_nat (count (deref (instance h) (available (instance h))))))
      as [e He]; [lia|].
    erewrite (write_members_bind _ (available (instance h), _) _ _ _ _ _ _ e);
      [|simpl; lia|simpl; by rewrite deref_assign_eq].
    unfold rb_postponed_job_trigger. rewrite observe_bind. simpl.
    unfold write_event. simpl. rewrite deref_assign_eq, assign_assign, <- app_assoc.
    simpl. eexists. split; [done|]. unfold available_queue.
    split_and!; simpl; try done.
    + by apply queue_wf_store_slot.
    + lia.
    + unfold pending at 1. simpl. rewrite Hcount.
      apply pending_push_store; [lia|lia|done|lia].
Qed.

(** X8. On a well-formed store [enqueue] returns 0 or 1 and never raises.
    When it returns 1, whatever the kind of the record and whether or not a
    drain is in progress: the record is the last of the available queue, the
    earlier ones are as before, the processing queue, the guard and the
    roles are untouched, and the host saw, in this order, a write barrier
    for the capture, the class and the object reference, each with the
    store's wrapper as parent, and then one postponed-job trigger with the
    registered handle. *)
Theorem enqueue_success_effects type capture klass object mem h :
  store_wf (instance h) ->
  exists flag h',
    Memory_Profiler_Events_enqueue type capture klass object mem h
    = Normal flag h'
    /\ (flag = 0 \/ flag = 1)
    /\ (flag = 0 -> h' = h)
    /\ (flag = 1 ->
        store_wf (instance h')
        /\ pending (available_queue h')
           = pending (available_queue h) ++ [mkEvent type capture klass object]
        /\ processing_queue h' = processing_queue h
        /\ processing_flag (instance h') = processing_flag (instance h)
        /\ available (instance h') = available (instance h)
        /\ processing (instance h') = processing (instance h)
        /\ observed h'
           = observed h
             ++ [obs_write_barrier (self (instance h)) capture;
                 obs_write_barrier (self (instance h)) klass;
                 obs_write_barrier (self (instance h)) object;
                 obs_postponed_job_trigger (postponed_job_handle (instance h))]).
Proof.
  intros Hwf.
  destruct (enqueue_outcome type capture klass object mem h Hwf)
    as [Hrun|(queue & Hrun & Hq & Hcount & Hcap & Hes & Hpend)].
  - exists 0, h. split; [done|]. split; [by left|]. split; [done|]. lia.
  - eexists 1, _. split; [done|]. split; [by right|]. split; [lia|]. intros _.
    pose proof Hwf as (_ & _ & Hne).
    destruct (assign_fields (instance h) (available (instance h)) queue)
      as (Hs & Hj & Hf & Ha & Hp).
    unfold available_queue, processing_queue. cbn [instance observed].
    rewrite Hf, Ha, Hp, deref_assign_eq, deref_assign_ne by done.
    split_and!; try done. by apply store_wf_assign.
Qed.

Lemma enqueue_success_effects_witness :
  exists flag h',
    Memory_Profiler_Events_enqueue MEMORY_PROFILER_EVENT_TYPE_NEWOBJ 1 11 21
      stale_block three_draining
    = Normal flag h'
    /\ (flag = 0 \/ flag = 1).
Proof.
  destruct (enqueue_success_effects MEMORY_PROFILER_EVENT_TYPE_NEWOBJ 1 11 21
              stale_block three_draining) as (flag & h' & Hrun & Hflag & _).
  - unfold store_wf, queue_wf.
    split_and!; vm_compute; try reflexivity; try discriminate.
  - exists flag, h'. split; [exact Hrun|exact Hflag].
Defined.

Section DrainMore.

Variable handler : list observation -> Memory_Profiler_Event -> script.

(** X9. A drain started between drains, whatever the handler does, swaps
    the roles of the two queues and releases nothing: afterwards the guard
    is down again, the queue that was available is the processing queue,
    with count 0 and the capacity and storage size it had, the queue that
    was the processing one is available, and the wrapper and the job handle
    are the same. *)
Theorem drain_swaps_roles_and_keeps_storage depth h :
  store_wf (instance h) -> processing_flag (instance h) = 0 ->
  exists h',
    Memory_Profiler_Events_process_queue handler (S depth) h = Normal tt h'
    /\ store_wf (instance h')
    /\ processing_flag (instance h') = 0
    /\ available (instance h') = processing (instance h)
    /\ processing (instance h') = available (instance h)
    /\ count (processing_queue h') = 0
    /\ capacity (processing_queue h') = capacity (available_queue h)
    /\ length (base (processing_queue h')) = length (base (available_queue h))
    /\ self (instance h') = self (instance h)
    /\ postponed_job_handle (instance h') = postponed_job_handle (instance h).
Proof.
  intros Hwf Hflag.
  destruct (process_queue_spec handler depth h Hwf Hflag)
    as (new & h2 & _ & _ & Hrun & Hdrained).
  destruct Hdrained as (Hwf' & Hs & Hj & Hf & Ha & Hp & Hpq & _).
  eexists. split; [done|]. rewrite Hpq. split_and!; try done.
  pose proof (store_wf_deref _ (available (instance h)) Hwf) as (Hlen & Hc & _).
  fold (available_queue h) in Hlen, Hc. simpl.
  rewrite length_app, length_replicate, length_drop. lia.
Qed.


Lemma process_event_at_outcome process_queue i h e :
  store_wf (instance h) -> processing_flag (instance h) <> 0 ->
  guarded process_queue ->
  0 <= i < count (processing_queue h) ->
  base (processing_queue h) !! Z.to_nat i = Some e ->
  (forall h1,
      run_script process_queue (handler (observed h) e)
        {| instance := instance h;
           observed := observed h ++ [obs_process_event e] |}
      = Normal tt h1 ->
      process_event_at handler process_queue i h
      = Normal tt
          {| instance := write_event (instance h1) (processing (instance h), i)
                           cleared;
             observed :=
               observed h1
               ++ [obs_write_barrier (self (instance h1)) Qnil;
                   obs_write_barrier (self (instance h1)) Qnil;
                   obs_write_barrier (self (instance h1)) Qnil] |})
  /\ (forall ex h1,
        run_script process_queue (handler (observed h) e)
          {| instance := instance h;
             observed := observed h ++ [obs_process_event e] |}
        = Raised ex h1 ->
        process_event_at handler process_queue i h
        = Normal tt
            {| instance := write_event (instance h1) (processing (instance h), i)
                             cleared;
               observed :=
                 observed h1
                 ++ [obs_warning;
                     obs_write_barrier (self (instance h1)) Qnil;
                     obs_write_barrier (self (instance h1)) Qnil;
                     obs_write_barrier (self (instance h1)) Qnil] |}).
Proof.
  intros Hwf Hflag Hguard Hi He.
  set (h0 := {| instance := instance h;
                observed := observed h ++ [obs_process_event e] |}).
  assert (Hstart : forall K : Z -> M unit,
             process_event_at handler process_queue i h
             = match run_script process_queue (handler (observed h) e) h0 with
               | Normal _ h1 =>
                   ((if negb (0 =? 0) then observe obs_warning else mret tt);;
                    events ← get_events;
                    event_store (processing (instance h), i)
                      (set_type MEMORY_PROFILER_EVENT_TYPE_NONE);;
                    RB_OBJ_WRITE (self events) (processing (instance h), i)
                      set_capture Qnil;;
                    RB_OBJ_WRITE (self events) (processing (instance h), i)
                      set_klass Qnil;;
                    RB_OBJ_WRITE (self events) (processing (instance h), i)
                      set_object Qnil) h1
               | Raised _ h1 =>
                   ((if negb (TAG_RAISE =? 0) then observe obs_warning else mret tt);;
                    events ← get_events;
                    event_store (processing (instance h), i)
                      (set_type MEMORY_PROFILER_EVENT_TYPE_NONE);;
                    RB_OBJ_WRITE (self events) (processing (instance h), i)
                      set_capture Qnil;;
                    RB_OBJ_WRITE (self events) (processing (instance h), i)
                      set_klass Qnil;;
                    RB_OBJ_WRITE (self events) (processing (instance h), i)
                      set_object Qnil) h1
               | Stuck f => Stuck f
               end).
  { intros _. unfold process_event_at.
    rewrite get_events_bind. unfold Memory_Profiler_Queue_at.
    fold (processing_queue h).
    replace (i <? count (processing_queue h)) with true
      by (symmetry; apply Z.ltb_lt; lia).
    rewrite lift_bind.
    unfold mbind at 1, M_bind at 1, rb_protect,
      Memory_Profiler_Events_process_event_protected.
    erewrite event_load_bind; [|cbn; lia|done].
    rewrite observe_bind. fold h0.
    by destruct (run_script process_queue (handler (observed h) e) h0). }
  rewrite (Hstart (fun _ => mret tt)).
  destruct (run_script_draining process_queue (handler (observed h) e) h0)
    as (new & h1' & Hext & Hrun'); [done..|].
  pose proof Hext as (_ & _ & _ & _ & _ & Hp & Hpq & _).
  unfold processing_queue in Hpq. rewrite Hp in Hpq. cbn [instance h0] in Hpq.
  split.
  - intros h1 Hrun. rewrite Hrun.
    destruct Hrun' as [Hrun'|[ex Hrun']]; rewrite Hrun' in Hrun; [|done].
    inversion Hrun; subst; clear Hrun.
    change (negb (0 =? 0)) with false. cbn iota.
    rewrite mret_bind, get_events_bind.
    erewrite reset_slot_run; [done|cbn; lia|cbn [fst snd]; by rewrite Hpq].
  - intros ex h1 Hrun. rewrite Hrun.
    destruct Hrun' as [Hrun'|[ex' Hrun']]; rewrite Hrun' in Hrun; [done|].
    inversion Hrun; subst; clear Hrun.
    change (negb (TAG_RAISE =? 0)) with true. cbn iota.
    rewrite observe_bind, get_events_bind.
    erewrite reset_slot_run; [|cbn; lia|cbn [fst snd instance]; by rewrite Hpq].
    cbn [instance observed]. by rewrite <- app_assoc.
Qed.

(** X11. One turn of the drain loop contains the handler's exception: if
    the handler returns, the slot is reset and nothing else is reported; if
    it raises, the turn still returns normally, the host gets one warning,
    and the slot is reset all the same.  In both cases the reset raises one
    write barrier for each of the three [Qnil] stores. *)
Theorem raising_handler_is_warned_and_slot_reset process_queue i h e :
  store_wf (instance h) -> processing_flag (instance h) <> 0 ->
  guarded process_queue ->
  0 <= i < count (processing_queue h) ->
  base (processing_queue h) !! Z.to_nat i = Some e ->
  (forall h1,
      run_script process_queue (handler (observed h) e)
        {| instance := instance h;
           observed := observed h ++ [obs_process_event e] |}
      = Normal tt h1 ->
      process_event_at handler process_queue i h
      = Normal tt
          {| instance := write_event (instance h1) (processing (instance h), i)
                           cleared;
             observed :=
               observed h1
               ++ [obs_write_barrier (self (instance h1)) Qnil;
                   obs_write_barrier (self (instance h1)) Qnil;
                   obs_write_barrier (self (instance h1)) Qnil] |})
  /\ (forall ex h1,
        run_script process_queue (handler (observed h) e)
          {| instance := instance h;
             observed := observed h ++ [obs_process_event e] |}
        = Raised ex h1 ->
        process_event_at handler process_queue i h
        = Normal tt
            {| instance := write_event (instance h1) (processing (instance h), i)
                             cleared;
               observed :=
                 observed h1
                 ++ [obs_warning;
                     obs_write_barrier (self (instance h1)) Qnil;
                     obs_write_barrier (self (instance h1)) Qnil;
                     obs_write_barrier (self (instance h1)) Qnil] |}).
Proof. apply process_event_at_outcome. Qed.

End DrainMore.

Lemma drain_swaps_roles_and_keeps_storage_witness :
  exists h',
    Memory_Profiler_Events_process_queue faulty_handler 1 three_pending
    = Normal tt h'
    /\ available (instance h') = processing (instance three_pending)
    /\ capacity (processing_queue h') = capacity (available_queue three_pending).
Proof.
  destruct (drain_swaps_roles_and_keeps_storage faulty_handler 0 three_pending)
    as (h' & Hrun & _ & _ & Ha & _ & _ & Hcap & _).
  - unfold store_wf, queue_wf.
    split_and!; vm_compute; try reflexivity; try discriminate.
  - reflexivity.
  - exists h'. split; [exact Hrun|]. split; [exact Ha|exact Hcap].
Defined.


Lemma raising_handler_is_warned_and_slot_reset_witness :
  let h1 :=
    {| instance := instance three_draining;
       observed :=
         observed three_draining
         ++ [obs_process_event
               (mkEvent MEMORY_PROFILER_EVENT_TYPE_NEWOBJ 2 12 22)] |} in
  process_event_at faulty_handler
    (Memory_Profiler_Events_process_queue faulty_handler 0) 1 three_draining
  = Normal tt
      {| instance := write_event (instance h1)
                       (processing (instance three_draining), 1) cleared;
         observed :=
           observed h1
           ++ [obs_warning;
               obs_write_barrier (self (instance h1)) Qnil;
               obs_write_barrier (self (instance h1)) Qnil;
               obs_write_barrier (self (instance h1)) Qnil] |}.
Proof.
  intros h1.
  destruct (raising_handler_is_warned_and_slot_reset faulty_handler
              (Memory_Profiler_Events_process_queue faulty_handler 0) 1
              three_draining (mkEvent MEMORY_PROFILER_EVENT_TYPE_NEWOBJ 2 12 22))
    as (_ & Hraised).
  - unfold store_wf, queue_wf.
    split_and!; vm_compute; try reflexivity; try discriminate.
  - vm_compute. discriminate.
  - apply process_queue_guarded.
  - vm_compute. split; [discriminate|reflexivity].
  - vm_compute. reflexivity.
  - apply (Hraised handler_error h1). vm_compute. reflexivity.
Defined.

(** ** The collector's callbacks, composed *)

Lemma fmap_bind_marked {A} (location : VALUE -> VALUE) (f : A -> list VALUE) l :
  location <$> (l ≫= f) = l ≫= (fun x => location <$> f x).
Proof.
  induction l as [|x l IH]; [done|].
  by rewrite !bind_cons, fmap_app, IH.
Qed.

Lemma marked_of_relocated location skip_none e :
  marked_of skip_none (relocated location skip_none e)
  = location <$> marked_of skip_none e.
Proof.
  unfold marked_of, relocated.
  by destruct (negb (skip_none =? 0)), e as [[| |] c k o].
Qed.

Lemma marked_after_relocation location skip_none l :
  (relocated location skip_none <$> l) ≫= marked_of skip_none
  = location <$> (l ≫= marked_of skip_none).
Proof.
  rewrite list_fmap_bind, fmap_bind_marked.
  apply list_bind_ext; [|done]. intros e. apply marked_of_relocated.
Qed.

Lemma compact_spec location events :
  store_wf events ->
  Memory_Profiler_Events_compact location events
  = Ok (assign
          (assign events (available events)
             (relocate_from location 0 0 (deref events (available events))))
          (processing events)
          (relocate_from location 1 0 (deref events (processing events)))).
Proof.
  intros Hwf. unfold Memory_Profiler_Events_compact.
  pose proof Hwf as (_ & _ & Hne).
  rewrite compact_queue_spec by by apply store_wf_deref.
  destruct (assign_fields events (available events)
              (relocate_from location 0 0 (deref events (available events))))
    as (_ & _ & _ & Ha & Hp).
  rewrite Hp, deref_assign_ne by done.
  by rewrite compact_queue_spec by by apply store_wf_deref.
Qed.

(** X12. Marking after relocating visits the relocated references: on a
    well-formed store the relocation walk succeeds and leaves a well-formed
    store, and the mark walk over it hands the collector, in the same order,
    the new location of each reference the mark walk over the old store
    handed it. *)
Theorem mark_after_compact_marks_new_locations location events :
  store_wf events ->
  exists events' marked,
    Memory_Profiler_Events_compact location events = Ok events'
    /\ store_wf events'
    /\ Memory_Profiler_Events_mark events = Ok marked
    /\ Memory_Profiler_Events_mark events' = Ok (location <$> marked).
Proof.
  intros Hwf. pose proof Hwf as (_ & _ & Hne).
  rewrite compact_spec by done. eexists _, _. split; [done|].
  set (qa := relocate_from location 0 0 (deref events (available events))).
  set (qp := relocate_from location 1 0 (deref events (processing events))).
  assert (Hwf' : store_wf (assign (assign events (available events) qa)
                             (processing events) qp)).
  { apply store_wf_assign; [apply store_wf_assign; [done|]|];
      by apply queue_wf_relocate_from, store_wf_deref. }
  split; [done|]. split; [by apply mark_spec|].
  rewrite mark_spec by done.
  destruct (assign_fields (assign events (available events) qa) (processing events) qp)
    as (_ & _ & _ & Ha & Hp).
  destruct (assign_fields events (available events) qa) as (_ & _ & _ & Ha' & Hp').
  rewrite Ha, Hp, Ha', Hp'.
  rewrite deref_assign_eq, deref_assign_ne, deref_assign_eq by done.
  pose proof (store_wf_deref _ (available events) Hwf) as (Hla & Hca & _).
  pose proof (store_wf_deref _ (processing events) Hwf) as (Hlp & Hcp & _).
  unfold qa, qp. rewrite !pending_relocate_from by lia.
  by rewrite !marked_after_relocation, fmap_app.
Qed.

Lemma relocate_from_id skip_none q :
  (Z.to_nat (count q) <= length (base q))%nat ->
  relocate_from (fun v => v) skip_none 0 q = q.
Proof.
  intros Hlen. unfold relocate_from.
  change (Z.to_nat 0) with 0%nat. rewrite take_0, drop_0. simpl.
  assert (Hid : relocated (fun v => v) skip_none <$> pending q = pending q).
  { rewrite <- (list_fmap_id (pending q)) at 2. apply list_fmap_ext.
    intros _ e _. unfold relocated.
    by destruct (negb (skip_none =? 0)), e as [[| |] c k o]. }
  rewrite Hid. unfold pending. rewrite take_drop. by destruct q.
Qed.

(** X13. A compaction in which nothing moved changes nothing: with the
    identity for [rb_gc_location] the relocation walk returns the store it
    was given. *)
Theorem compact_without_moves_is_identity events :
  store_wf events ->
  Memory_Profiler_Events_compact (fun v => v) events = Ok events.
Proof.
  intros Hwf. rewrite compact_spec by done.
  pose proof (store_wf_deref _ (available events) Hwf) as (Hla & Hca & _).
  pose proof (store_wf_deref _ (processing events) Hwf) as (Hlp & Hcp & _).
  by rewrite !relocate_from_id, !assign_deref by lia.
Qed.

(** X14. [Memory_Profiler_Events_free] gives up both storages whatever they
    hold: afterwards both queues have count and capacity 0, the mark walk
    visits nothing, [memsize] is the size of the struct alone, and the store
    is still well formed with its roles, guard, wrapper and handle as they
    were; records that were pending are gone without having been handed to
    the handler. *)
Theorem free_releases_both_queues events :
  store_wf events ->
  store_wf (Memory_Profiler_Events_free events)
  /\ (forall q, count (deref (Memory_Profiler_Events_free events) q) = 0
                /\ capacity (deref (Memory_Profiler_Events_free events) q) = 0
                /\ pending (deref (Memory_Profiler_Events_free events) q) = [])
  /\ Memory_Profiler_Events_mark (Memory_Profiler_Events_free events) = Ok []
  /\ Memory_Profiler_Events_memsize (Memory_Profiler_Events_free events)
     = sizeof_Memory_Profiler_Events
  /\ available (Memory_Profiler_Events_free events) = available events
  /\ processing (Memory_Profiler_Events_free events) = processing events
  /\ processing_flag (Memory_Profiler_Events_free events) = processing_flag events
  /\ self (Memory_Profiler_Events_free events) = self events
  /\ postponed_job_handle (Memory_Profiler_Events_free events)
     = postponed_job_handle events.
Proof.
  intros (H0 & H1 & Hne).
  assert (Hwf : store_wf (Memory_Profiler_Events_free events)).
  { destruct H0 as (_ & _ & He0 & _), H1 as (_ & _ & He1 & _).
    unfold store_wf, queue_wf, SIZE_MAX. simpl. split_and!; try done; lia. }
  split; [done|]. split; [intros []; split_and!; reflexivity|].
  split; [|done].
  rewrite mark_spec by done.
  by destruct events as [s q0 q1 [|] [|] f j].
Qed.

Lemma memsize_closed_form events :
  store_wf events ->
  sizeof_Memory_Profiler_Events
  + capacity (queues_at_0 events) * element_size (queues_at_0 events)
  + capacity (queues_at_1 events) * element_size (queues_at_1 events)
  <= SIZE_MAX ->
  Memory_Profiler_Events_memsize events
  = sizeof_Memory_Profiler_Events
    + capacity (queues_at_0 events) * element_size (queues_at_0 events)
    + capacity (queues_at_1 events) * element_size (queues_at_1 events).
Proof.
  intros (H0 & H1 & Hne) Hfit. unfold Memory_Profiler_Events_memsize.
  destruct H0 as (_ & Hc0 & He0 & Hb0 & _), H1 as (_ & Hc1 & He1 & Hb1 & _).
  unfold sizeof_Memory_Profiler_Events in *.
  rewrite (wrap_id (capacity (queues_at_0 events) * _)) by nia.
  rewrite (wrap_id (capacity (queues_at_1 events) * _)) by nia.
  rewrite (wrap_id (96 + _)) by nia.
  apply wrap_id. nia.
Qed.

(** X15. [memsize] reports the storage reserved, not the records held: it
    is the size of the struct plus the byte sizes of the two storages
    whenever that sum fits [size_t], and neither the swap at the start of a
    drain nor the clear at its end changes it. *)
Theorem memsize_counts_reserved_storage events :
  store_wf events ->
  (sizeof_Memory_Profiler_Events
   + capacity (queues_at_0 events) * element_size (queues_at_0 events)
   + capacity (queues_at_1 events) * element_size (queues_at_1 events)
   <= SIZE_MAX ->
   Memory_Profiler_Events_memsize events
   = sizeof_Memory_Profiler_Events
     + capacity (queues_at_0 events) * element_size (queues_at_0 events)
     + capacity (queues_at_1 events) * element_size (queues_at_1 events))
  /\ Memory_Profiler_Events_memsize (drain_begin events)
     = Memory_Profiler_Events_memsize events
  /\ Memory_Profiler_Events_memsize (drain_end events)
     = Memory_Profiler_Events_memsize events.
Proof.
  intros Hwf. split_and!.
  - by apply memsize_closed_form.
  - done.
  - unfold drain_end. by destruct (processing events).
Qed.

(** X16. The store is created once: while the statics are unset a call with
    an invalid job handle raises and leaves them unset, so the next call
    tries again; a call that succeeds pins the new store, which is idle and
    holds nothing, and every later call returns that same store, without
    registering or pinning anything, whatever the host would have
    answered. *)
Theorem instance_is_created_once wrapper handle :
  (handle = POSTPONED_JOB_HANDLE_INVALID ->
   Memory_Profiler_Events_instance wrapper handle None
   = inl (rb_eRuntimeError "Failed to register postponed job!"))
  /\ (handle <> POSTPONED_JOB_HANDLE_INVALID ->
      exists events,
        Memory_Profiler_Events_instance wrapper handle None
        = inr (events, Some events, true)
        /\ idle {| instance := events; observed := [] |}
        /\ Memory_Profiler_Events_mark events = Ok []
        /\ self events = wrapper
        /\ handle = postponed_job_handle events
        /\ forall wrapper' handle',
             Memory_Profiler_Events_instance wrapper' handle' (Some events)
             = inr (events, Some events, false)).
Proof.
  unfold Memory_Profiler_Events_instance, Memory_Profiler_Events_new. split.
  - intros ->. done.
  - intros Hne.
    destruct (Z.eqb_spec handle POSTPONED_JOB_HANDLE_INVALID) as [?|_]; [done|].
    eexists. split; [done|]. by split_and!.
Qed.

Lemma mark_after_compact_marks_new_locations_witness :
  exists events' marked,
    Memory_Profiler_Events_compact (Z.add 1000) (instance three_pending)
    = Ok events'
    /\ Memory_Profiler_Events_mark (instance three_pending) = Ok marked
    /\ Memory_Profiler_Events_mark events' = Ok (Z.add 1000 <$> marked).
Proof.
  destruct (mark_after_compact_marks_new_locations (Z.add 1000)
              (instance three_pending))
    as (events' & marked & Hc & _ & Hm & Hm').
  - unfold store_wf, queue_wf.
    split_and!; vm_compute; try reflexivity; try discriminate.
  - exists events', marked. split; [exact Hc|]. split; [exact Hm|exact Hm'].
Defined.

Lemma compact_without_moves_is_identity_witness :
  Memory_Profiler_Events_compact (fun v => v) (instance three_pending)
  = Ok (instance three_pending).
Proof.
  apply (compact_without_moves_is_identity (instance three_pending)).
  unfold store_wf, queue_wf.
  split_and!; vm_compute; try reflexivity; try discriminate.
Defined.

Lemma free_releases_both_queues_witness :
  Memory_Profiler_Events_mark
    (Memory_Profiler_Events_free (instance three_pending)) = Ok []
  /\ Memory_Profiler_Events_memsize
       (Memory_Profiler_Events_free (instance three_pending)) = 96.
Proof.
  destruct (free_releases_both_queues (instance three_pending))
    as (_ & _ & Hmark & Hsize & _).
  - unfold store_wf, queue_wf.
    split_and!; vm_compute; try reflexivity; try discriminate.
  - split; [exact Hmark|exact Hsize].
Defined.

Lemma memsize_counts_reserved_storage_witness :
  Memory_Profiler_Events_memsize (instance three_pending) = 96 + 128 * 40 + 0 * 40.
Proof.
  destruct (memsize_counts_reserved_storage (instance three_pending))
    as (Hsize & _).
  - unfold store_wf, queue_wf.
    split_and!; vm_compute; try reflexivity; try discriminate.
  - apply Hsize. vm_compute. discriminate.
Defined.

Lemma instance_is_created_once_witness :
  exists events,
    Memory_Profiler_Events_instance 100 7 None = inr (events, Some events, true)
    /\ Memory_Profiler_Events_instance 200 POSTPONED_JOB_HANDLE_INVALID (Some events)
       = inr (events, Some events, false).
Proof.
  destruct (instance_is_created_once 100 7) as (_ & Hok).
  destruct Hok as (events & Hnew & _ & _ & _ & _ & Hagain).
  - vm_compute. discriminate.
  - exists events. split; [exact Hnew|apply Hagain].
Defined.

(** * Every run is a sequence of steps of the store *)

Lemma store_steps_one h h' : store_step h h' -> store_steps h h'.
Proof. intros H. eapply steps_more; [done|constructor]. Qed.

Lemma store_steps_trans h h' h'' :
  store_steps h h' -> store_steps h' h'' -> store_steps h h''.
Proof.
  induction 1 as [|h1 h2 h3 Hstep _ IH]; [done|].
  intros H. eapply steps_more; [done|by apply IH].
Qed.

Lemma run_call_enqueue_steps process_queue type capture klass object mem h :
  store_wf (instance h) ->
  exists flag h',
    run_call process_queue (call_enqueue type capture klass object mem) h
    = Normal (returned_int flag) h'
    /\ store_step h h'.
Proof.
  intros Hwf. unfold run_call. unfold mbind at 1, M_bind at 1.
  destruct (enqueue_outcome type capture klass object mem h Hwf)
    as [->|(queue & -> & Hq & Hcount & Hcap & Hes & Hpend)];
    rewrite observe_bind.
  - eexists 0, _. split; [done|]. apply step_enqueue_dropped.
  - eexists 1, _. split; [done|]. cbn [instance observed].
    rewrite <- app_assoc. by apply step_enqueue_stored.
Qed.

Lemma run_call_draining_steps process_queue c h :
  store_wf (instance h) -> processing_flag (instance h) <> 0 ->
  guarded process_queue ->
  exists h',
    store_steps h h'
    /\ store_wf (instance h')
    /\ processing_flag (instance h') = processing_flag (instance h)
    /\ ((exists r, run_call process_queue c h = Normal r h')
        \/ (exists e, run_call process_queue c h = Raised e h')).
Proof.
  intros Hwf Hflag Hguard.
  destruct (run_call_draining process_queue c h Hwf Hflag Hguard)
    as (new & h' & Hext & Hrun).
  pose proof Hext as (Hwf' & _ & _ & Hf' & _).
  exists h'. split; [|done].
  destruct c as [type capture klass object mem| |].
  - destruct (run_call_enqueue_steps process_queue type capture klass object mem h Hwf)
      as (flag & h1 & Hrun1 & Hstep).
    destruct Hrun as [[r Hrun]|[e Hrun]]; rewrite Hrun in Hrun1; [|done].
    inversion Hrun1; subst. by apply store_steps_one.
  - assert (Hsame : run_call process_queue call_postponed_job h
                    = Normal returned_void h)
      by (unfold run_call, mbind, M_bind; by rewrite Hguard).
    destruct Hrun as [[r Hrun]|[e Hrun]]; rewrite Hrun in Hsame; [|done].
    inversion Hsame; subst. constructor.
  - assert (Hsame : run_call process_queue call_process_all h
                    = Raised (rb_eRuntimeError "Recursive call detected!") h).
    { unfold run_call, process_all_with.
      unfold mbind at 1, M_bind at 1. rewrite get_events_bind.
      by destruct (Z.eqb_spec (processing_flag (instance h)) 0). }
    destruct Hrun as [[r Hrun]|[e Hrun]]; rewrite Hrun in Hsame; [done|].
    inversion Hsame; subst. constructor.
Qed.

Lemma run_script_draining_steps process_queue s : forall h,
  store_wf (instance h) -> processing_flag (instance h) <> 0 ->
  guarded process_queue ->
  exists h',
    store_steps h h'
    /\ (run_script process_queue s h = Normal tt h'
        \/ exists e, run_script process_queue s h = Raised e h').
Proof.
  induction s as [|e|c k IH]; intros h Hwf Hflag Hguard; cbn [run_script].
  - exists h. split; [constructor|by left].
  - exists h. split; [constructor|right; eauto].
  - destruct (run_call_draining_steps process_queue c h Hwf Hflag Hguard)
      as (h1 & Hsteps & Hwf1 & Hf1 & [[r ->]|[e ->]]).
    + destruct (IH r h1) as (h' & Hsteps' & Hrun); [done|by rewrite Hf1|done|].
      exists h'. split; [by eapply store_steps_trans|done].
    + destruct (IH (raised e) h1) as (h' & Hsteps' & Hrun);
        [done|by rewrite Hf1|done|].
      exists h'. split; [by eapply store_steps_trans|done].
Qed.

Section Steps.

Variable handler : list observation -> Memory_Profiler_Event -> script.

Lemma process_event_at_steps process_queue i h e :
  store_wf (instance h) -> processing_flag (instance h) <> 0 ->
  guarded process_queue ->
  0 <= i < count (processing_queue h) ->
  base (processing_queue h) !! Z.to_nat i = Some e ->
  exists h',
    process_event_at handler process_queue i h = Normal tt h'
    /\ store_steps h h'.
Proof.
  intros Hwf Hflag Hguard Hi He.
  set (h0 := {| instance := instance h;
                observed := observed h ++ [obs_process_event e] |}).
  assert (Hstep0 : store_step h h0) by by apply (step_dispatch i).
  destruct (process_event_at_outcome handler process_queue i h e)
    as (Hreturned & Hraised); [done..|].
  destruct (run_script_draining process_queue (handler (observed h) e) h0)
    as (new & h1 & Hext & Hrun); [done..|].
  destruct (run_script_draining_steps process_queue (handler (observed h) e) h0)
    as (h1' & Hsteps & Hrun'); [done..|].
  pose proof Hext as (Hwf1 & Hs1 & _ & Hf1 & _ & Hp1 & Hpq1 & _).
  cbn [instance h0] in Hs1, Hf1, Hp1.
  assert (Hcount1 : 0 <= i < count (processing_queue h1)) by by rewrite Hpq1.
  destruct Hrun as [Hrun|[ex Hrun]].
  - destruct Hrun' as [Hrun'|[ex' Hrun']]; rewrite Hrun in Hrun'; [|done].
    inversion Hrun'; subst h1'.
    eexists. split; [by apply Hreturned|].
    eapply steps_more; [done|]. eapply store_steps_trans; [done|].
    apply store_steps_one. rewrite <- Hp1. apply step_reset; [done| |done].
    by rewrite Hf1.
  - destruct Hrun' as [Hrun'|[ex' Hrun']]; rewrite Hrun in Hrun'; [done|].
    inversion Hrun'; subst h1' ex'.
    eexists. split; [by eapply Hraised|].
    eapply steps_more; [done|]. eapply store_steps_trans; [done|].
    eapply steps_more; [apply step_warning; by rewrite Hf1|].
    apply store_steps_one.
    pose proof (step_reset i {| instance := instance h1;
                                observed := observed h1 ++ [obs_warning] |})
      as Hreset.
    cbn [instance observed] in Hreset. rewrite <- app_assoc in Hreset.
    rewrite <- Hp1. apply Hreset; [done|by rewrite Hf1|done].
Qed.

Lemma process_events_from_steps process_queue fuel : forall i h,
  store_wf (instance h) -> processing_flag (instance h) <> 0 ->
  guarded process_queue ->
  0 <= i <= count (processing_queue h) ->
  (Z.to_nat (count (processing_queue h) - i) <= fuel)%nat ->
  exists h',
    process_events_from handler process_queue fuel i h = Normal tt h'
    /\ store_steps h h'.
Proof.
  induction fuel as [|fuel IH]; intros i h Hwf Hflag Hguard Hi Hfuel;
    pose proof (store_wf_deref _ (processing (instance h)) Hwf)
      as (Hlen & Hc & _ & _ & Hcap);
    fold (processing_queue h) in Hlen, Hc, Hcap;
    cbn [process_events_from]; fold (processing_queue h);
    destruct (Z.ltb_spec i (count (processing_queue h))) as [Hlt|Hge];
    try lia; try (exists h; split; [done|constructor]).
  destruct (lookup_lt_is_Some_2 (base (processing_queue h)) (Z.to_nat i))
    as [e He]; [lia|].
  destruct (process_event_at_steps process_queue i h e)
    as (h1 & Hrun1 & Hsteps1); [done|done|done|lia|done|].
  destruct (process_event_at_spec handler process_queue i h e)
    as (new & h1' & Hrun1' & Hslot); [done|done|done|lia|done|].
  rewrite Hrun1 in Hrun1'. inversion Hrun1'; subst h1'.
  destruct Hslot as (Hwf1 & _ & _ & Hf1 & _ & _ & Hpq1 & _).
  unfold mbind, M_bind. rewrite Hrun1, wrap_id by lia.
  destruct (IH (i + 1) h1) as (h' & Hrun & Hsteps);
    [done|by rewrite Hf1|done|rewrite Hpq1; simpl; lia|rewrite Hpq1; simpl; lia|].
  exists h'. split; [done|by eapply store_steps_trans].
Qed.

Lemma process_queue_steps depth h :
  store_wf (instance h) -> processing_flag (instance h) = 0 ->
  exists h',
    Memory_Profiler_Events_process_queue handler (S depth) h = Normal tt h'
    /\ store_steps h h'.
Proof.
  intros Hwf Hflag.
  destruct (process_queue_spec handler depth h Hwf Hflag)
    as (new & h2 & Hloop & Hdrain & Hrun & _).
  eexists. split; [done|].
  set (h1 := {| instance := drain_begin (instance h); observed := observed h |}).
  destruct (drain_begin_fields (instance h)) as (_ & _ & Hf1 & _ & Hp1 & Hq1).
  assert (Hpq1 : processing_queue h1 = available_queue h).
  { unfold processing_queue, available_queue, h1. cbn [instance]. by rewrite Hq1, Hp1. }
  pose proof (store_wf_deref _ (available (instance h)) Hwf) as (_ & Hc & _).
  fold (available_queue h) in Hc.
  destruct (process_events_from_steps
              (Memory_Profiler_Events_process_queue handler depth)
              (Z.to_nat (count (available_queue h))) 0 h1)
    as (h2' & Hloop' & Hsteps).
  { by apply store_wf_drain_begin. }
  { cbn [instance h1]. rewrite Hf1. lia. }
  { apply process_queue_guarded. }
  { rewrite Hpq1. lia. }
  { rewrite Hpq1. lia. }
  fold h1 in Hloop. rewrite Hloop in Hloop'. inversion Hloop'; subst h2'.
  eapply steps_more; [by apply step_begin|].
  eapply store_steps_trans; [done|].
  apply store_steps_one, step_end.
  destruct Hdrain as (_ & _ & _ & Hf2 & _). rewrite Hf2. cbn [instance h1].
  rewrite Hf1. lia.
Qed.

Lemma run_call_idle_steps depth c h :
  idle h ->
  exists r h',
    run_call (Memory_Profiler_Events_process_queue handler (S depth)) c h
    = Normal r h'
    /\ idle h' /\ store_steps h h'.
Proof.
  intros Hidle. pose proof Hidle as (Hwf & Hflag & _).
  destruct (run_call_idle handler depth c h Hidle) as (r & h' & Hrun & Hidle').
  exists r, h'. split; [done|]. split; [done|].
  destruct c as [type capture klass object mem| |].
  - destruct (run_call_enqueue_steps
                (Memory_Profiler_Events_process_queue handler (S depth))
                type capture klass object mem h Hwf)
      as (flag & h1 & Hrun1 & Hstep).
    rewrite Hrun in Hrun1. inversion Hrun1; subst. by apply store_steps_one.
  - destruct (process_queue_steps depth h Hwf Hflag) as (h1 & Hrun1 & Hsteps).
    unfold run_call, mbind, M_bind in Hrun. rewrite Hrun1 in Hrun.
    by inversion Hrun; subst.
  - destruct (process_queue_steps depth h Hwf Hflag) as (h1 & Hrun1 & Hsteps).
    unfold run_call, process_all_with in Hrun.
    unfold mbind at 1, M_bind at 1 in Hrun.
    rewrite get_events_bind, Hflag in Hrun. cbn [Z.eqb negb] in Hrun.
    rewrite Hrun1 in Hrun. by inversion Hrun; subst.
Qed.

Lemma run_steps depth main : forall h,
  idle h ->
  exists h',
    (run handler (S depth) main h = Normal tt h'
     \/ exists e, run handler (S depth) main h = Raised e h')
    /\ idle h' /\ store_steps h h'.
Proof.
  unfold run.
  induction main as [|e|c k IH]; intros h Hidle; cbn [run_script].
  - exists h. split; [by left|]. split; [done|constructor].
  - exists h. split; [right; eauto|]. split; [done|constructor].
  - destruct (run_call_idle_steps depth c h Hidle)
      as (r & h1 & -> & Hidle1 & Hsteps1).
    destruct (IH r h1 Hidle1) as (h' & Hrun & Hidle' & Hsteps).
    exists h'. split; [done|]. split; [done|by eapply store_steps_trans].
Qed.

End Steps.

(** * What holds along every run *)

Lemma triggered_app obs obs' : triggered (obs ++ obs') = triggered obs ++ triggered obs'.
Proof. apply omap_app. Qed.

Lemma barriers_app obs obs' : barriers (obs ++ obs') = barriers obs ++ barriers obs'.
Proof. apply omap_app. Qed.

Lemma write_event_fields events event e :
  self (write_event events event e) = self events
  /\ postponed_job_handle (write_event events event e) = postponed_job_handle events
  /\ processing_flag (write_event events event e) = processing_flag events
  /\ available (write_event events event e) = available events
  /\ processing (write_event events event e) = processing events
  /\ (forall q, capacity (deref (write_event events event e) q)
                = capacity (deref events q)
                /\ element_size (deref (write_event events event e) q)
                   = element_size (deref events q)).
Proof.
  unfold write_event. destruct event as [[|] p]; split_and!; try done;
    by intros [|].
Qed.

(** One step keeps the wrapper and the handle, asks for a drain exactly when
    an enqueue succeeded, names the wrapper in every barrier it raises, and
    lowers no capacity. *)
Lemma store_step_accounts h h' :
  store_step h h' ->
  self (instance h') = self (instance h)
  /\ postponed_job_handle (instance h') = postponed_job_handle (instance h)
  /\ (exists n,
        triggered (observed h')
        = triggered (observed h)
          ++ replicate n (postponed_job_handle (instance h))
        /\ length (enqueued (observed h'))
           = (length (enqueued (observed h)) + n)%nat)
  /\ (exists added,
        barriers (observed h') = barriers (observed h) ++ added
        /\ Forall (fun b => b.1 = self (instance h)) added)
  /\ (forall q,
        capacity (deref (instance h) q) <= capacity (deref (instance h') q)
        /\ element_size (deref (instance h') q)
           = element_size (deref (instance h) q)).
Proof.
  intros Hstep.
  destruct Hstep as [type capture klass object queue h Hwf Hq Hcount Hcap Hes Hpend
                    |e h|h Hflag|i e h Hflag Hi He|h Hflag|i h Hwf Hflag Hi|h Hflag];
    cbn [instance observed];
    rewrite ?triggered_app, ?barriers_app, ?enqueued_app, ?length_app.
  - destruct (assign_fields (instance h) (available (instance h)) queue)
      as (Hs & Hj & _).
    split; [done|]. split; [done|]. split; [by exists 1%nat|].
    split; [eexists; split; [done|]; by repeat constructor|].
    intros q. destruct (decide (q = available (instance h))) as [->|Hne].
    + rewrite deref_assign_eq. by split.
    + rewrite deref_assign_ne by done. split; [lia|done].
  - split; [done|]. split; [done|].
    split; [exists 0%nat; simpl; by rewrite app_nil_r, Nat.add_0_r|].
    split; [exists []; simpl; by rewrite app_nil_r|]. intros q. split; [lia|done].
  - destruct (drain_begin_fields (instance h)) as (Hs & Hj & _ & _ & _ & Hq).
    split; [done|]. split; [done|].
    split; [exists 0%nat; simpl; by rewrite app_nil_r, Nat.add_0_r|].
    split; [exists []; simpl; by rewrite app_nil_r|].
    intros q. rewrite Hq. split; [lia|done].
  - split; [done|]. split; [done|].
    split; [exists 0%nat; simpl; by rewrite app_nil_r, Nat.add_0_r|].
    split; [exists []; simpl; by rewrite app_nil_r|]. intros q. split; [lia|done].
  - split; [done|]. split; [done|].
    split; [exists 0%nat; simpl; by rewrite app_nil_r, Nat.add_0_r|].
    split; [exists []; simpl; by rewrite app_nil_r|]. intros q. split; [lia|done].
  - destruct (write_event_fields (instance h) (processing (instance h), i) cleared)
      as (Hs & Hj & _ & _ & _ & Hq).
    split; [done|]. split; [done|].
    split; [exists 0%nat; simpl; by rewrite app_nil_r, Nat.add_0_r|].
    split; [eexists; split; [done|]; by repeat constructor|].
    intros q. destruct (Hq q) as [-> ->]. split; [lia|done].
  - destruct (drain_end_fields (instance h)) as (Hs & Hj & _ & _ & _ & Hp & Hq).
    split; [done|]. split; [done|].
    split; [exists 0%nat; simpl; by rewrite app_nil_r, Nat.add_0_r|].
    split; [exists []; simpl; by rewrite app_nil_r|].
    intros q. destruct (decide (q = processing (instance h))) as [->|Hne].
    + rewrite Hp. simpl. split; [lia|done].
    + rewrite Hq by done. split; [lia|done].
Qed.

Lemma store_steps_accounts h h' :
  store_steps h h' ->
  self (instance h') = self (instance h)
  /\ postponed_job_handle (instance h') = postponed_job_handle (instance h)
  /\ (exists n,
        triggered (observed h')
        = triggered (observed h)
          ++ replicate n (postponed_job_handle (instance h))
        /\ length (enqueued (observed h'))
           = (length (enqueued (observed h)) + n)%nat)
  /\ (exists added,
        barriers (observed h') = barriers (observed h) ++ added
        /\ Forall (fun b => b.1 = self (instance h)) added)
  /\ (forall q,
        capacity (deref (instance h) q) <= capacity (deref (instance h') q)
        /\ element_size (deref (instance h') q)
           = element_size (deref (instance h) q)).
Proof.
  induction 1 as [h|h h1 h' Hstep _ IH].
  - split; [done|]. split; [done|].
    split; [exists 0%nat; simpl; by rewrite app_nil_r, Nat.add_0_r|].
    split; [exists []; simpl; by rewrite app_nil_r|]. intros q. split; [lia|done].
  - destruct (store_step_accounts h h1 Hstep)
      as (Hs1 & Hj1 & (n1 & Ht1 & Hn1) & (b1 & Hb1 & Hp1) & Hc1).
    destruct IH as (Hs & Hj & (n & Ht & Hn) & (b & Hb & Hp) & Hc).
    split; [congruence|]. split; [congruence|]. split; [|split].
    + exists (n1 + n)%nat. split; [|lia].
      rewrite Ht, Ht1, Hj1, <- app_assoc, replicate_add. done.
    + exists (b1 ++ b). split; [by rewrite Hb, Hb1, app_assoc|].
      apply Forall_app. split; [done|]. by rewrite <- Hs1.
    + intros q. destruct (Hc1 q) as [? ?], (Hc q) as [? ?]. split; [lia|congruence].
Qed.

Section Runs.

Variable handler : list observation -> Memory_Profiler_Event -> script.

(** X17. One drain request per record taken: over every producer program
    run on a newly built store, with any handler, the calls the store made
    to [rb_postponed_job_trigger] are exactly as many as the enqueues that
    returned success, each with the handle registered at construction; a
    dropped event and the drain itself request nothing. *)
Theorem one_trigger_per_successful_enqueue depth main wrapper handle events :
  Memory_Profiler_Events_new wrapper handle = inr events ->
  exists h,
    (run handler (S depth) main {| instance := events; observed := [] |}
     = Normal tt h
     \/ exists e,
          run handler (S depth) main {| instance := events; observed := [] |}
          = Raised e h)
    /\ triggered (observed h)
       = replicate (length (enqueued (observed h))) handle.
Proof.
  intros Hnew.
  destruct (run_steps handler depth main _ (idle_new _ _ _ Hnew))
    as (h & Hrun & _ & Hsteps).
  exists h. split; [done|].
  destruct (store_steps_accounts _ _ Hsteps) as (_ & _ & (n & Ht & Hn) & _).
  cbn [instance observed] in Ht, Hn. simpl in Ht, Hn. rewrite Ht, Hn.
  unfold Memory_Profiler_Events_new in Hnew.
  destruct (handle =? POSTPONED_JOB_HANDLE_INVALID); [done|].
  by inversion Hnew; subst.
Qed.

(** X18. Every write barrier names the store: over every producer program
    run on a newly built store, with any handler, each write barrier the
    host saw has the store's wrapper as its parent, and the wrapper and the
    job handle of the store are still those it was built with. *)
Theorem every_barrier_names_the_wrapper depth main wrapper handle events :
  Memory_Profiler_Events_new wrapper handle = inr events ->
  exists h,
    (run handler (S depth) main {| instance := events; observed := [] |}
     = Normal tt h
     \/ exists e,
          run handler (S depth) main {| instance := events; observed := [] |}
          = Raised e h)
    /\ Forall (fun b => b.1 = wrapper) (barriers (observed h))
    /\ self (instance h) = wrapper
    /\ postponed_job_handle (instance h) = handle.
Proof.
  intros Hnew.
  destruct (run_steps handler depth main _ (idle_new _ _ _ Hnew))
    as (h & Hrun & _ & Hsteps).
  exists h. split; [done|].
  destruct (store_steps_accounts _ _ Hsteps) as (Hs & Hj & _ & (b & Hb & Hp) & _).
  cbn [instance observed] in *. simpl in Hb. rewrite Hb, Hs, Hj.
  unfold Memory_Profiler_Events_new in Hnew.
  destruct (handle =? POSTPONED_JOB_HANDLE_INVALID); [done|].
  by inversion Hnew; subst.
Qed.

(** X19. The store only grows while it is in use: over every producer
    program run between drains, with any handler, neither queue ends with a
    smaller capacity than it started with, the element sizes are unchanged,
    and so, when the byte sizes still add up within [size_t], [memsize] has
    not gone down. *)
Theorem storage_never_shrinks_in_use depth main h :
  idle h ->
  exists h',
    (run handler (S depth) main h = Normal tt h'
     \/ exists e, run handler (S depth) main h = Raised e h')
    /\ (forall q,
          capacity (deref (instance h) q) <= capacity (deref (instance h') q)
          /\ element_size (deref (instance h') q)
             = element_size (deref (instance h) q))
    /\ (sizeof_Memory_Profiler_Events
        + capacity (queues_at_0 (instance h'))
          * element_size (queues_at_0 (instance h'))
        + capacity (queues_at_1 (instance h'))
          * element_size (queues_at_1 (instance h'))
        <= SIZE_MAX ->
        Memory_Profiler_Events_memsize (instance h)
        <= Memory_Profiler_Events_memsize (instance h')).
Proof.
  intros Hidle.
  destruct (run_steps handler depth main h Hidle) as (h' & Hrun & Hidle' & Hsteps).
  exists h'. split; [done|].
  destruct (store_steps_accounts _ _ Hsteps) as (_ & _ & _ & _ & Hc).
  split; [done|]. intros Hfit.
  destruct Hidle as (Hwf & _), Hidle' as (Hwf' & _).
  destruct (Hc queues_0) as [Hc0 He0], (Hc queues_1) as [Hc1 He1].
  simpl in Hc0, He0, Hc1, He1.
  pose proof Hwf as ((_ & Hn0 & Hes0 & _) & (_ & Hn1 & Hes1 & _) & _).
  rewrite He0, He1 in Hfit.
  rewrite (memsize_closed_form (instance h')) by (try done; by rewrite He0, He1).
  rewrite (memsize_closed_form (instance h)) by (try done; nia).
  rewrite He0, He1. nia.
Qed.

End Runs.

Lemma one_trigger_per_successful_enqueue_witness :
  exists h,
    (run faulty_handler 1 three_enqueues fresh_host = Normal tt h
     \/ exists e, run faulty_handler 1 three_enqueues fresh_host = Raised e h)
    /\ triggered (observed h) = replicate (length (enqueued (observed h))) 7.
Proof.
  apply (one_trigger_per_successful_enqueue faulty_handler 0 three_enqueues
           100 7 fresh_store).
  reflexivity.
Defined.

Lemma every_barrier_names_the_wrapper_witness :
  exists h,
    (run faulty_handler 1 three_enqueues fresh_host = Normal tt h
     \/ exists e, run faulty_handler 1 three_enqueues fresh_host = Raised e h)
    /\ Forall (fun b => b.1 = 100) (barriers (observed h)).
Proof.
  destruct (every_barrier_names_the_wrapper faulty_handler 0 three_enqueues
              100 7 fresh_store) as (h & Hrun & Hb & _).
  - reflexivity.
  - exists h. split; [exact Hrun|exact Hb].
Defined.

Lemma storage_never_shrinks_in_use_witness :
  exists h',
    (run faulty_handler 1 three_enqueues fresh_host = Normal tt h'
     \/ exists e, run faulty_handler 1 three_enqueues fresh_host = Raised e h')
    /\ forall q,
         capacity (deref (instance fresh_host) q)
         <= capacity (deref (instance h') q)
         /\ element_size (deref (instance h') q)
            = element_size (deref (instance fresh_host) q).
Proof.
  destruct (storage_never_shrinks_in_use faulty_handler 0 three_enqueues fresh_host)
    as (h' & Hrun & Hcap & _).
  - apply (idle_new 100 7). reflexivity.
  - exists h'. split; [exact Hrun|exact Hcap].
Defined.
